(** * LingoLoop: loop-playback engine, import paths and persistence

    A shallow embedding of the parts of the LingoLoop sources that carry
    behaviour:

    - [constants.ts]: [formatTime], [parseSrtTime], [parseTxtContent];
    - [components/TextEditor.tsx]: the subtitle scanner of [processContent];
    - [components/PlayerPage.tsx]: [handleSentenceClick], [handleNext] and
      the transcription scanner of [handleTranscribe];
    - [components/MediaPlayer.tsx]: [handleTimeUpdate], the loop-delay timer
      and the effect that runs when the current sentence changes;
    - [services/storageService.ts] and [services/mediaStorageService.ts].

    (In the source tree at hand [constants.ts] follows [Sidebar.tsx] in
    [src/components/Sidebar.tsx], [mediaStorageService.ts] follows
    [storageService.ts], [PlayerPage.tsx] is [src/unnamed/part_002] and
    [types.ts] is [src/unnamed/part_003].)

    Conventions of the embedding.

    - A JavaScript number is a binary64 number.  A finite one is modelled
      by the rational ([Q]) that it denotes; sums, products and quotients,
      and the reading of a number that is written in decimal, round the
      exact result to the nearest binary64 number ([Js.round64]);
      comparisons, [Math.floor], [%] and the digits of [toFixed] are exact
      in JavaScript as they are here.  Signed zeros are not told apart,
      and no result is so large that it would become an infinity.
      [formatTime] alone is modelled on numbers that may be infinite or
      [NaN] ([Js.number]); [Infinity] also appears in [maxLoops] and is an
      explicit constructor there.  The engine compares times and does no
      arithmetic on them, but for the delay of the timer.
    - A JavaScript string is a [string]; a character is a code unit below
      256.  The white space of [trim] and of the regular-expression class
      [\s] is therefore the set 9-13, 32, 160.
    - React state is read by a handler as it is after the last event: the
      component is taken to have re-rendered (and re-registered its
      listeners) between two events. *)

From Stdlib Require Import ZArith QArith Qround Qabs Qpower String Ascii List.
From Stdlib Require Import Lia Lqa DecimalString DecimalPos.
From stdpp Require Import gmap strings list.

Local Open Scope Z_scope.

(** ** JavaScript numbers *)

Module Js.

(** [Math.floor]. *)
Definition floor (x : Q) : Z := Qfloor x.

(** Truncation toward zero, the rounding of the quotient inside [%]. *)
Definition trunc (x : Q) : Z :=
  if Qle_bool 0 x then Qfloor x else Qceiling x.

(** The remainder operator [x % y]: the sign follows the dividend. *)
Definition rem (x y : Q) : Q :=
  (x - y * inject_Z (trunc (x / y)))%Q.

(** The comparisons [x <= y] and [x < y]. *)
Definition le (x y : Q) : bool := Qle_bool x y.
Definition lt (x y : Q) : bool := negb (Qle_bool y x).

(** [Math.max] and [Math.min] on two arguments. *)
Definition max (x y : Q) : Q := if Qle_bool x y then y else x.
Definition min (x y : Q) : Q := if Qle_bool x y then x else y.

(** *** Binary64

    The finite binary64 numbers are the integers below [2^53] in size
    times a power of two, from [2^-1074] on; [round64] takes a rational
    to the nearest of them, a tie going to the even one. *)

(** [2^e]. *)
Definition pow2 (e : Z) : Q := (2 ^ e)%Q.

(** The integer [l] with [2^l <= q < 2^(l+1)], for [q > 0]. *)
Definition ilog2 (q : Q) : Z :=
  let l := Z.log2 (Qnum q) - Z.log2 (Z.pos (Qden q)) in
  if Qle_bool (pow2 l) q then l else l - 1.

(** The exponent of the unit in the last place of the binary64 numbers
    around [q]: 53 bits, and no exponent below -1074. *)
Definition exponent (q : Q) : Z := Z.max (ilog2 q - 52) (-1074).

(** The nearest integer, a tie going to the even one. *)
Definition nearestEven (q : Q) : Z :=
  let f := Qfloor q in
  match (q - inject_Z f ?= 1 # 2)%Q with
  | Lt => f
  | Gt => f + 1
  | Eq => if Z.even f then f else f + 1
  end.

Definition roundPos (x : Q) : Q :=
  let e := exponent x in
  (inject_Z (nearestEven (x / pow2 e)) * pow2 e)%Q.

(** The binary64 number nearest to [x], as a fraction in lowest terms.
    (From [2^1024 - 2^970] on there is none, and JavaScript gives an
    infinity: the numbers here are smaller.) *)
Definition round64 (x : Q) : Q :=
  Qred (match (x ?= 0)%Q with
        | Eq => 0
        | Gt => roundPos x
        | Lt => - roundPos (- x)
        end)%Q.

(** [x] is a binary64 number. *)
Definition isDouble (x : Q) : Prop := (round64 x == x)%Q.

(** [x + y], [x * y] and [x / y] (for [y] other than 0). *)
Definition add (x y : Q) : Q := round64 (x + y).
Definition mul (x y : Q) : Q := round64 (x * y).
Definition div (x y : Q) : Q := round64 (x / y).

(** [Number(x.toFixed(2))]: [toFixed] writes the nearest multiple of
    1/100 of the exact value, a tie going away from zero (it picks the
    larger [n] for the absolute value and puts the sign back), and
    [Number] reads the binary64 number nearest to what is written. *)
Definition toFixed2 (x : Q) : Q :=
  if Qle_bool 0 x
  then round64 (Qmake (Qfloor (x * 100 + (1 # 2))%Q) 100)
  else round64 (Qmake (- Qfloor ((- x) * 100 + (1 # 2))%Q) 100).

(** [n.toString()] for an integer-valued number below [10^21] in size
    (from there on JavaScript writes an exponent). *)
Definition toString (n : Z) : string :=
  NilZero.string_of_int (Z.to_int n).

(** [s.padStart(n, c)] with a one-character filler. *)
Fixpoint fill (k : nat) (c : ascii) (s : string) : string :=
  match k with
  | O => s
  | S k' => String c (fill k' c s)
  end.

Definition padStart (n : nat) (c : ascii) (s : string) : string :=
  fill (n - String.length s) c s.

(** *** Numbers that may not be finite *)

Inductive number := Num (q : Q) | PosInfinity | NegInfinity | NaN.

(** [x / c] and [x * c] for a finite constant [c > 0]: an infinity stays
    what it is. *)
Definition numDiv (x : number) (c : Q) : number :=
  match x with
  | Num q => Num (div q c)
  | _ => x
  end.

Definition numMul (x : number) (c : Q) : number :=
  match x with
  | Num q => Num (mul q c)
  | _ => x
  end.

(** [x % c] for a finite constant [c > 0]: the remainder of an infinity
    is [NaN]. *)
Definition numRem (x : number) (c : Q) : number :=
  match x with
  | Num q => Num (rem q c)
  | _ => NaN
  end.

(** [Math.floor(x)]. *)
Definition numFloor (x : number) : number :=
  match x with
  | Num q => Num (inject_Z (floor q))
  | _ => x
  end.

(** [x > 0]. *)
Definition numPositive (x : number) : bool :=
  match x with
  | Num q => lt 0 q
  | PosInfinity => true
  | _ => false
  end.

(** [x.toString()], for an [x] without fraction. *)
Definition numToString (x : number) : string :=
  match x with
  | Num q => toString (Qfloor q)
  | PosInfinity => "Infinity"
  | NegInfinity => "-Infinity"
  | NaN => "NaN"
  end.

End Js.

(** ** Data model ([types.ts]) *)

Record Sentence := mkSentence {
  id : string;
  text : string;
  startTime : Q;
  endTime : Q;
  loopCount : Z
}.

Record PlaybackSettings := mkSettings {
  loopCountOption : Z;
  loopDelay : Q;
  playbackRate : Q;
  autoPlayNext : bool
}.

(** ** Time codec ([constants.ts]) *)

Module TimeCodec.

Definition formatTime (seconds : Js.number) : string :=
  let h := Js.numFloor (Js.numDiv seconds 3600) in
  let m := Js.numFloor (Js.numDiv (Js.numRem seconds 3600) 60) in
  let s := Js.numFloor (Js.numRem seconds 60) in
  let ms := Js.numFloor (Js.numMul (Js.numRem seconds 1) 100) in
  let mStr := Js.padStart 2 "0" (Js.numToString m) in
  let sStr := Js.padStart 2 "0" (Js.numToString s) in
  let msStr := Js.padStart 2 "0" (Js.numToString ms) in
  if Js.numPositive h
  then (Js.numToString h ++ ":" ++ mStr ++ ":" ++ sStr ++ "." ++ msStr)%string
  else (mStr ++ ":" ++ sStr ++ "." ++ msStr)%string.

(** The clock format as the specification words it.  A decimal digit: *)
Definition digit (d : Z) : ascii :=
  ascii_of_nat (48 + Z.to_nat d).

(** a field of exactly two digits, the tens first (so with a leading zero
    below ten): *)
Definition two_digits (n : Z) : string :=
  String (digit (n / 10)) (String (digit (n mod 10)) EmptyString).

(** and [H:MM:SS.mm] when the hours are positive, [MM:SS.mm] otherwise. *)
Definition clock (h m s c : Z) : string :=
  if 0 <? h
  then (Js.toString h ++ ":" ++ two_digits m ++ ":" ++ two_digits s
          ++ "." ++ two_digits c)%string
  else (two_digits m ++ ":" ++ two_digits s ++ "." ++ two_digits c)%string.

End TimeCodec.

(** ** Strings: the pieces of [String.prototype] and of the regular
    expressions that the import paths use *)

Module Str.

Definition code (c : ascii) : nat := nat_of_ascii c.

(** [\d] (without the unicode flag: the ten ASCII digits). *)
Definition isDigit (c : ascii) : bool :=
  (48 <=? code c)%nat && (code c <=? 57)%nat.

(** White space of [trim] and of [\s], for code units below 256. *)
Definition isSpace (c : ascii) : bool :=
  ((9 <=? code c)%nat && (code c <=? 13)%nat)
  || (code c =? 32)%nat || (code c =? 160)%nat.

(** The characters that [.] does not match. *)
Definition isLineTerminator (c : ascii) : bool :=
  (code c =? 10)%nat || (code c =? 13)%nat.

Definition isEmpty (s : string) : bool :=
  match s with EmptyString => true | String _ _ => false end.

Fixpoint trimStart (s : string) : string :=
  match s with
  | EmptyString => EmptyString
  | String c s' => if isSpace c then trimStart s' else s
  end.

Fixpoint trimEnd (s : string) : string :=
  match s with
  | EmptyString => EmptyString
  | String c s' =>
      let r := trimEnd s' in
      if isSpace c && isEmpty r then EmptyString else String c r
  end.

Definition trim (s : string) : string := trimEnd (trimStart s).

(** [s.split(sep)] for a one-character separator. *)
Fixpoint split (sep : ascii) (s : string) : list string :=
  match s with
  | EmptyString => [EmptyString]
  | String c s' =>
      if Ascii.eqb c sep then EmptyString :: split sep s'
      else match split sep s' with
           | h :: t => String c h :: t
           | [] => [String c EmptyString]
           end
  end.

(** [s.replace(/\n/g, ' ')]. *)
Fixpoint replaceNewlines (s : string) : string :=
  match s with
  | EmptyString => EmptyString
  | String c s' =>
      String (if Ascii.eqb c "010" then " "%char else c) (replaceNewlines s')
  end.

(** The greedy [\d*] at the head of [s]: the digits and what follows. *)
Fixpoint spanDigits (s : string) : string * string :=
  match s with
  | EmptyString => (EmptyString, EmptyString)
  | String c s' =>
      if isDigit c
      then let '(d, r) := spanDigits s' in (String c d, r)
      else (EmptyString, s)
  end.

Fixpoint allDigits (s : string) : bool :=
  match s with
  | EmptyString => true
  | String c s' => isDigit c && allDigits s'
  end.

(** [\d+]. *)
Definition digits1 (s : string) : option (string * string) :=
  let '(d, r) := spanDigits s in
  if isEmpty d then None else Some (d, r).

(** A literal character. *)
Definition lit (c : ascii) (s : string) : option string :=
  match s with
  | String c' s' => if Ascii.eqb c c' then Some s' else None
  | EmptyString => None
  end.

(** A literal string. *)
Fixpoint lits (p s : string) : option string :=
  match p with
  | EmptyString => Some s
  | String c p' =>
      match lit c s with
      | Some s' => lits p' s'
      | None => None
      end
  end.

(** The value of a string of decimal digits, most significant first. *)
Fixpoint digitsValueFrom (acc : Z) (s : string) : Z :=
  match s with
  | EmptyString => acc
  | String c s' => digitsValueFrom (acc * 10 + (Z.of_nat (code c) - 48)) s'
  end.

Definition digitsValue (s : string) : Z := digitsValueFrom 0 s.

(** [Number(s)] and [parseInt(s)], on the strings of digits that the
    patterns capture: the binary64 number nearest to what is written. *)
Definition Number (s : string) : Q := Js.round64 (inject_Z (digitsValue s)).
Definition parseInt (s : string) : Q := Js.round64 (inject_Z (digitsValue s)).

(** The decimal that [parseFloat] reads at the head of [s], on the
    decimals that the marker pattern captures: the digits up to the
    point, then the digits after it; its exact value. *)
Definition decimalValue (s : string) : Q :=
  let '(ip, r) := spanDigits s in
  match lit "." r with
  | Some r' =>
      let '(fp, _) := spanDigits r' in
      Qmake (digitsValue ip * 10 ^ Z.of_nat (String.length fp) + digitsValue fp)
            (Z.to_pos (10 ^ Z.of_nat (String.length fp)))
  | None => inject_Z (digitsValue ip)
  end.

(** [parseFloat(s)]: the binary64 number nearest to that decimal. *)
Definition parseFloat (s : string) : Q := Js.round64 (decimalValue s).

End Str.

(** ** Import paths ([constants.ts], [TextEditor.tsx], [PlayerPage.tsx]) *)

Module Importer.

Definition nl : ascii := "010"%char.

(** [parseSrtTime]: [HH:MM:SS,mmm] to seconds. *)
Definition parseSrtTime (timeString : string) : Q :=
  let parts := Str.split "," timeString in
  let time := nth 0 parts EmptyString in
  let ms := nth 1 parts EmptyString in
  let hms := map Str.Number (Str.split ":" time) in
  let h := nth 0 hms 0%Q in
  let m := nth 1 hms 0%Q in
  let s := nth 2 hms 0%Q in
  Js.add (Js.add (Js.add (Js.mul h 3600) (Js.mul m 60)) s)
         (Js.div (Str.parseInt ms) 1000).

(** *** The marker pattern of [parseTxtContent]

    [markerRegex], anchored at both ends of the trimmed line: an opening
    bracket, a decimal (capture 1), a hyphen, a decimal (capture 2), a
    closing bracket, any white space, and the rest of the line
    (capture 3). *)

(** A decimal of the marker, digits with an optional point and more
    digits: the capture and the rest. *)
Definition decimal (s : string) : option (string * string) :=
  '(ip, r) ← Str.digits1 s;
  match Str.lit "." r with
  | Some r' =>
      match Str.digits1 r' with
      | Some (fp, r'') => Some ((ip ++ "." ++ fp)%string, r'')
      | None => Some (ip, r)
      end
  | None => Some (ip, r)
  end.

Fixpoint hasLineTerminator (s : string) : bool :=
  match s with
  | EmptyString => false
  | String c s' => Str.isLineTerminator c || hasLineTerminator s'
  end.

(** The three captures.  After the closing bracket the white space is
    taken greedily and capture 3, a run of characters other than line
    terminators, has to reach the end of the line: it does exactly when
    no line terminator is left. *)
Definition markerMatch (s : string) : option (string * string * string) :=
  r ← Str.lit "[" s;
  '(m1, r) ← decimal r;
  r ← Str.lit "-" r;
  '(m2, r) ← decimal r;
  r ← Str.lit "]" r;
  let m3 := Str.trimStart r in
  if hasLineTerminator m3 then None else Some (m1, m2, m3).

(** *** The cue pattern of [processContent] and [handleTranscribe]

    A global pattern: one or more digits, a newline, a time stamp
    (capture 2), the arrow, a time stamp (capture 3), a newline, and the
    text (capture 4), taken lazily up to a lookahead: either two
    newlines, or nothing but newlines up to the end of the input. *)

(** [\d{n}]. *)
Fixpoint digitsN (n : nat) (s : string) : option (string * string) :=
  match n with
  | O => Some (EmptyString, s)
  | S n' =>
      match s with
      | String c s' =>
          if Str.isDigit c
          then '(d, r) ← digitsN n' s'; Some (String c d, r)
          else None
      | EmptyString => None
      end
  end.

(** [\d{2}:\d{2}:\d{2},\d{3}]. *)
Definition timestamp (s : string) : option (string * string) :=
  '(h, r) ← digitsN 2 s;
  r ← Str.lit ":" r;
  '(m, r) ← digitsN 2 r;
  r ← Str.lit ":" r;
  '(sec, r) ← digitsN 2 r;
  r ← Str.lit "," r;
  '(ms, r) ← digitsN 3 r;
  Some ((h ++ ":" ++ m ++ ":" ++ sec ++ "," ++ ms)%string, r).

Fixpoint onlyNewlines (s : string) : bool :=
  match s with
  | EmptyString => true
  | String c s' => Ascii.eqb c nl && onlyNewlines s'
  end.

(** The lookahead: two newlines, or only newlines up to the end. *)
Definition lookahead (s : string) : bool :=
  match s with
  | String c1 (String c2 _) =>
      (Ascii.eqb c1 nl && Ascii.eqb c2 nl) || onlyNewlines s
  | _ => onlyNewlines s
  end.

(** The lazy capture 4: the shortest text after which the lookahead
    holds. *)
Fixpoint lazyText (s : string) : string :=
  if lookahead s then EmptyString
  else match s with
       | EmptyString => EmptyString
       | String c s' => String c (lazyText s')
       end.

(** One match of the pattern at the head of [s]: captures 2, 3 and 4 and
    the length of the whole match. *)
Definition cueMatch (s : string) : option (string * string * string * nat) :=
  '(idx, r) ← Str.digits1 s;
  r ← Str.lit nl r;
  '(t1, r) ← timestamp r;
  r ← Str.lits " --> " r;
  '(t2, r) ← timestamp r;
  r ← Str.lit nl r;
  let txt := lazyText r in
  Some (t1, t2, txt,
        (String.length idx + 1 + 12 + 5 + 12 + 1 + String.length txt)%nat).

(** The [while ((match = regex.exec(content)) !== null)] loop: the search
    goes on from [lastIndex], the end of the previous match; [skip] is the
    number of characters still to pass before [lastIndex] is reached. *)
Fixpoint cues (skip : nat) (s : string) : list (string * string * string) :=
  match s with
  | EmptyString => []
  | String _ s' =>
      match skip with
      | S k => cues k s'
      | O =>
          match cueMatch s with
          | Some (t1, t2, txt, len) => (t1, t2, txt) :: cues (len - 1) s'
          | None => cues 0 s'
          end
      end
  end.

(** Where [currentTime] stands when the line at position [i] is read: at
    [start] for the first line, then at the end of the sentence before. *)
Definition endBefore (start : Q) (ss : list Sentence) (i : nat) : Q :=
  match i with
  | O => start
  | S j => match ss !! j with
           | Some s => endTime s
           | None => 0%Q
           end
  end.

(** The heuristic as the specification words it, in tenths of a second:
    0.1 seconds for each character of the trimmed line, at least 2 and at
    most 10 seconds. *)
Definition tenths (line : string) : Z :=
  Z.max 20 (Z.min 100 (Z.of_nat (String.length (Str.trim line)))).

(** The tenths of some lines, one after the other. *)
Fixpoint tenthsOf (lines : list string) : Z :=
  match lines with
  | [] => 0
  | l :: ls => tenths l + tenthsOf ls
  end.

(** The milliseconds that a time stamp [HH:MM:SS,mmm] writes. *)
Definition stampMillis (t : string) : Z :=
  ((Str.digitsValue (substring 0 2 t) * 60
    + Str.digitsValue (substring 3 2 t)) * 60
   + Str.digitsValue (substring 6 2 t)) * 1000
  + Str.digitsValue (substring 9 3 t).

Section WithIds.

(** [generateId()] draws on [Math.random]: the identifier of the
    [n]-th sentence of an import is the [n]-th draw. *)
Variable generateId : nat → string.

(** The body of the loop of [processContent] (and of
    [handleTranscribe], whose local [parseTime] is [parseSrtTime]). *)
Definition cueSentence (n : nat) (m : string * string * string) : Sentence :=
  let '(t1, t2, txt) := m in
  {| id := generateId n;
     startTime := parseSrtTime t1;
     endTime := parseSrtTime t2;
     text := Str.replaceNewlines txt;
     loopCount := 1 |}.

Definition srtSentences (content : string) : list Sentence :=
  imap cueSentence (cues 0 content).

(** [content.split('\n').filter(l => l.trim().length > 0)]. *)
Definition contentLines (content : string) : list string :=
  List.filter (fun l => (0 <? String.length (Str.trim l))%nat)
              (Str.split nl content).

(** [Math.max(2, Math.min(10, trimmed.length * 0.1))]; the literal
    [0.1] is the binary64 number nearest to 1/10. *)
Definition duration (trimmed : string) : Q :=
  Js.max 2 (Js.min 10 (Js.mul (inject_Z (Z.of_nat (String.length trimmed)))
                              (Js.round64 (1 # 10)))).

(** The body of [lines.forEach]: the state is [sentences] and
    [currentTime]. *)
Definition txtLine (st : list Sentence * Q) (line : string)
  : list Sentence * Q :=
  let '(sentences, currentTime) := st in
  let trimmed := Str.trim line in
  match markerMatch trimmed with
  | Some (m1, m2, m3) =>
      let start := Str.parseFloat m1 in
      let end_ := Str.parseFloat m2 in
      (sentences ++ [ {| id := generateId (length sentences);
                         startTime := start;
                         endTime := end_;
                         text := m3;
                         loopCount := 1 |} ],
       end_)
  | None =>
      let duration := duration trimmed in
      let start := Js.toFixed2 currentTime in
      let end_ := Js.toFixed2 (Js.add currentTime duration) in
      (sentences ++ [ {| id := generateId (length sentences);
                         startTime := start;
                         endTime := end_;
                         text := trimmed;
                         loopCount := 1 |} ],
       end_)
  end.

(** The sentence that the body pushes as the [n]-th one, for a line read
    with [currentTime] where it stands. *)
Definition lineSentence (n : nat) (currentTime : Q) (line : string) : Sentence :=
  let trimmed := Str.trim line in
  match markerMatch trimmed with
  | Some (m1, m2, m3) =>
      mkSentence (generateId n) m3 (Str.parseFloat m1) (Str.parseFloat m2) 1
  | None =>
      mkSentence (generateId n) trimmed
                 (Js.toFixed2 currentTime)
                 (Js.toFixed2 (Js.add currentTime (duration trimmed))) 1
  end.

Definition parseTxtContent (content : string) : list Sentence :=
  fst (fold_left txtLine (contentLines content) ([], 0%Q)).

(** [processContent]: what is handed to [onImportText]. *)
Definition processContent (content : string) (isSrt : bool) : list Sentence :=
  if isSrt then srtSentences content else parseTxtContent content.

(** [handleTranscribe], from the transcript on: the sentences of the
    page afterwards ([setSentences] only when a cue was found). *)
Definition handleTranscribe (sentences : list Sentence) (srtText : string)
  : list Sentence :=
  let newSentences := imap cueSentence (cues 0 srtText) in
  if (0 <? length newSentences)%nat then newSentences else sentences.

End WithIds.

End Importer.

(** ** The loop-playback engine ([MediaPlayer.tsx], [PlayerPage.tsx]) *)

Module Engine.

(** [maxLoops]: [Infinity] or a number. *)
Inductive Budget := Infinity | Finite (n : Z).

Definition maxLoops (settings : PlaybackSettings) : Budget :=
  if loopCountOption settings =? -1 then Infinity
  else Finite (loopCountOption settings).

(** [currentLoop < maxLoops - 1]. *)
Definition belowBudget (currentLoop : Z) (b : Budget) : bool :=
  match b with
  | Infinity => true
  | Finite n => currentLoop <? n - 1
  end.

(** What the code asks of the media element: [media.pause()], an
    assignment to [media.currentTime], [media.play()]. *)
Inductive Call := Pause | Seek (t : Q) | Play.

(** A pending [setTimeout]: the delay in milliseconds and the
    [currentSentence] that the callback closed over. *)
Record Timer := mkTimer { delayMs : Q; closure : Sentence }.

(** The state of [PlayerPage] that the engine reads.  The state that only
    the display and the session sync read ([isPlaying], [currentTime] on
    the page; [isPlaying], [internalTime], [duration] in the player) is
    left out. *)
Record Page := mkPage {
  sentences : list Sentence;
  currentSentenceId : option string;
  settings : PlaybackSettings
}.

(** The state of [MediaPlayer]. *)
Record Player := mkPlayer {
  currentLoop : Z;
  isDelaying : bool
}.

(** The media element. *)
Record Media := mkMedia { paused : bool; currentTime : Q }.

Record State := mkState {
  page : Page;
  player : Player;
  media : Media;
  timers : list Timer;
  calls : list Call
}.

(** *** The media element *)

Definition mediaPause (st : State) : State :=
  mkState (page st) (player st) (mkMedia true (currentTime (media st)))
          (timers st) (calls st ++ [Pause]).

Definition mediaSeek (t : Q) (st : State) : State :=
  mkState (page st) (player st) (mkMedia (paused (media st)) t)
          (timers st) (calls st ++ [Seek t]).

Definition mediaPlay (st : State) : State :=
  mkState (page st) (player st) (mkMedia false (currentTime (media st)))
          (timers st) (calls st ++ [Play]).

(** The transport moves on to position [t] by itself. *)
Definition mediaAdvance (t : Q) (st : State) : State :=
  mkState (page st) (player st) (mkMedia (paused (media st)) t)
          (timers st) (calls st).

(** *** State setters *)

Definition setCurrentLoop (f : Z → Z) (st : State) : State :=
  mkState (page st)
          (mkPlayer (f (currentLoop (player st))) (isDelaying (player st)))
          (media st) (timers st) (calls st).

Definition setIsDelaying (b : bool) (st : State) : State :=
  mkState (page st) (mkPlayer (currentLoop (player st)) b)
          (media st) (timers st) (calls st).

Definition setCurrentSentenceId (i : option string) (st : State) : State :=
  mkState (mkPage (sentences (page st)) i (settings (page st)))
          (player st) (media st) (timers st) (calls st).

Definition setSettings (s : PlaybackSettings) (st : State) : State :=
  mkState (mkPage (sentences (page st)) (currentSentenceId (page st)) s)
          (player st) (media st) (timers st) (calls st).

Definition setTimeout (tm : Timer) (st : State) : State :=
  mkState (page st) (player st) (media st) (timers st ++ [tm]) (calls st).

(** The timer at position [n] leaves the pending timers (it fires). *)
Definition dropTimer (n : nat) (st : State) : State :=
  mkState (page st) (player st) (media st)
          (take n (timers st) ++ drop (S n) (timers st)) (calls st).

(** *** [PlayerPage] *)

(** [Array.prototype.findIndex], -1 when nothing is found. *)
Fixpoint findIndex {A} (f : A → bool) (l : list A) : Z :=
  match l with
  | [] => -1
  | x :: l' =>
      if f x then 0
      else let i := findIndex f l' in if i <? 0 then -1 else i + 1
  end.

Definition hasId (i : option string) (s : Sentence) : bool :=
  match i with
  | Some i' => String.eqb (id s) i'
  | None => false
  end.

(** [sentences.findIndex(s => s.id === currentSentenceId)]. *)
Definition currentIndex (p : Page) : Z :=
  findIndex (hasId (currentSentenceId p)) (sentences p).

(** [sentences.find(s => s.id === currentSentenceId) || null]: the
    [currentSentence] property of the player. *)
Definition activeSentence (p : Page) : option Sentence :=
  List.find (hasId (currentSentenceId p)) (sentences p).

Definition handleSentenceClick (s : Sentence) (st : State) : State :=
  mediaPlay (mediaSeek (startTime s) (setCurrentSentenceId (Some (id s)) st)).

Definition handlePrev (st : State) : State :=
  let idx := currentIndex (page st) in
  if 0 <? idx
  then match sentences (page st) !! Z.to_nat (idx - 1) with
       | Some s => handleSentenceClick s st
       | None => st
       end
  else st.

Definition handleNext (st : State) : State :=
  let idx := currentIndex (page st) in
  if idx <? Z.of_nat (length (sentences (page st))) - 1
  then match sentences (page st) !! Z.to_nat (idx + 1) with
       | Some s => handleSentenceClick s st
       | None => st
       end
  else st.

(** *** [MediaPlayer] *)

(** The identifier [hasNext] that [handleTimeUpdate] tests with [typeof]
    is declared nowhere: neither a property of the component nor a
    variable of the module. *)
Definition hasNext : option bool := None.

(** The callback handed to [setTimeout]. *)
Definition timerCallback (currentSentence : Sentence) (st : State) : State :=
  setIsDelaying false
    (setCurrentLoop (fun prev => prev + 1)
      (mediaPlay (mediaSeek (startTime currentSentence) st))).

Definition handleTimeUpdate (st : State) : State :=
  let currentTime := currentTime (media st) in
  match activeSentence (page st) with
  | None => mediaPause st
  | Some currentSentence =>
      if negb (isDelaying (player st)) then
        if Js.le (endTime currentSentence) currentTime then
          let maxLoops := maxLoops (settings (page st)) in
          if belowBudget (currentLoop (player st)) maxLoops then
            setTimeout
              (mkTimer (Js.mul (loopDelay (settings (page st))) 1000) currentSentence)
              (setIsDelaying true (mediaPause st))
          else
            let hasNextSentence :=
              match hasNext with Some b => b | None => true end in
            if autoPlayNext (settings (page st)) && hasNextSentence then
              setCurrentLoop (fun _ => 0) (handleNext st)
            else
              setCurrentLoop (fun _ => 0)
                (mediaSeek (startTime currentSentence) (mediaPause st))
        else st
      else st
  end.

(** The effect with the dependency [currentSentence]. *)
Definition sentenceEffect (st : State) : State :=
  let st := setIsDelaying false (setCurrentLoop (fun _ => 0) st) in
  match activeSentence (page st) with
  | Some currentSentence =>
      if autoPlayNext (settings (page st)) && negb (paused (media st)) then
        if Js.lt (currentTime (media st)) (startTime currentSentence)
           || Js.lt (endTime currentSentence) (currentTime (media st))
        then mediaSeek (startTime currentSentence) st
        else st
      else st
  | None => st
  end.

(** The render that follows a handler: the effect runs when
    [currentSentence] is another element of [sentences] than before (or
    has appeared or gone). *)
Definition render (before after : State) : State :=
  if currentIndex (page before) =? currentIndex (page after)
  then after
  else sentenceEffect after.

(** *** Events *)

Inductive Event :=
| TimeUpdate (t : Q)          (* the transport reports position [t] *)
| TimerFires (n : nat)        (* the [n]-th pending timer fires *)
| Click (s : Sentence)        (* a sentence is clicked, in the text or the sidebar *)
| Prev
| Next
| SettingsChange (s : PlaybackSettings).

Definition step (st : State) (ev : Event) : State :=
  match ev with
  | TimeUpdate t =>
      let st := mediaAdvance t st in render st (handleTimeUpdate st)
  | TimerFires n =>
      match timers st !! n with
      | Some tm =>
          timerCallback (closure tm) (dropTimer n st)
      | None => st
      end
  | Click s => render st (handleSentenceClick s st)
  | Prev => render st (handlePrev st)
  | Next => render st (handleNext st)
  | SettingsChange s => setSettings s st
  end.

Definition run (st : State) (evs : list Event) : State :=
  fold_left step evs st.

(** A stretch of play that ends in a crossing: the positions [us] reported
    on the way, then the position [t]. *)
Definition plays (us : list Q) (t : Q) : list Event :=
  map TimeUpdate us ++ [TimeUpdate t].

(** The player as it is mounted on a page: nothing completed, no delay
    pending, the transport playing at [t]. *)
Definition playing (ss : list Sentence) (cur : option string)
           (s : PlaybackSettings) (t : Q) : State :=
  mkState (mkPage ss cur s) (mkPlayer 0 false) (mkMedia false t) [] [].

End Engine.

(** ** Persistence ([storageService.ts], [mediaStorageService.ts])

    The calls to [console] are not modelled: they change no state. *)

Module Storage.

Inductive MediaType := video | audio | none.

Module Group.
Record t := mk { id : string; name : string; createdAt : Z }.
End Group.

Record Project := mkProject {
  id : string;
  groupId : option string;
  name : string;
  createdAt : Z;
  lastAccessedAt : Z;
  mediaType : MediaType;
  mediaName : string;
  mediaUrl : option string;
  textUrl : option string;
  sentences : list Sentence;
  lastActiveIndex : Z;
  splitRatio : Q;
  fontSize : Z;
  currentTime : Q
}.

(** [{ ...p, groupId: g }]. *)
Definition withGroupId (g : option string) (p : Project) : Project :=
  mkProject (id p) g (name p) (createdAt p) (lastAccessedAt p) (mediaType p)
            (mediaName p) (mediaUrl p) (textUrl p) (sentences p)
            (lastActiveIndex p) (splitRatio p) (fontSize p) (currentTime p).

(** Two records that agree in every field but [groupId]. *)
Definition sameButGroupId (p q : Project) : Prop :=
  id q = id p ∧ name q = name p ∧ createdAt q = createdAt p
  ∧ lastAccessedAt q = lastAccessedAt p ∧ mediaType q = mediaType p
  ∧ mediaName q = mediaName p ∧ mediaUrl q = mediaUrl p ∧ textUrl q = textUrl p
  ∧ sentences q = sentences p ∧ lastActiveIndex q = lastActiveIndex p
  ∧ splitRatio q = splitRatio p ∧ fontSize q = fontSize p
  ∧ currentTime q = currentTime p.

(** Two records that agree in every field but [lastAccessedAt]. *)
Definition sameButLastAccessedAt (p q : Project) : Prop :=
  id q = id p ∧ groupId q = groupId p ∧ name q = name p
  ∧ createdAt q = createdAt p ∧ mediaType q = mediaType p
  ∧ mediaName q = mediaName p ∧ mediaUrl q = mediaUrl p ∧ textUrl q = textUrl p
  ∧ sentences q = sentences p ∧ lastActiveIndex q = lastActiveIndex p
  ∧ splitRatio q = splitRatio p ∧ fontSize q = fontSize p
  ∧ currentTime q = currentTime p.

(** An entry of [localStorage]: no entry, text that [JSON.parse] rejects,
    or the serialization of a value. *)
Inductive Item (A : Type) := Absent | Corrupt | Json (v : A).
Arguments Absent {A}.
Arguments Corrupt {A}.
Arguments Json {A} v.

(** [localStorage]: the two keys of the service, and whether [setItem]
    goes through or throws (quota, storage disabled). *)
Record LocalStorage := mkLocalStorage {
  lingoloop_data : Item (list Project);
  lingoloop_groups : Item (list Group.t);
  writable : bool
}.

(** A media file. *)
Record File := mkFile { fileName : string; fileBytes : string }.

(** What reached a store. *)
Inductive Effect :=
| SetItem (key : string)
| IdbDelete (projectId : string).

(** How a request to the object store [media] of IndexedDB ends:
    [initDB] rejects, the transaction fails, or it completes. *)
Inductive IdbOutcome := OpenFails | TxFails | TxCompletes.

Record World := mkWorld {
  localStorage : LocalStorage;
  mediaDB : gmap string File;
  trace : list Effect
}.

(** A synchronous call returns or throws; a promise is fulfilled or
    rejected. *)
Inductive Completion := Returns | Throws.
Inductive Settled := Fulfilled | Rejected.

Definition PROJECT_KEY : string := "lingoloop_data".
Definition GROUP_KEY : string := "lingoloop_groups".

(** *** Projects *)

Definition getProjects (w : World) : list Project :=
  match lingoloop_data (localStorage w) with
  | Json data => data
  | Absent => []
  | Corrupt => []
  end.

Definition saveProjects (projects : list Project) (w : World) : World :=
  if writable (localStorage w)
  then mkWorld (mkLocalStorage (Json projects)
                               (lingoloop_groups (localStorage w)) true)
               (mediaDB w) (trace w ++ [SetItem PROJECT_KEY])
  else w.

(** *** Groups *)

Definition getGroups (w : World) : list Group.t :=
  match lingoloop_groups (localStorage w) with
  | Json data => data
  | Absent => []
  | Corrupt => []
  end.

(** No [try] here: a failing [setItem] throws out of [saveGroups]. *)
Definition saveGroups (groups : list Group.t) (w : World) : Completion * World :=
  if writable (localStorage w)
  then (Returns,
        mkWorld (mkLocalStorage (lingoloop_data (localStorage w))
                                (Json groups) true)
                (mediaDB w) (trace w ++ [SetItem GROUP_KEY]))
  else (Throws, w).

Definition deleteGroup (groupId : string) (w : World) : Completion * World :=
  let groups := getGroups w in
  match saveGroups (filter (λ g, Group.id g ≠ groupId) groups) w with
  | (Throws, w) => (Throws, w)
  | (Returns, w) =>
      let projects := getProjects w in
      let updatedProjects :=
        map (λ p, if decide (Storage.groupId p = Some groupId)
                  then withGroupId None p else p) projects in
      (Returns, saveProjects updatedProjects w)
  end.

(** *** The media store *)

(** [deleteMediaFromDB].  A rejection of [initDB] is caught inside; the
    promise of the transaction is returned without [await], so that its
    rejection passes the [catch] and rejects the call. *)
Definition deleteMediaFromDB (o : IdbOutcome) (projectId : string) (w : World)
  : Settled * World :=
  match o with
  | OpenFails => (Fulfilled, w)
  | TxFails =>
      (Rejected,
       mkWorld (localStorage w) (mediaDB w) (trace w ++ [IdbDelete projectId]))
  | TxCompletes =>
      (Fulfilled,
       mkWorld (localStorage w) (delete projectId (mediaDB w))
               (trace w ++ [IdbDelete projectId]))
  end.

Definition deleteProjectFromStorage (o : IdbOutcome) (projectId : string)
           (w : World) : Settled * World :=
  let projects := getProjects w in
  let newProjects := filter (λ p, id p ≠ projectId) projects in
  let w := saveProjects newProjects w in
  match deleteMediaFromDB o projectId w with
  | (Fulfilled, w) => (Fulfilled, w)
  | (Rejected, w) => (Fulfilled, w)
  end.

End Storage.

(** ** Sample data *)

Module Sample.

Definition A : Sentence := mkSentence "a" "first" 1 2 1.
Definition B : Sentence := mkSentence "b" "second" 2 3 1.
Definition C : Sentence := mkSentence "c" "third" 3 4 1.

(** Three plays, no advance. *)
Definition loop3 : PlaybackSettings := mkSettings 3 (Js.round64 (2 # 10)) 1 false.

(** One play, then the next sentence. *)
Definition once_auto : PlaybackSettings := mkSettings 1 (Js.round64 (2 # 10)) 1 true.

(** The binary64 numbers that the literals [3725.07], [2.3] and [0.03]
    denote, as exact fractions ([65.5] is a binary64 number itself). *)
Definition b64_3725_07 : Q := 8191515558559089 # 2199023255552.
Definition b64_2_3 : Q := 2589569785738035 # 1125899906842624.
Definition b64_0_03 : Q := 1080863910568919 # 36028797018963968.

(** The identifiers drawn by an import: any sequence will do. *)
Definition ids (n : nat) : string := Js.toString (Z.of_nat n).

Definition lines2 (a b : string) : string :=
  (a ++ String Importer.nl b)%string.

(** A marked line whose end is written below its start. *)
Definition backwards_txt : string := "[5-3] x".

(** A cue whose end is written below its start. *)
Definition backwards_srt : string :=
  lines2 "1" (lines2 "00:00:05,000 --> 00:00:03,000" "hi").

(** A marked line with three decimals, then a free line. *)
Definition marked_then_free : string := lines2 "[0-1.234] a" "hello".

(** Two free lines. *)
Definition two_free : string := lines2 "hello" "world".

(** A marked line that ends half a hundredth after 0, and a free line. *)
Definition half_hundredth : string := lines2 "[0-0.005] a" "b".

(** A marked line that ends at [10^17] seconds, and a free line. *)
Definition far_then_free : string := lines2 "[0-100000000000000000] a" "b".

Definition project (i : string) (g : option string) : Storage.Project :=
  Storage.mkProject i g "lesson" 0 0 Storage.none "" None None [A; B] (-1) 70 16 0.

Definition world : Storage.World :=
  Storage.mkWorld
    (Storage.mkLocalStorage
       (Storage.Json [project "p1" (Some "g1"); project "p2" (Some "g2");
                      project "p3" None])
       (Storage.Json [Storage.Group.mk "g1" "one" 0; Storage.Group.mk "g2" "two" 0])
       true)
    {[ "p1" := Storage.mkFile "a.mp3" "..." ]}
    [].

End Sample.

(** * More of the sources

    The functions around the ones above: the transcript export of
    [TextEditor.tsx], the other operations of [storageService.ts] and of
    [mediaStorageService.ts], and the state that [PlayerPage.tsx] and
    [HomePage.tsx] keep in the stores. *)

(** ** More of the standard library of JavaScript *)

Module Text.

(** The digits of [n] hundredths: those of the whole part, a point, and
    two more. *)
Definition fixed2 (n : Z) : string :=
  (Js.toString (n / 100) ++ "." ++ Js.padStart 2 "0" (Js.toString (n mod 100)))%string.

(** [x.toFixed(2)], the string: the nearest number of hundredths to the
    absolute value (the larger one on a tie), behind a minus sign for a
    negative [x].  From [10^21] on, [toFixed] writes an exponent instead:
    the numbers here are smaller. *)
Definition toFixed2 (x : Q) : string :=
  if Qle_bool 0 x
  then fixed2 (Qfloor (x * 100 + (1 # 2))%Q)
  else ("-" ++ fixed2 (Qfloor ((- x) * 100 + (1 # 2))%Q))%string.

(** [lines.join(sep)] for a one-character separator. *)
Fixpoint join (sep : ascii) (l : list string) : string :=
  match l with
  | [] => EmptyString
  | [x] => x
  | x :: l' => (x ++ String sep (join sep l'))%string
  end.

(** Is there a digit with a newline right after it?  (Every match of the
    cue pattern starts with one.) *)
Fixpoint digitThenNewline (s : string) : bool :=
  match s with
  | String c ((String c' _) as s') =>
      (Str.isDigit c && Ascii.eqb c' "010") || digitThenNewline s'
  | _ => false
  end.

(** A string in a condition: the empty string counts as false, and so
    does a missing one. *)
Definition truthy (s : option string) : bool :=
  match s with
  | Some s' => negb (Str.isEmpty s')
  | None => false
  end.

End Text.

(** ** The text pane ([TextEditor.tsx]) *)

Module TextEditor.

(** One line of [handleDownloadTxt]. *)
Definition exportLine (s : Sentence) : string :=
  ("[" ++ Text.toFixed2 (startTime s) ++ "-" ++ Text.toFixed2 (endTime s)
       ++ "] " ++ text s)%string.

(** [handleDownloadTxt]: the content of the file that is offered, none
    when there is no sentence. *)
Definition handleDownloadTxt (sentences : list Sentence) : option string :=
  match sentences with
  | [] => None
  | _ => Some (Text.join Importer.nl (map exportLine sentences))
  end.

(** A sentence that the export writes as a marked line that the import
    reads as one: times that are not negative (and below [10^21], where
    [toFixed] writes digits) and a text on one line. *)
Definition exportable (s : Sentence) : Prop :=
  (0 <= startTime s < inject_Z (10 ^ 21))%Q
  ∧ (0 <= endTime s < inject_Z (10 ^ 21))%Q
  ∧ Importer.hasLineTerminator (text s) = false.

(** What comes back of sentence [s], exported as the line at position [i]:
    the times to two decimals and the trimmed text, with a new identifier
    and a loop count of 1. *)
Definition reimported (generateId : nat → string) (i : nat) (s : Sentence)
  : Sentence :=
  mkSentence (generateId i) (Str.trim (text s)) (Js.toFixed2 (startTime s))
             (Js.toFixed2 (endTime s)) 1.

(** The two buttons for the size of the text: what they hand to
    [onFontSizeChange]. *)
Definition fontSmaller (fontSize : Z) : Z := Z.max 12 (fontSize - 2).
Definition fontLarger (fontSize : Z) : Z := Z.min 32 (fontSize + 2).

End TextEditor.

(** ** The other operations of the two services *)

Module Service.

Import Storage.

(** [{ ...project, lastAccessedAt: now }]. *)
Definition withLastAccessedAt (now : Z) (p : Project) : Project :=
  mkProject (id p) (groupId p) (name p) (createdAt p) now (mediaType p)
            (mediaName p) (mediaUrl p) (textUrl p) (sentences p)
            (lastActiveIndex p) (splitRatio p) (fontSize p) (currentTime p).

(** [createProject]: [newId] is the draw of [generateId()] and [now] the
    value of [Date.now()]. *)
Definition createProject (newId : string) (now : Z) (name : string)
           (groupId : option string) : Project :=
  mkProject newId groupId name now now none EmptyString None None [] (-1) 70 16 0.

Definition updateProjectInStorage (now : Z) (project : Project) (w : World)
  : World :=
  let projects := getProjects w in
  let index :=
    Engine.findIndex (λ p, String.eqb (id p) (id project)) projects in
  if negb (index =? -1)
  then saveProjects
         (<[Z.to_nat index := withLastAccessedAt now project]> projects) w
  else w.

Definition createGroup (newId : string) (now : Z) (name : string) (w : World)
  : Completion * World :=
  let newGroup := Group.mk newId name now in
  let groups := getGroups w in
  saveGroups (groups ++ [newGroup]) w.

Definition moveProjectToGroup (projectId : string) (groupId : option string)
           (w : World) : World :=
  let projects := getProjects w in
  let idx := Engine.findIndex (λ p, String.eqb (id p) projectId) projects in
  if negb (idx =? -1)
  then match projects !! Z.to_nat idx with
       | Some p =>
           saveProjects (<[Z.to_nat idx := withGroupId groupId p]> projects) w
       | None => w
       end
  else w.

(** [saveMediaToDB], on the object store alone.  As in
    [deleteMediaFromDB], a rejection of [initDB] is caught and the promise
    of the transaction is returned as it is. *)
Definition saveMediaToDB (o : IdbOutcome) (projectId : string) (file : File)
           (db : gmap string File) : Settled * gmap string File :=
  match o with
  | OpenFails => (Fulfilled, db)
  | TxFails => (Rejected, db)
  | TxCompletes => (Fulfilled, <[projectId := file]> db)
  end.

(** [getMediaFromDB]: the file, or [undefined]. *)
Definition getMediaFromDB (o : IdbOutcome) (projectId : string)
           (db : gmap string File) : Settled * option File :=
  match o with
  | OpenFails => (Fulfilled, None)
  | TxFails => (Rejected, None)
  | TxCompletes => (Fulfilled, db !! projectId)
  end.

End Service.

(** ** The page of a project ([PlayerPage.tsx]) *)

Module PlayerPage.

(** The identifier of a sentence, where [id] is the one of a project. *)
Local Abbreviation sentenceId := id (only parsing).

Import Storage.

(** What the page plays: a remote address, or a file of the media store
    (behind an object URL). *)
Inductive MediaSrc := Remote (url : string) | Local (file : File).

(** [mediaSrc] in a condition: the address of a file of the store is
    never empty. *)
Definition hasSrc (mediaSrc : option MediaSrc) : bool :=
  match mediaSrc with
  | Some (Remote url) => Text.truthy (Some url)
  | Some (Local _) => true
  | None => false
  end.

(** [loadMedia]: [mediaSrc] after the effect, from [mediaSrc] before. *)
Definition loadMedia (o : IdbOutcome) (project : Project)
           (mediaSrc : option MediaSrc) (db : gmap string File)
  : option MediaSrc :=
  let fromStore :=
    if Text.truthy (Some (mediaName project)) && negb (hasSrc mediaSrc)
    then match Service.getMediaFromDB o (id project) db with
         | (Fulfilled, Some file) => Some (Local file)
         | _ => mediaSrc
         end
    else mediaSrc in
  match mediaUrl project with
  | Some url => if Text.truthy (Some url) then Some (Remote url) else fromStore
  | None => fromStore
  end.

(** The first value of [currentSentenceId]. *)
Definition initialSentenceId (project : Project) : option string :=
  if 0 <=? lastActiveIndex project
  then match sentences project !! Z.to_nat (lastActiveIndex project) with
       | Some s => Some (sentenceId s)
       | None => None
       end
  else None.

(** [project.splitRatio || 70] and [project.fontSize || 16]: zero counts
    as missing. *)
Definition initialSplitRatio (project : Project) : Q :=
  if Qeq_bool (splitRatio project) 0 then 70%Q else splitRatio project.

Definition initialFontSize (project : Project) : Z :=
  if fontSize project =? 0 then 16 else fontSize project.

(** The record that the persistence effect builds. *)
Definition updatedProject (project : Project) (sentences : list Sentence)
           (currentSentenceId : option string) (splitRatio : Q) (fontSize : Z)
           (currentTime : Q) : Project :=
  mkProject (id project) (groupId project) (name project) (createdAt project)
            (lastAccessedAt project) (mediaType project) (mediaName project)
            (mediaUrl project) (textUrl project)
            sentences
            (Engine.findIndex (Engine.hasId currentSentenceId) sentences)
            splitRatio fontSize currentTime.

(** The persistence effect. *)
Definition persistenceSync (now : Z) (project : Project)
           (sentences : list Sentence) (currentSentenceId : option string)
           (splitRatio : Q) (fontSize : Z) (currentTime : Q) (w : World)
  : World :=
  Service.updateProjectInStorage now
    (updatedProject project sentences currentSentenceId splitRatio fontSize
                    currentTime) w.

(** [handleMouseMove] of the divider: [splitRatio] afterwards.  A
    container of width 0 gives no number between 20 and 80, here as
    there. *)
Definition handleMouseMove (clientX containerWidth splitRatio : Q) : Q :=
  let newRatio := Js.mul (Js.div clientX containerWidth) 100 in
  if Js.lt 20 newRatio && Js.lt newRatio 80 then newRatio else splitRatio.

(** [onUpdateSentence]: the update of [sentences]. *)
Definition onUpdateSentence (updatedS : Sentence) (prev : list Sentence)
  : list Sentence :=
  map (λ s, if String.eqb (sentenceId s) (sentenceId updatedS)
            then updatedS else s) prev.

End PlayerPage.

(** ** Streams of events *)

Module Scenario.

(** Crossings at the positions [ts], each followed by the firing of the
    timer it scheduled. *)
Definition cycles (ts : list Q) : list Engine.Event :=
  flat_map (λ t, [Engine.TimeUpdate t; Engine.TimerFires 0]) ts.

(** The calls of [n] cycles on a sentence that starts at [start]. *)
Fixpoint cycleCalls (n : nat) (start : Q) : list Engine.Call :=
  match n with
  | O => []
  | S n' => [Engine.Pause; Engine.Seek start; Engine.Play] ++ cycleCalls n' start
  end.

End Scenario.

(** ** The home page ([HomePage.tsx]) *)

Module HomePage.

Import Storage.

(** [handleCreateProject], up to the write: it reads and writes
    [localStorage] itself, outside any [try]. *)
Definition handleCreateProject (newId : string) (now : Z)
           (newItemName : string) (currentGroupId : option string) (w : World)
  : Completion * World :=
  if Str.isEmpty (Str.trim newItemName) then (Returns, w)
  else
    let newProject := Service.createProject newId now newItemName currentGroupId in
    match lingoloop_data (localStorage w) with
    | Corrupt => (Throws, w)
    | item =>
        let currentProjects :=
          match item with Json ps => ps | _ => [] end in
        if writable (localStorage w)
        then (Returns,
              mkWorld (mkLocalStorage (Json (currentProjects ++ [newProject]))
                                      (lingoloop_groups (localStorage w)) true)
                      (mediaDB w) (trace w ++ [SetItem PROJECT_KEY]))
        else (Throws, w)
    end.

(** [filteredProjects]: the projects shown in the group that is open,
    or at the root. *)
Definition filteredProjects (currentGroupId : option string)
           (projects : list Project) : list Project :=
  filter (λ p, groupId p = currentGroupId) projects.

End HomePage.

(** ** Subtitle files *)

Module Subtitles.







End Subtitles.

(** ** More sample data *)

Module Examples.

Definition lesson : list Sentence := [Sample.A; Sample.B].

(** Sentence [A] with a later end. *)
Definition A_longer : Sentence := mkSentence "a" "first" 1 (5 # 2) 1.

(** Repeat without end. *)
Definition forever : PlaybackSettings := mkSettings (-1) (Js.round64 (2 # 10)) 1 true.



(** A cue written with CR LF line ends. *)
Definition crlf_srt : string :=
  ("1" ++ String "013" (String "010"
     ("00:00:01,000 --> 00:00:02,000" ++ String "013" (String "010" "hi"))))%string.

(** The player of [lesson] with [A] selected, at the moment the delay
    before the first replay starts. *)
Definition awaiting : Engine.State :=
  Engine.step (Engine.playing lesson (Some "a"%string) Sample.loop3 1)
              (Engine.TimeUpdate 2).

(** The second project of [Sample.world], as the page holds it. *)
Definition p2 : Storage.Project := Sample.project "p2" (Some "g2"%string).

Definition song : Storage.File := Storage.mkFile "b.mp3" "...".

End Examples.

(** * Properties *)

(** ** Persistence *)

Section StorageFacts.

Import Storage.

Lemma getProjects_saveProjects (ps : list Project) (w : World) :
  writable (localStorage w) = true →
  getProjects (saveProjects ps w) = ps.
Proof. intros Hw. unfold saveProjects. rewrite Hw. reflexivity. Qed.

Lemma getGroups_saveProjects (ps : list Project) (w : World) :
  getGroups (saveProjects ps w) = getGroups w.
Proof. unfold saveProjects. destruct (writable _); reflexivity. Qed.

Lemma mediaDB_saveProjects (ps : list Project) (w : World) :
  mediaDB (saveProjects ps w) = mediaDB w.
Proof. unfold saveProjects. destruct (writable _); reflexivity. Qed.

Lemma trace_saveProjects (ps : list Project) (w : World) :
  writable (localStorage w) = true →
  trace (saveProjects ps w) = trace w ++ [SetItem PROJECT_KEY].
Proof. intros Hw. unfold saveProjects. rewrite Hw. reflexivity. Qed.

(** What [deleteGroup] leaves in the two collections. *)
Lemma deleteGroup_returns (g : string) (w : World) :
  writable (localStorage w) = true →
  ∃ w', deleteGroup g w = (Returns, w')
        ∧ getGroups w' = filter (λ x, Group.id x ≠ g) (getGroups w)
        ∧ getProjects w' =
            map (λ p, if decide (groupId p = Some g)
                      then withGroupId None p else p) (getProjects w)
        ∧ mediaDB w' = mediaDB w.
Proof.
  intros Hw. unfold deleteGroup, saveGroups. rewrite Hw.
  eexists. split; [reflexivity|].
  rewrite getGroups_saveProjects, mediaDB_saveProjects.
  rewrite getProjects_saveProjects by reflexivity.
  repeat split.
Qed.

(** The collections that a store holds are the ones that are read. *)
Lemma getProjects_stored (w : World) (ps : list Project) :
  lingoloop_data (localStorage w) = Json ps → getProjects w = ps.
Proof. intros H. unfold getProjects. rewrite H. reflexivity. Qed.

Lemma getGroups_stored (w : World) (gs : list Group.t) :
  lingoloop_groups (localStorage w) = Json gs → getGroups w = gs.
Proof. intros H. unfold getGroups. rewrite H. reflexivity. Qed.

(** What [saveProjects] leaves in a store that takes the write. *)
Lemma stored_saveProjects (ps : list Project) (w : World) :
  writable (localStorage w) = true →
  lingoloop_data (localStorage (saveProjects ps w)) = Json ps
  ∧ lingoloop_groups (localStorage (saveProjects ps w)) = lingoloop_groups (localStorage w)
  ∧ mediaDB (saveProjects ps w) = mediaDB w.
Proof. intros Hw. unfold saveProjects. rewrite Hw. repeat split. Qed.

(** What [deleteGroup] leaves under the two keys. *)
Lemma deleteGroup_stored
    (g : string) (w : World) (ps : list Project) (gs : list Group.t) :
  writable (localStorage w) = true →
  lingoloop_data (localStorage w) = Json ps →
  lingoloop_groups (localStorage w) = Json gs →
  ∃ w', deleteGroup g w = (Returns, w')
        ∧ lingoloop_groups (localStorage w') = Json (filter (λ x, Group.id x ≠ g) gs)
        ∧ lingoloop_data (localStorage w') =
            Json (map (λ p, if decide (groupId p = Some g)
                            then withGroupId None p else p) ps)
        ∧ mediaDB w' = mediaDB w.
Proof.
  intros Hw Hps Hgs. unfold deleteGroup, saveGroups. rewrite Hw.
  eexists. split; [reflexivity|].
  rewrite (getGroups_stored w gs Hgs).
  match goal with |- context [saveProjects ?l ?w1] =>
    destruct (stored_saveProjects l w1 eq_refl) as (H1 & H2 & H3) end.
  rewrite H1, H2, H3. cbn [localStorage lingoloop_groups mediaDB].
  split; [reflexivity|]. split; [|reflexivity].
  unfold getProjects. cbn [localStorage lingoloop_data]. rewrite Hps. reflexivity.
Qed.

(** The metadata side of [deleteProjectFromStorage] does not look at
    what happens to the media store. *)
Lemma deleteProject_metadata (o : IdbOutcome) (pid : string) (w : World) :
  writable (localStorage w) = true →
  getProjects (deleteProjectFromStorage o pid w).2 =
    filter (λ p, id p ≠ pid) (getProjects w).
Proof.
  intros Hw. unfold deleteProjectFromStorage, deleteMediaFromDB.
  destruct o; cbn; unfold getProjects at 1; cbn;
    fold (getProjects (saveProjects (filter (λ p, id p ≠ pid) (getProjects w)) w));
    apply getProjects_saveProjects, Hw.
Qed.

End StorageFacts.

(** C7: in a store that holds the two collections and takes the write,
    deleting a group removes the group record and nothing else: the
    stored groups are the old ones without those of that identifier; the
    stored projects are as many as before, and at every position a
    project of that group has its [groupId] cleared and every other field
    as before, and a project of another group or of the root is the
    record that it was; the media store is untouched. *)
Theorem C7_deleteGroup_moves_projects_to_root
    (g : string) (w : Storage.World)
    (ps : list Storage.Project) (gs : list Storage.Group.t) :
  Storage.writable (Storage.localStorage w) = true →
  Storage.lingoloop_data (Storage.localStorage w) = Storage.Json ps →
  Storage.lingoloop_groups (Storage.localStorage w) = Storage.Json gs →
  ∃ w' ps',
    Storage.deleteGroup g w = (Storage.Returns, w')
    ∧ Storage.lingoloop_groups (Storage.localStorage w')
      = Storage.Json (filter (λ x, Storage.Group.id x ≠ g) gs)
    ∧ Storage.lingoloop_data (Storage.localStorage w') = Storage.Json ps'
    ∧ length ps' = length ps
    ∧ (∀ i p, ps !! i = Some p →
         ∃ p', ps' !! i = Some p'
           ∧ (Storage.groupId p = Some g →
                Storage.groupId p' = None ∧ Storage.sameButGroupId p p')
           ∧ (Storage.groupId p ≠ Some g → p' = p))
    ∧ Storage.mediaDB w' = Storage.mediaDB w.
Proof.
  intros Hw Hps Hgs.
  destruct (deleteGroup_stored g w ps gs Hw Hps Hgs) as (w' & Hd & Hg & Hp & Hm).
  exists w', (map (λ p, if decide (Storage.groupId p = Some g)
                        then Storage.withGroupId None p else p) ps).
  split; [exact Hd|]. split; [exact Hg|]. split; [exact Hp|].
  split; [apply length_map|].
  split; [|exact Hm].
  intros i p Hi. rewrite list_lookup_fmap, Hi. cbn.
  eexists. split; [reflexivity|].
  destruct (decide _) as [Hin|Hout]; split; intros H; try contradiction.
  - split; [reflexivity|]. repeat split.
  - reflexivity.
Qed.

Lemma C7_witness :
  ∃ w' ps',
    Storage.deleteGroup "g1" Sample.world = (Storage.Returns, w')
    ∧ Storage.lingoloop_groups (Storage.localStorage w')
      = Storage.Json [Storage.Group.mk "g2" "two" 0]
    ∧ Storage.lingoloop_data (Storage.localStorage w') = Storage.Json ps'
    ∧ length ps' = 3%nat
    ∧ (∀ i p, [Sample.project "p1" (Some "g1"%string);
               Sample.project "p2" (Some "g2"%string);
               Sample.project "p3" None] !! i = Some p →
         ∃ p', ps' !! i = Some p'
           ∧ (Storage.groupId p = Some "g1"%string →
                Storage.groupId p' = None ∧ Storage.sameButGroupId p p')
           ∧ (Storage.groupId p ≠ Some "g1"%string → p' = p))
    ∧ Storage.mediaDB w' = Storage.mediaDB Sample.world.
Proof.
  exact (C7_deleteGroup_moves_projects_to_root "g1" Sample.world _ _ eq_refl eq_refl eq_refl).
Defined.

(** C8: whatever happens to the deletion in the media store (the database
    does not open, the transaction fails, or it completes), the call is
    fulfilled and the project collection is the old one without the
    records of that id; the media store is asked after the collection has
    been written, and a failure there leaves both stores as they were. *)
Theorem C8_deleteProject_survives_media_failure
    (o : Storage.IdbOutcome) (pid : string) (w : Storage.World) :
  Storage.writable (Storage.localStorage w) = true →
  ∃ w', Storage.deleteProjectFromStorage o pid w = (Storage.Fulfilled, w')
    ∧ Storage.getProjects w' =
        filter (λ p, Storage.id p ≠ pid) (Storage.getProjects w)
    ∧ (∀ p, p ∈ Storage.getProjects w' → Storage.id p ≠ pid)
    ∧ (∃ rest, Storage.trace w' =
                 Storage.trace w ++ Storage.SetItem Storage.PROJECT_KEY :: rest
               ∧ (o = Storage.OpenFails → rest = [])
               ∧ (o ≠ Storage.OpenFails → rest = [Storage.IdbDelete pid]))
    ∧ (o ≠ Storage.TxCompletes → Storage.mediaDB w' = Storage.mediaDB w)
    ∧ (o = Storage.TxCompletes →
         Storage.mediaDB w' = delete pid (Storage.mediaDB w)).
Proof.
  intros Hw.
  pose proof (deleteProject_metadata o pid w Hw) as Hmeta.
  exists (Storage.deleteProjectFromStorage o pid w).2.
  split; [destruct o; reflexivity|].
  split; [exact Hmeta|].
  split.
  { intros p Hp. rewrite Hmeta in Hp.
    apply list_elem_of_filter in Hp. tauto. }
  split.
  { destruct o; cbn; rewrite (trace_saveProjects _ _ Hw).
    - exists []. repeat split; intros; congruence.
    - exists [Storage.IdbDelete pid]. rewrite <- app_assoc.
      repeat split; intros; congruence.
    - exists [Storage.IdbDelete pid]. rewrite <- app_assoc.
      repeat split; intros; congruence. }
  split; destruct o; cbn; intros; try congruence;
    rewrite mediaDB_saveProjects; reflexivity.
Qed.

Lemma C8_witness :
  ∃ w', Storage.deleteProjectFromStorage Storage.TxFails "p1" Sample.world
          = (Storage.Fulfilled, w')
    ∧ Storage.getProjects w' =
        filter (λ p, Storage.id p ≠ "p1"%string) (Storage.getProjects Sample.world)
    ∧ (∀ p, p ∈ Storage.getProjects w' → Storage.id p ≠ "p1"%string)
    ∧ (∃ rest, Storage.trace w' =
                 Storage.trace Sample.world
                   ++ Storage.SetItem Storage.PROJECT_KEY :: rest
               ∧ (Storage.TxFails = Storage.OpenFails → rest = [])
               ∧ (Storage.TxFails ≠ Storage.OpenFails →
                    rest = [Storage.IdbDelete "p1"]))
    ∧ (Storage.TxFails ≠ Storage.TxCompletes →
         Storage.mediaDB w' = Storage.mediaDB Sample.world)
    ∧ (Storage.TxFails = Storage.TxCompletes →
         Storage.mediaDB w' = delete "p1"%string (Storage.mediaDB Sample.world)).
Proof.
  apply (C8_deleteProject_survives_media_failure Storage.TxFails "p1" Sample.world).
  reflexivity.
Defined.

(** ** The engine *)

Section EngineFacts.

Import Engine.

(** Unfold the setters and the calls on the media element. *)
Ltac run_setters :=
  unfold timerCallback, handleSentenceClick, setTimeout, setIsDelaying,
    setCurrentLoop, setCurrentSentenceId, setSettings, dropTimer,
    mediaPlay, mediaSeek, mediaPause, mediaAdvance;
  cbn.

Lemma findIndex_ge {A} (f : A → bool) (l : list A) : -1 ≤ findIndex f l.
Proof.
  induction l as [|x l IH]; cbn; [lia|].
  destruct (f x); [lia|]. destruct (Z.ltb_spec (findIndex f l) 0); lia.
Qed.

Lemma findIndex_lt {A} (f : A → bool) (l : list A) :
  findIndex f l < Z.of_nat (length l).
Proof.
  induction l as [|x l IH]; cbn [findIndex length]; [lia|].
  destruct (f x); [lia|]. destruct (Z.ltb_spec (findIndex f l) 0); lia.
Qed.

(** [find] and [findIndex] agree. *)
Lemma find_findIndex {A} (f : A → bool) (l : list A) (x : A) :
  List.find f l = Some x →
  0 ≤ findIndex f l ∧ l !! Z.to_nat (findIndex f l) = Some x.
Proof.
  induction l as [|y l IH]; cbn [List.find findIndex]; [discriminate|].
  destruct (f y); intros H.
  - split; [lia|]. exact H.
  - destruct (IH H) as [Hge Hl].
    destruct (Z.ltb_spec (findIndex f l) 0); [lia|].
    split; [lia|]. replace (Z.to_nat (findIndex f l + 1)) with (S (Z.to_nat (findIndex f l))) by lia.
    exact Hl.
Qed.

Lemma find_unique_id (ss : list Sentence) (k : nat) (s : Sentence) :
  NoDup (map id ss) → ss !! k = Some s →
  List.find (hasId (Some (id s))) ss = Some s.
Proof.
  revert k. induction ss as [|x ss IH]; intros k Hnd Hk; [discriminate|].
  cbn [List.find hasId]. inversion Hnd as [|? ? Hnotin Hnd']; subst.
  destruct k as [|k]; cbn in Hk.
  - injection Hk as ->. rewrite String.eqb_refl. reflexivity.
  - destruct (String.eqb_spec (id x) (id s)) as [Heq|Hne].
    + exfalso. apply Hnotin. rewrite Heq. apply list_elem_of_fmap. exists s. split; [reflexivity|].
      eapply list_elem_of_lookup_2. exact Hk.
    + eapply IH; eassumption.
Qed.


(** The handlers of the page and the effect leave the pending timers
    alone: nothing in the sources calls [clearTimeout] on them. *)
Lemma timers_handleSentenceClick s st :
  timers (handleSentenceClick s st) = timers st.
Proof. reflexivity. Qed.

Lemma timers_handleNext st : timers (handleNext st) = timers st.
Proof.
  unfold handleNext. destruct (_ <? _); [|reflexivity].
  destruct (_ !! _); reflexivity.
Qed.

Lemma timers_handlePrev st : timers (handlePrev st) = timers st.
Proof.
  unfold handlePrev. destruct (_ <? _); [|reflexivity].
  destruct (_ !! _); reflexivity.
Qed.

Lemma timers_sentenceEffect st : timers (sentenceEffect st) = timers st.
Proof.
  unfold sentenceEffect. cbn. destruct (activeSentence _); [|reflexivity].
  destruct (_ && _); [|reflexivity]. destruct (_ || _); reflexivity.
Qed.

Lemma timers_render st0 st : timers (render st0 st) = timers st.
Proof.
  unfold render. destruct (_ =? _); [reflexivity|apply timers_sentenceEffect].
Qed.

Lemma player_handleNext st : player (handleNext st) = player st.
Proof.
  unfold handleNext. destruct (_ <? _); [|reflexivity].
  destruct (_ !! _); reflexivity.
Qed.

Lemma player_sentenceEffect st : player (sentenceEffect st) = mkPlayer 0 false.
Proof.
  unfold sentenceEffect. cbn. destruct (activeSentence _); [|reflexivity].
  destruct (_ && _); [|reflexivity]. destruct (_ || _); reflexivity.
Qed.

Lemma page_sentenceEffect st : page (sentenceEffect st) = page st.
Proof.
  unfold sentenceEffect. cbn. destruct (activeSentence _); [|reflexivity].
  destruct (_ && _); [|reflexivity]. destruct (_ || _); reflexivity.
Qed.

Lemma page_render st0 st : page (render st0 st) = page st.
Proof.
  unfold render. destruct (_ =? _); [reflexivity|apply page_sentenceEffect].
Qed.

Lemma paused_sentenceEffect st :
  paused (media (sentenceEffect st)) = paused (media st).
Proof.
  unfold sentenceEffect. cbn. destruct (activeSentence _); [|reflexivity].
  destruct (_ && _); [|reflexivity]. destruct (_ || _); reflexivity.
Qed.

(** The effect asks nothing of the media element but a seek. *)
Lemma calls_sentenceEffect st :
  ∃ extra, calls (sentenceEffect st) = calls st ++ extra ∧ Pause ∉ extra.
Proof.
  unfold sentenceEffect. cbn.
  destruct (activeSentence _) as [cs|];
    [|exists []; rewrite app_nil_r; split; [reflexivity|apply not_elem_of_nil]].
  destruct (_ && _);
    [|exists []; rewrite app_nil_r; split; [reflexivity|apply not_elem_of_nil]].
  destruct (_ || _);
    [|exists []; rewrite app_nil_r; split; [reflexivity|apply not_elem_of_nil]].
  exists [Seek (startTime cs)]. split; [reflexivity|].
  intros Hin. apply list_elem_of_singleton in Hin. discriminate.
Qed.

(** *** The three branches of [handleTimeUpdate] at a boundary *)

Lemma crossing_le (cs : Sentence) (t : Q) :
  (endTime cs <= t)%Q → Js.le (endTime cs) t = true.
Proof. intros H. apply Qle_bool_iff, H. Qed.

(** Below the budget: pause, wait. *)
Lemma step_crossing_below st t cs :
  activeSentence (page st) = Some cs →
  isDelaying (player st) = false →
  (endTime cs <= t)%Q →
  belowBudget (currentLoop (player st)) (maxLoops (settings (page st))) = true →
  step st (TimeUpdate t) =
    mkState (page st) (mkPlayer (currentLoop (player st)) true)
            (mkMedia true t)
            (timers st ++ [mkTimer (Js.mul (loopDelay (settings (page st))) 1000) cs])
            (calls st ++ [Pause]).
Proof.
  intros Ha Hd Hc Hb. unfold step, handleTimeUpdate. cbn.
  rewrite Ha, Hd, (crossing_le _ _ Hc), Hb. cbn.
  unfold render. cbn. rewrite Z.eqb_refl. reflexivity.
Qed.

(** The timer scheduled last fires. *)
Lemma step_timer_fires st tm :
  step (setTimeout tm st) (TimerFires (length (timers st))) =
    timerCallback (closure tm) st.
Proof.
  unfold step. cbn. rewrite list_lookup_middle by reflexivity.
  unfold dropTimer. cbn.
  rewrite take_app_length, drop_app_ge by lia.
  replace (S (length (timers st)) - length (timers st))%nat with 1%nat by lia.
  cbn. rewrite app_nil_r. destruct st; reflexivity.
Qed.


(** One whole cycle: the crossing, then the timer it scheduled. *)
Lemma loop_cycle st t cs :
  activeSentence (page st) = Some cs →
  isDelaying (player st) = false →
  (endTime cs <= t)%Q →
  belowBudget (currentLoop (player st)) (maxLoops (settings (page st))) = true →
  step (step st (TimeUpdate t)) (TimerFires (length (timers st))) =
    mkState (page st) (mkPlayer (currentLoop (player st) + 1) false)
            (mkMedia false (startTime cs)) (timers st)
            (calls st ++ [Pause; Seek (startTime cs); Play]).
Proof.
  intros Ha Hd Hc Hb. rewrite (step_crossing_below st t cs Ha Hd Hc Hb).
  pose (st' := mkState (page st) (mkPlayer (currentLoop (player st)) true)
                       (mkMedia true t) (timers st) (calls st ++ [Pause])).
  etransitivity;
    [exact (step_timer_fires st'
              (mkTimer (Js.mul (loopDelay (settings (page st))) 1000) cs))|].
  subst st'. run_setters.
  rewrite <- !app_assoc. reflexivity.
Qed.

(** Budget exhausted, [autoPlayNext] off: stop at the start. *)
Lemma step_crossing_stop st t cs :
  activeSentence (page st) = Some cs →
  isDelaying (player st) = false →
  (endTime cs <= t)%Q →
  belowBudget (currentLoop (player st)) (maxLoops (settings (page st))) = false →
  autoPlayNext (settings (page st)) = false →
  step st (TimeUpdate t) =
    mkState (page st) (mkPlayer 0 false) (mkMedia true (startTime cs))
            (timers st) (calls st ++ [Pause; Seek (startTime cs)]).
Proof.
  intros Ha Hd Hc Hb Hn. unfold step, handleTimeUpdate. cbn.
  rewrite Ha, Hd, (crossing_le _ _ Hc), Hb, Hn. cbn.
  unfold render. cbn. rewrite Z.eqb_refl. run_setters.
  rewrite Hd, <- app_assoc. reflexivity.
Qed.

(** Budget exhausted, [autoPlayNext] on: [onAutoPlayNext] is called,
    whether or not there is a sentence to go to. *)
Lemma step_crossing_advance st t cs :
  activeSentence (page st) = Some cs →
  isDelaying (player st) = false →
  (endTime cs <= t)%Q →
  belowBudget (currentLoop (player st)) (maxLoops (settings (page st))) = false →
  autoPlayNext (settings (page st)) = true →
  step st (TimeUpdate t) =
    render (mediaAdvance t st)
           (setCurrentLoop (λ _, 0) (handleNext (mediaAdvance t st))).
Proof.
  intros Ha Hd Hc Hb Hn. unfold step, handleTimeUpdate. cbn.
  rewrite Ha, Hd, (crossing_le _ _ Hc), Hb, Hn. reflexivity.
Qed.

(** With [autoPlayNext] on and the last sentence active, [handleNext] finds
    nothing to go to: the crossing leaves the transport as it is. *)
Lemma step_crossing_last st t cs :
  activeSentence (page st) = Some cs →
  isDelaying (player st) = false →
  (endTime cs <= t)%Q →
  belowBudget (currentLoop (player st)) (maxLoops (settings (page st))) = false →
  autoPlayNext (settings (page st)) = true →
  currentIndex (page st) = Z.of_nat (length (sentences (page st))) - 1 →
  step st (TimeUpdate t) =
    mkState (page st) (mkPlayer 0 false) (mkMedia (paused (media st)) t)
            (timers st) (calls st).
Proof.
  intros Ha Hd Hc Hb Hn Hlast.
  rewrite (step_crossing_advance st t cs Ha Hd Hc Hb Hn).
  unfold handleNext. cbn [page mediaAdvance]. rewrite Hlast, Z.ltb_irrefl.
  unfold render. cbn. rewrite Z.eqb_refl. run_setters. rewrite Hd. reflexivity.
Qed.

(** Either way no timer is scheduled and the count starts again. *)
Lemma step_crossing_exhausted st t cs :
  activeSentence (page st) = Some cs →
  isDelaying (player st) = false →
  (endTime cs <= t)%Q →
  belowBudget (currentLoop (player st)) (maxLoops (settings (page st))) = false →
  timers (step st (TimeUpdate t)) = timers st
  ∧ player (step st (TimeUpdate t)) = mkPlayer 0 false.
Proof.
  intros Ha Hd Hc Hb.
  destruct (autoPlayNext (settings (page st))) eqn:Hn.
  - rewrite (step_crossing_advance st t cs Ha Hd Hc Hb Hn).
    rewrite timers_render. split.
    + unfold setCurrentLoop. cbn [timers]. rewrite timers_handleNext. reflexivity.
    + unfold render. destruct (_ =? _); [|apply player_sentenceEffect].
      unfold setCurrentLoop. cbn [player]. rewrite player_handleNext.
      cbn. rewrite Hd. reflexivity.
  - rewrite (step_crossing_stop st t cs Ha Hd Hc Hb Hn). split; reflexivity.
Qed.


Lemma inside_le (cs : Sentence) (u : Q) :
  (u < endTime cs)%Q → Js.le (endTime cs) u = false.
Proof.
  intros H. unfold Js.le. destruct (Qle_bool (endTime cs) u) eqn:E; [|reflexivity].
  apply Qle_bool_iff in E. exfalso. apply (Qlt_irrefl u).
  eapply Qlt_le_trans; eassumption.
Qed.

(** Inside the sentence a position update changes nothing but the
    position. *)
Lemma step_inside st u cs :
  activeSentence (page st) = Some cs →
  (u < endTime cs)%Q →
  step st (TimeUpdate u) = mediaAdvance u st.
Proof.
  intros Ha Hu. unfold step, handleTimeUpdate. cbn.
  rewrite Ha, (inside_le _ _ Hu).
  destruct (negb _); unfold render; rewrite Z.eqb_refl; reflexivity.
Qed.

Lemma run_app st evs1 evs2 : run st (evs1 ++ evs2) = run (run st evs1) evs2.
Proof. apply fold_left_app. Qed.

Lemma run_inside us : ∀ st cs,
  activeSentence (page st) = Some cs →
  Forall (λ u, (u < endTime cs)%Q) us →
  ∃ t', run st (map TimeUpdate us) = mediaAdvance t' st.
Proof.
  induction us as [|u us IH]; intros st cs Ha Hus.
  - exists (currentTime (media st)). destruct st as [p pl [pa ct] ti ca]. reflexivity.
  - inversion Hus as [|? ? Hu Hus']; subst.
    cbn [map run fold_left]. rewrite (step_inside st u cs Ha Hu).
    destruct (IH (mediaAdvance u st) cs Ha Hus') as [t' Ht'].
    exists t'. unfold run in Ht'. rewrite Ht'. reflexivity.
Qed.

Lemma run_cycle st us t cs :
  activeSentence (page st) = Some cs →
  isDelaying (player st) = false →
  Forall (λ u, (u < endTime cs)%Q) us →
  (endTime cs <= t)%Q →
  belowBudget (currentLoop (player st)) (maxLoops (settings (page st))) = true →
  run st (plays us t ++ [TimerFires (length (timers st))]) =
    mkState (page st) (mkPlayer (currentLoop (player st) + 1) false)
            (mkMedia false (startTime cs)) (timers st)
            (calls st ++ [Pause; Seek (startTime cs); Play]).
Proof.
  intros Ha Hd Hus Hc Hb. unfold plays. rewrite <- app_assoc, run_app.
  destruct (run_inside us st cs Ha Hus) as [t' ->].
  exact (loop_cycle (mediaAdvance t' st) t cs Ha Hd Hc Hb).
Qed.

Lemma run_exhausted st us t cs :
  activeSentence (page st) = Some cs →
  isDelaying (player st) = false →
  Forall (λ u, (u < endTime cs)%Q) us →
  (endTime cs <= t)%Q →
  belowBudget (currentLoop (player st)) (maxLoops (settings (page st))) = false →
  timers (run st (plays us t)) = timers st
  ∧ player (run st (plays us t)) = mkPlayer 0 false.
Proof.
  intros Ha Hd Hus Hc Hb. unfold plays. rewrite run_app.
  destruct (run_inside us st cs Ha Hus) as [t' ->].
  exact (step_crossing_exhausted (mediaAdvance t' st) t cs Ha Hd Hc Hb).
Qed.

(** C1, at an input where it fails: the only sentence of the page is
    active, one play is asked for and [autoPlayNext] is on.  When the
    position reaches the end of the sentence the budget is exhausted and
    there is no next sentence, yet the transport is neither paused nor
    sought back: it plays on, at the position it had, and no call reaches
    the media element. *)
Theorem C1_last_sentence_with_autoPlayNext_plays_on :
  let st0 := Engine.playing [Sample.A] (Some "a"%string) Sample.once_auto 1 in
  let st1 := Engine.step st0 (Engine.TimeUpdate 2) in
  Engine.activeSentence (Engine.page st0) = Some Sample.A
  ∧ Engine.sentences (Engine.page st0) !! 1%nat = None
  ∧ Engine.belowBudget (Engine.currentLoop (Engine.player st0))
      (Engine.maxLoops (Engine.settings (Engine.page st0))) = false
  ∧ Engine.paused (Engine.media st1) = false
  ∧ Engine.currentTime (Engine.media st1) = 2%Q
  ∧ Engine.calls st1 = [].
Proof. cbv zeta. repeat split. Qed.

(** C2: at a boundary crossing outside the delay, with the count below
    [maxLoops - 1], the transport is paused, the engine awaits the delay and
    a timer of [loopDelay] seconds is pending; when that timer fires the
    transport is sought to the start of the sentence and resumed, the count
    goes up by one and the delay is over.  [maxLoops] is infinite for the
    option -1 and the option otherwise.  With the option 3 and any stream
    of positions that crosses the end three times, the first two crossings
    give two such cycles and no other call, the count reaches 2, and the
    third crossing schedules nothing: it takes the terminal branch. *)
Theorem C2_loop_below_budget
    (st : Engine.State) (t : Q) (cs : Sentence) :
  Engine.activeSentence (Engine.page st) = Some cs →
  Engine.isDelaying (Engine.player st) = false →
  (endTime cs <= t)%Q →
  Engine.belowBudget (Engine.currentLoop (Engine.player st))
    (Engine.maxLoops (Engine.settings (Engine.page st))) = true →
  Engine.step st (Engine.TimeUpdate t) =
    Engine.mkState (Engine.page st)
      (Engine.mkPlayer (Engine.currentLoop (Engine.player st)) true)
      (Engine.mkMedia true t)
      (Engine.timers st ++
         [Engine.mkTimer (Js.mul (loopDelay (Engine.settings (Engine.page st))) 1000) cs])
      (Engine.calls st ++ [Engine.Pause])
  ∧ Engine.step (Engine.step st (Engine.TimeUpdate t))
                (Engine.TimerFires (length (Engine.timers st))) =
    Engine.mkState (Engine.page st)
      (Engine.mkPlayer (Engine.currentLoop (Engine.player st) + 1) false)
      (Engine.mkMedia false (startTime cs))
      (Engine.timers st)
      (Engine.calls st ++ [Engine.Pause; Engine.Seek (startTime cs); Engine.Play])
  ∧ Engine.maxLoops (Engine.settings (Engine.page st)) =
      (if loopCountOption (Engine.settings (Engine.page st)) =? -1
       then Engine.Infinity
       else Engine.Finite (loopCountOption (Engine.settings (Engine.page st))))
  ∧ (∀ ss cur d r apn s t0 us1 t1 us2 t2 us3 t3,
       Engine.activeSentence (Engine.mkPage ss cur (mkSettings 3 d r apn)) = Some s →
       Forall (λ u, (u < endTime s)%Q) (us1 ++ us2 ++ us3) →
       (endTime s <= t1)%Q → (endTime s <= t2)%Q → (endTime s <= t3)%Q →
       let st4 :=
         Engine.run (Engine.playing ss cur (mkSettings 3 d r apn) t0)
           (Engine.plays us1 t1 ++ [Engine.TimerFires 0]
            ++ Engine.plays us2 t2 ++ [Engine.TimerFires 0]) in
       Engine.player st4 = Engine.mkPlayer 2 false
       ∧ Engine.calls st4 =
           [Engine.Pause; Engine.Seek (startTime s); Engine.Play;
            Engine.Pause; Engine.Seek (startTime s); Engine.Play]
       ∧ Engine.timers st4 = []
       ∧ Engine.timers (Engine.run st4 (Engine.plays us3 t3)) = []
       ∧ Engine.player (Engine.run st4 (Engine.plays us3 t3)) = Engine.mkPlayer 0 false).
Proof.
  intros Ha Hd Hc Hb.
  split; [exact (step_crossing_below st t cs Ha Hd Hc Hb)|].
  split; [exact (loop_cycle st t cs Ha Hd Hc Hb)|].
  split; [reflexivity|].
  intros ss cur d r apn s t0 us1 t1 us2 t2 us3 t3 Hs Hus H1 H2 H3. cbv zeta.
  apply Forall_app in Hus as [Hu1 Hus]. apply Forall_app in Hus as [Hu2 Hu3].
  set (st0 := Engine.playing ss cur (mkSettings 3 d r apn) t0).
  rewrite (app_assoc (plays us1 t1)), run_app.
  pose proof (run_cycle st0 us1 t1 s Hs eq_refl Hu1 H1 eq_refl) as E1.
  change (length (timers st0)) with 0%nat in E1. rewrite E1. clear E1.
  match goal with |- context [run ?x (plays us2 t2 ++ _)] => set (st2 := x) end.
  pose proof (run_cycle st2 us2 t2 s Hs eq_refl Hu2 H2 eq_refl) as E2.
  change (length (timers st2)) with 0%nat in E2. rewrite E2. clear E2.
  match goal with |- context [run ?x (plays us3 t3)] => set (st4 := x) end.
  destruct (run_exhausted st4 us3 t3 s Hs eq_refl Hu3 H3 eq_refl) as [Ht Hp].
  rewrite Ht, Hp. repeat split.
Qed.

(** The advance, from the index that [handleNext] computes. *)
Lemma advance_from_currentIndex
    (st : Engine.State) (t : Q) (cs next : Sentence) :
  Engine.activeSentence (Engine.page st) = Some cs →
  Engine.isDelaying (Engine.player st) = false →
  (endTime cs <= t)%Q →
  Engine.belowBudget (Engine.currentLoop (Engine.player st))
    (Engine.maxLoops (Engine.settings (Engine.page st))) = false →
  autoPlayNext (Engine.settings (Engine.page st)) = true →
  Engine.sentences (Engine.page st)
    !! Z.to_nat (Engine.currentIndex (Engine.page st) + 1) = Some next →
  let st' := Engine.step st (Engine.TimeUpdate t) in
  Engine.currentSentenceId (Engine.page st') = Some (id next)
  ∧ Engine.player st' = Engine.mkPlayer 0 false
  ∧ Engine.paused (Engine.media st') = false
  ∧ (∃ extra, Engine.calls st' = Engine.calls st ++ extra ∧ Engine.Pause ∉ extra)
  ∧ Engine.timers st' = Engine.timers st
  ∧ (NoDup (map id (Engine.sentences (Engine.page st))) →
       Engine.activeSentence (Engine.page st') = Some next
       ∧ Engine.currentTime (Engine.media st') = startTime next).
Proof.
  intros Ha Hd Hc Hb Hn Hnext. cbv zeta.
  rewrite (step_crossing_advance st t cs Ha Hd Hc Hb Hn).
  assert (Hh : Engine.handleNext (Engine.mediaAdvance t st) =
               Engine.handleSentenceClick next (Engine.mediaAdvance t st)).
  { unfold Engine.handleNext. cbn [Engine.page Engine.mediaAdvance].
    pose proof (findIndex_ge (Engine.hasId (Engine.currentSentenceId (Engine.page st)))
                  (Engine.sentences (Engine.page st))) as Hge.
    fold (Engine.currentIndex (Engine.page st)) in Hge.
    apply lookup_lt_Some in Hnext as Hlt.
    destruct (Z.ltb_spec (Engine.currentIndex (Engine.page st))
                (Z.of_nat (length (Engine.sentences (Engine.page st))) - 1)); [|lia].
    rewrite Hnext. reflexivity. }
  rewrite Hh. clear Hh.
  set (st1 := Engine.setCurrentLoop (λ _, 0)
                (Engine.handleSentenceClick next (Engine.mediaAdvance t st))).
  assert (Hid : Engine.currentSentenceId (Engine.page st1) = Some (id next)) by reflexivity.
  assert (Hpl : Engine.player st1 = Engine.mkPlayer 0 false)
    by (subst st1; run_setters; rewrite Hd; reflexivity).
  assert (Hpa : Engine.paused (Engine.media st1) = false) by reflexivity.
  assert (Hca : Engine.calls st1 =
                Engine.calls st ++ [Engine.Seek (startTime next); Engine.Play])
    by (subst st1; run_setters; rewrite <- app_assoc; reflexivity).
  assert (Hti : Engine.timers st1 = Engine.timers st) by reflexivity.
  assert (Hss : Engine.sentences (Engine.page st1) = Engine.sentences (Engine.page st))
    by reflexivity.
  assert (Hcu : Engine.currentTime (Engine.media st1) = startTime next) by reflexivity.
  assert (Hact : NoDup (map id (Engine.sentences (Engine.page st))) →
                 Engine.activeSentence (Engine.page st1) = Some next).
  { intros Hnd. unfold Engine.activeSentence. rewrite Hid, Hss.
    eapply find_unique_id; eassumption. }
  assert (Hno : Engine.Pause ∉ [Engine.Seek (startTime next); Engine.Play]).
  { intros Hin. apply elem_of_cons in Hin as [Hin|Hin]; [discriminate|].
    apply list_elem_of_singleton in Hin. discriminate. }
  unfold Engine.render. destruct (_ =? _).
  - split; [exact Hid|]. split; [exact Hpl|]. split; [exact Hpa|].
    split; [exists [Engine.Seek (startTime next); Engine.Play]; split; assumption|].
    split; [exact Hti|].
    intros Hnd. split; [exact (Hact Hnd)|exact Hcu].
  - rewrite page_sentenceEffect, player_sentenceEffect, paused_sentenceEffect,
      timers_sentenceEffect.
    split; [exact Hid|]. split; [reflexivity|]. split; [exact Hpa|].
    split.
    { destruct (calls_sentenceEffect st1) as (extra & -> & Hex).
      exists ([Engine.Seek (startTime next); Engine.Play] ++ extra).
      rewrite Hca, <- app_assoc. split; [reflexivity|].
      intros Hin. apply elem_of_app in Hin as [Hin|Hin]; contradiction. }
    split; [exact Hti|].
    intros Hnd. split; [exact (Hact Hnd)|].
    unfold Engine.sentenceEffect.
    cbn [Engine.page Engine.setIsDelaying Engine.setCurrentLoop].
    rewrite (Hact Hnd). cbn [Engine.media Engine.setIsDelaying Engine.setCurrentLoop].
    destruct (_ && _); [|exact Hcu].
    destruct (_ || _); [reflexivity|exact Hcu].
Qed.

(** With identifiers that are all different, the sentence at position
    [i] is the active one, at the index [i], when its identifier is the
    selected one. *)
Lemma index_of_active (p : Engine.Page) (i : nat) (cs : Sentence) :
  NoDup (map id (Engine.sentences p)) →
  Engine.sentences p !! i = Some cs →
  Engine.currentSentenceId p = Some (id cs) →
  Engine.currentIndex p = Z.of_nat i ∧ Engine.activeSentence p = Some cs.
Proof.
  intros Hnd Hi Hcur. unfold Engine.currentIndex, Engine.activeSentence. rewrite Hcur.
  pose proof (find_unique_id _ _ _ Hnd Hi) as Hf.
  split; [|exact Hf].
  destruct (find_findIndex _ _ _ Hf) as [Hge Hl].
  assert (Z.to_nat (findIndex (Engine.hasId (Some (id cs))) (Engine.sentences p)) = i);
    [|lia].
  apply (NoDup_lookup _ _ _ (id cs) Hnd).
  - rewrite list_lookup_fmap, Hl. reflexivity.
  - rewrite list_lookup_fmap, Hi. reflexivity.
Qed.

(** C3: with identifiers that are all different, the sentence [cs] at
    position [i] selected and the sentence [next] at position [i + 1]: at
    a boundary crossing of [cs] with the budget exhausted and
    [autoPlayNext] on, [next] is selected and is the active sentence, the
    count is 0, the transport is at the start of [next] and playing, and
    it was sought and resumed without any call to pause. *)
Theorem C3_advance_to_next_sentence
    (st : Engine.State) (t : Q) (i : nat) (cs next : Sentence) :
  NoDup (map id (Engine.sentences (Engine.page st))) →
  Engine.sentences (Engine.page st) !! i = Some cs →
  Engine.sentences (Engine.page st) !! S i = Some next →
  Engine.currentSentenceId (Engine.page st) = Some (id cs) →
  Engine.isDelaying (Engine.player st) = false →
  (endTime cs <= t)%Q →
  Engine.belowBudget (Engine.currentLoop (Engine.player st))
    (Engine.maxLoops (Engine.settings (Engine.page st))) = false →
  autoPlayNext (Engine.settings (Engine.page st)) = true →
  let st' := Engine.step st (Engine.TimeUpdate t) in
  Engine.currentSentenceId (Engine.page st') = Some (id next)
  ∧ Engine.activeSentence (Engine.page st') = Some next
  ∧ Engine.currentLoop (Engine.player st') = 0
  ∧ Engine.isDelaying (Engine.player st') = false
  ∧ Engine.paused (Engine.media st') = false
  ∧ Engine.currentTime (Engine.media st') = startTime next
  ∧ (∃ extra, Engine.calls st' = Engine.calls st ++ extra ∧ Engine.Pause ∉ extra)
  ∧ Engine.timers st' = Engine.timers st.
Proof.
  intros Hnd Hi Hnext Hcur Hd Hc Hb Hn.
  destruct (index_of_active _ i cs Hnd Hi Hcur) as [Hidx Ha].
  assert (Hnext' : Engine.sentences (Engine.page st)
                     !! Z.to_nat (Engine.currentIndex (Engine.page st) + 1) = Some next).
  { rewrite Hidx. replace (Z.to_nat (Z.of_nat i + 1)) with (S i) by lia. exact Hnext. }
  destruct (advance_from_currentIndex st t cs next Ha Hd Hc Hb Hn Hnext')
    as (H1 & H2 & H3 & H4 & H5 & H6).
  cbv zeta in *. destruct (H6 Hnd) as [H7 H8].
  split; [exact H1|]. split; [exact H7|].
  split; [rewrite H2; reflexivity|]. split; [rewrite H2; reflexivity|].
  split; [exact H3|]. split; [exact H8|]. split; [exact H4|exact H5].
Qed.

(** No handler takes a timer away: a pending timer stays until it fires. *)
Lemma timers_only_grow st ev :
  (∀ n, ev ≠ TimerFires n) →
  ∃ extra, timers (step st ev) = timers st ++ extra.
Proof.
  intros Hev. destruct ev as [t|n|s| | |s']; cbn [step].
  - rewrite timers_render. unfold handleTimeUpdate.
    cbn [page media mediaAdvance currentTime player].
    destruct (activeSentence (page st)) as [cs|];
      [|exists []; rewrite app_nil_r; reflexivity].
    destruct (negb _); [|exists []; rewrite app_nil_r; reflexivity].
    destruct (Js.le _ _); [|exists []; rewrite app_nil_r; reflexivity].
    cbv zeta. destruct (belowBudget _ _).
    + eexists. reflexivity.
    + exists []. rewrite app_nil_r.
      destruct (_ && _); [|reflexivity].
      unfold setCurrentLoop. cbn [timers]. rewrite timers_handleNext. reflexivity.
  - exfalso. exact (Hev n eq_refl).
  - exists []. rewrite app_nil_r, timers_render. reflexivity.
  - exists []. rewrite app_nil_r, timers_render. apply timers_handlePrev.
  - exists []. rewrite app_nil_r, timers_render. apply timers_handleNext.
  - exists []. rewrite app_nil_r. reflexivity.
Qed.

(** C4 fails: sentence [A] crosses its end and schedules the delay timer,
    sentence [B] is clicked during the delay; the timer, of 200
    milliseconds, is still pending, and when it fires, with [B] active,
    it seeks the transport to the start of [A]. *)
Lemma C4_stale_timer_seeks_into_old_sentence :
  let st1 := Engine.run
               (Engine.playing [Sample.A; Sample.B] (Some "a"%string) Sample.loop3 1)
               [Engine.TimeUpdate 2; Engine.Click Sample.B] in
  let st2 := Engine.step st1 (Engine.TimerFires 0) in
  Engine.activeSentence (Engine.page st1) = Some Sample.B
  ∧ Engine.timers st1 = [Engine.mkTimer 200 Sample.A]
  ∧ Engine.activeSentence (Engine.page st2) = Some Sample.B
  ∧ Engine.calls st2 =
      Engine.calls st1 ++ [Engine.Seek (startTime Sample.A); Engine.Play]
  ∧ Engine.currentTime (Engine.media st2) = startTime Sample.A
  ∧ startTime Sample.A ≠ startTime Sample.B.
Proof. cbv zeta. repeat split. discriminate. Qed.

(** C4, amended: a change of sentence resets the count and the delay flag
    but leaves every pending timer in place, and a pending timer that fires
    afterwards seeks to the start of the sentence it closed over, resumes
    and increments the count; a change of settings touches neither the
    timers nor the state of the player; and no event other than its own
    firing takes a pending timer away. *)
Theorem C4_pending_timer_survives_changes (st : Engine.State) :
  (∀ s,
     let st1 := Engine.step st (Engine.Click s) in
     Engine.timers st1 = Engine.timers st
     ∧ (Engine.currentIndex (Engine.page st1) ≠ Engine.currentIndex (Engine.page st) →
          Engine.player st1 = Engine.mkPlayer 0 false)
     ∧ (∀ n tm, Engine.timers st !! n = Some tm →
          let st2 := Engine.step st1 (Engine.TimerFires n) in
          Engine.page st2 = Engine.page st1
          ∧ Engine.calls st2 =
              Engine.calls st1 ++ [Engine.Seek (startTime (Engine.closure tm)); Engine.Play]
          ∧ Engine.media st2 = Engine.mkMedia false (startTime (Engine.closure tm))
          ∧ Engine.player st2 =
              Engine.mkPlayer (Engine.currentLoop (Engine.player st1) + 1) false))
  ∧ (∀ s',
       let st1 := Engine.step st (Engine.SettingsChange s') in
       Engine.timers st1 = Engine.timers st
       ∧ Engine.player st1 = Engine.player st
       ∧ Engine.media st1 = Engine.media st
       ∧ Engine.calls st1 = Engine.calls st)
  ∧ (∀ ev, (∀ n, ev ≠ Engine.TimerFires n) →
       ∃ extra, Engine.timers (Engine.step st ev) = Engine.timers st ++ extra).
Proof.
  split; [|split; [|intros ev Hev; apply timers_only_grow, Hev]].
  - intros s. cbv zeta. cbn [Engine.step].
    split; [rewrite timers_render; reflexivity|].
    split.
    + intros Hne. rewrite page_render in Hne. unfold Engine.render.
      destruct (Z.eqb_spec (Engine.currentIndex (Engine.page st))
                  (Engine.currentIndex (Engine.page (Engine.handleSentenceClick s st))))
        as [Heq|_]; [|apply player_sentenceEffect].
      exfalso. apply Hne. rewrite Heq. reflexivity.
    + intros n tm Hn.
      set (st1 := Engine.render st (Engine.handleSentenceClick s st)).
      assert (Ht : Engine.timers st1 !! n = Some tm)
        by (subst st1; rewrite timers_render; exact Hn).
      rewrite Ht. run_setters. rewrite <- app_assoc. repeat split.
  - intros s'. cbv zeta. repeat split.
Qed.

Lemma C2_witness :
  let st := Engine.playing [Sample.A] (Some "a"%string) Sample.loop3 1 in
  Engine.step (Engine.step st (Engine.TimeUpdate 2)) (Engine.TimerFires 0) =
    Engine.mkState (Engine.page st) (Engine.mkPlayer 1 false)
      (Engine.mkMedia false 1) []
      [Engine.Pause; Engine.Seek 1; Engine.Play].
Proof.
  cbv zeta.
  exact (proj1 (proj2
    (C2_loop_below_budget
       (Engine.playing [Sample.A] (Some "a"%string) Sample.loop3 1) 2 Sample.A
       eq_refl eq_refl ltac:(vm_compute; discriminate) eq_refl))).
Defined.

Lemma C3_witness :
  let st := Engine.playing [Sample.A; Sample.B; Sample.C] (Some "b"%string)
                           Sample.once_auto 2 in
  Engine.currentSentenceId (Engine.page (Engine.step st (Engine.TimeUpdate 3)))
    = Some "c"%string
  ∧ Engine.activeSentence (Engine.page (Engine.step st (Engine.TimeUpdate 3)))
    = Some Sample.C.
Proof.
  cbv zeta.
  destruct (C3_advance_to_next_sentence
       (Engine.playing [Sample.A; Sample.B; Sample.C] (Some "b"%string) Sample.once_auto 2)
       3 1 Sample.B Sample.C
       ltac:(apply (bool_decide_unpack _); vm_compute; exact I)
       eq_refl eq_refl eq_refl eq_refl ltac:(vm_compute; discriminate) eq_refl eq_refl)
    as (H1 & H2 & _).
  split; [exact H1|exact H2].
Defined.

End EngineFacts.

(** ** Numbers *)

Section FloorFacts.


Lemma Qfloor_unique (x : Q) (z : Z) :
  (inject_Z z <= x)%Q → (x < inject_Z (z + 1))%Q → Qfloor x = z.
Proof.
  intros Hlo Hhi.
  pose proof (Qfloor_le x) as Hfl. pose proof (Qlt_floor x) as Hfu.
  assert (H1 : (inject_Z (Qfloor x) < inject_Z (z + 1))%Q)
    by (eapply Qle_lt_trans; eassumption).
  assert (H2 : (inject_Z z < inject_Z (Qfloor x + 1))%Q)
    by (eapply Qle_lt_trans; eassumption).
  rewrite <- Zlt_Qlt in H1, H2. lia.
Qed.

Lemma Qfloor_add_Z (x : Q) (n : Z) : Qfloor (x + inject_Z n) = Qfloor x + n.
Proof.
  apply Qfloor_unique.
  - rewrite inject_Z_plus. apply Qplus_le_l, Qfloor_le.
  - replace (Qfloor x + n + 1) with ((Qfloor x + 1) + n) by lia.
    rewrite inject_Z_plus. apply Qplus_lt_l, Qlt_floor.
Qed.

Lemma Qfloor_nonneg (x : Q) : (0 <= x)%Q → 0 ≤ Qfloor x.
Proof. intros H. change 0 with (Qfloor 0). apply Qfloor_resp_le, H. Qed.

Lemma Qle_bool_true (x y : Q) : (x <= y)%Q → Qle_bool x y = true.
Proof. apply Qle_bool_iff. Qed.

Lemma Qle_bool_false (x y : Q) : Qle_bool x y = false → (y < x)%Q.
Proof.
  intros H. apply Qnot_le_lt. intros Hle. apply Qle_bool_iff in Hle. congruence.
Qed.


End FloorFacts.

(** ** Binary64 rounding *)

Section Binary64Facts.

Import Js.



Lemma pow2_pos (e : Z) : (0 < pow2 e)%Q.
Proof. apply Qpower_0_lt. reflexivity. Qed.

Lemma pow2_add (a b : Z) : (pow2 (a + b) == pow2 a * pow2 b)%Q.
Proof. apply Qpower_plus. discriminate. Qed.

Lemma pow2_le (a b : Z) : a ≤ b → (pow2 a <= pow2 b)%Q.
Proof. intros H. apply Qpower_le_compat_l; [exact H|discriminate]. Qed.

Lemma pow2_lt (a b : Z) : a < b → (pow2 a < pow2 b)%Q.
Proof. intros H. apply Qpower_lt_compat_l; [exact H|reflexivity]. Qed.

Lemma pow2_lt_inv (a b : Z) : (pow2 a < pow2 b)%Q → a < b.
Proof. intros H. apply (Qpower_lt_compat_l_inv 2); [exact H|reflexivity]. Qed.

Lemma pow2_Z (e : Z) : 0 ≤ e → (pow2 e == inject_Z (2 ^ e))%Q.
Proof. intros H. unfold pow2. rewrite (Zpower_Qpower 2 e H). reflexivity. Qed.

Lemma pow2_succ (e : Z) : (pow2 (e + 1) == 2 * pow2 e)%Q.
Proof. rewrite pow2_add. change (pow2 1) with 2%Q. ring. Qed.

Lemma pow2_pred (e : Z) : (pow2 (e - 1) == pow2 e / 2)%Q.
Proof.
  assert (H : (pow2 e == 2 * pow2 (e - 1))%Q).
  { rewrite <- pow2_succ. replace (e - 1 + 1) with e by lia. reflexivity. }
  rewrite H. field.
Qed.

(** [x / 2^e] is [x * 2^(-e)]. *)
Lemma div_pow2 (x : Q) (e : Z) : (x / pow2 e == x * pow2 (- e))%Q.
Proof. unfold Qdiv, pow2. rewrite Qpower_opp. reflexivity. Qed.

Lemma pow2_cancel (e : Z) : (pow2 e * pow2 (- e) == 1)%Q.
Proof. rewrite <- pow2_add. replace (e + - e) with 0 by lia. reflexivity. Qed.

(** *** The logarithm *)

Lemma ilog2_spec (q : Q) :
  (0 < q)%Q → (pow2 (ilog2 q) <= q)%Q ∧ (q < pow2 (ilog2 q + 1))%Q.
Proof.
  intros Hq. destruct q as [n d]. unfold ilog2. cbn [Qnum Qden].
  assert (Hn : 0 < n) by (unfold Qlt in Hq; cbn in Hq; lia).
  pose proof (Z.log2_spec n Hn) as [Ha1 Ha2].
  pose proof (Z.log2_spec (Z.pos d) ltac:(lia)) as [Hb1 Hb2].
  pose proof (Z.log2_nonneg n) as Ha0. pose proof (Z.log2_nonneg (Z.pos d)) as Hb0.
  set (a := Z.log2 n) in *. set (b := Z.log2 (Z.pos d)) in *.
  replace (Z.succ a) with (a + 1) in Ha2 by lia.
  replace (Z.succ b) with (b + 1) in Hb2 by lia.
  assert (Hq' : (n # d == inject_Z n / inject_Z (Z.pos d))%Q) by apply Qmake_Qdiv.
  assert (HA1 : (pow2 a <= inject_Z n)%Q) by (rewrite pow2_Z by lia; rewrite <- Zle_Qle; exact Ha1).
  assert (HA2 : (inject_Z n < pow2 (a + 1))%Q) by (rewrite pow2_Z by lia; rewrite <- Zlt_Qlt; exact Ha2).
  assert (HB1 : (pow2 b <= inject_Z (Z.pos d))%Q) by (rewrite pow2_Z by lia; rewrite <- Zle_Qle; exact Hb1).
  assert (HB2 : (inject_Z (Z.pos d) < pow2 (b + 1))%Q) by (rewrite pow2_Z by lia; rewrite <- Zlt_Qlt; exact Hb2).
  assert (Hd : (0 < inject_Z (Z.pos d))%Q) by reflexivity.
  pose proof (pow2_pos a) as Pa. pose proof (pow2_pos b) as Pb.
  (* the quotient lies between 2^(a-b-1) and 2^(a-b+1) *)
  assert (Hup : (n # d < pow2 (a - b + 1))%Q).
  { rewrite Hq'. apply Qlt_shift_div_r; [exact Hd|].
    replace (a - b + 1) with ((a + 1) + - b) by lia. rewrite pow2_add.
    apply Qlt_le_trans with (pow2 (a + 1)); [exact HA2|].
    rewrite <- (Qmult_1_r (pow2 (a + 1))) at 1. rewrite <- (pow2_cancel b).
    rewrite (Qmult_comm (pow2 b)), Qmult_assoc.
    pose proof (pow2_pos (a + 1)) as P1. pose proof (pow2_pos (- b)) as P2.
    apply Qmult_le_l; [|exact HB1].
    apply Qmult_lt_0_compat; assumption. }
  assert (Hlo : (pow2 (a - b - 1) <= n # d)%Q).
  { rewrite Hq'. apply Qle_shift_div_l; [exact Hd|].
    replace (a - b - 1) with (a + - (b + 1)) by lia. rewrite pow2_add.
    apply Qle_trans with (pow2 a); [|exact HA1].
    rewrite <- (Qmult_1_r (pow2 a)) at 2. rewrite <- (pow2_cancel (b + 1)).
    rewrite (Qmult_comm (pow2 (b + 1))), Qmult_assoc.
    pose proof (pow2_pos (- (b + 1))) as P2.
    apply Qmult_le_l; [apply Qmult_lt_0_compat; assumption|].
    apply Qlt_le_weak, HB2. }
  destruct (Qle_bool (pow2 (a - b)) (n # d)) eqn:Ht.
  - apply Qle_bool_iff in Ht. split; [exact Ht|exact Hup].
  - split; [exact Hlo|].
    replace (a - b - 1 + 1) with (a - b) by lia.
    apply Qnot_le_lt. intros H. apply Qle_bool_iff in H. congruence.
Qed.

Lemma ilog2_unique (q : Q) (l : Z) :
  (pow2 l <= q)%Q → (q < pow2 (l + 1))%Q → ilog2 q = l.
Proof.
  intros H1 H2.
  assert (Hq : (0 < q)%Q) by (eapply Qlt_le_trans; [apply (pow2_pos l)|exact H1]).
  destruct (ilog2_spec q Hq) as [S1 S2].
  assert (ilog2 q < l + 1) by (apply pow2_lt_inv; eapply Qle_lt_trans; eassumption).
  assert (l < ilog2 q + 1) by (apply pow2_lt_inv; eapply Qle_lt_trans; eassumption).
  lia.
Qed.

Lemma ilog2_comp (x y : Q) : (0 < x)%Q → (x == y)%Q → ilog2 x = ilog2 y.
Proof.
  intros Hx E. destruct (ilog2_spec x Hx) as [S1 S2].
  symmetry. apply ilog2_unique; rewrite <- E; assumption.
Qed.

Lemma ilog2_lt (q : Q) (k : Z) : (0 < q)%Q → (q < pow2 k)%Q → ilog2 q < k.
Proof.
  intros Hq H. destruct (ilog2_spec q Hq) as [S1 _].
  apply pow2_lt_inv. eapply Qle_lt_trans; eassumption.
Qed.

Lemma ilog2_ge (q : Q) (k : Z) : (pow2 k <= q)%Q → k ≤ ilog2 q.
Proof.
  intros H.
  assert (Hq : (0 < q)%Q) by (eapply Qlt_le_trans; [apply (pow2_pos k)|exact H]).
  destruct (ilog2_spec q Hq) as [_ S2].
  assert (k < ilog2 q + 1) by (apply pow2_lt_inv; eapply Qle_lt_trans; eassumption).
  lia.
Qed.

Lemma exponent_comp (x y : Q) : (0 < x)%Q → (x == y)%Q → exponent x = exponent y.
Proof. intros Hx E. unfold exponent. rewrite (ilog2_comp x y Hx E). reflexivity. Qed.

Lemma exponent_le (q : Q) (k : Z) :
  (0 < q)%Q → (q < pow2 k)%Q → -1021 ≤ k → exponent q ≤ k - 53.
Proof. intros Hq H Hk. pose proof (ilog2_lt q k Hq H). unfold exponent. lia. Qed.

Lemma exponent_ge (q : Q) (k : Z) : (pow2 k <= q)%Q → k - 52 ≤ exponent q.
Proof. intros H. pose proof (ilog2_ge q k H). unfold exponent. lia. Qed.

Lemma exponent_min (q : Q) : -1074 ≤ exponent q.
Proof. unfold exponent. lia. Qed.

(** *** The nearest integer *)

Lemma nearestEven_comp (x y : Q) : (x == y)%Q → nearestEven x = nearestEven y.
Proof.
  intros E. unfold nearestEven. rewrite (Qfloor_comp x y E).
  assert (E' : (x - inject_Z (Qfloor y) == y - inject_Z (Qfloor y))%Q) by (rewrite E; reflexivity).
  rewrite (Qcompare_comp _ _ E' (1 # 2)%Q (1 # 2)%Q (Qeq_refl _)). reflexivity.
Qed.

Lemma nearestEven_error (q : Q) :
  (q - (1 # 2) <= inject_Z (nearestEven q))%Q
  ∧ (inject_Z (nearestEven q) <= q + (1 # 2))%Q.
Proof.
  unfold nearestEven. cbv zeta. pose proof (Qfloor_le q) as H1. pose proof (Qlt_floor q) as H2.
  rewrite inject_Z_plus in H2. change (inject_Z 1) with 1%Q in H2.
  destruct (Qcompare_spec (q - inject_Z (Qfloor q)) (1 # 2)%Q) as [E|L|G].
  - destruct (Z.even (Qfloor q)).
    + split; lra.
    + rewrite inject_Z_plus. change (inject_Z 1) with 1%Q. split; lra.
  - split; lra.
  - rewrite inject_Z_plus. change (inject_Z 1) with 1%Q. split; lra.
Qed.

(** The integer within less than a half is the one taken. *)
Lemma nearestEven_near (q : Q) (k : Z) :
  (inject_Z k - (1 # 2) < q)%Q → (q < inject_Z k + (1 # 2))%Q → nearestEven q = k.
Proof.
  intros H1 H2. destruct (nearestEven_error q) as [E1 E2].
  assert (L1 : (inject_Z (nearestEven q) < inject_Z (k + 1))%Q)
    by (rewrite inject_Z_plus; change (inject_Z 1) with 1%Q; lra).
  assert (L2 : (inject_Z k < inject_Z (nearestEven q + 1))%Q)
    by (rewrite inject_Z_plus; change (inject_Z 1) with 1%Q; lra).
  rewrite <- Zlt_Qlt in L1, L2. lia.
Qed.

Lemma nearestEven_Z (k : Z) : nearestEven (inject_Z k) = k.
Proof. apply nearestEven_near; lra. Qed.

Lemma nearestEven_ge (q : Q) (k : Z) : (inject_Z k <= q)%Q → k ≤ nearestEven q.
Proof.
  intros H. unfold nearestEven.
  assert (Hf : k ≤ Qfloor q).
  { rewrite <- (Qfloor_Z k). apply Qfloor_resp_le, H. }
  destruct (_ ?= _)%Q; [destruct (Z.even _)|..]; lia.
Qed.

Lemma nearestEven_le (q : Q) (k : Z) : (q <= inject_Z k)%Q → nearestEven q ≤ k.
Proof.
  intros H. unfold nearestEven.
  assert (Hf : Qfloor q ≤ k).
  { rewrite <- (Qfloor_Z k). apply Qfloor_resp_le, H. }
  pose proof (Qfloor_le q) as H1. cbv zeta.
  destruct (Qcompare_spec (q - inject_Z (Qfloor q)) (1 # 2)%Q) as [E|L|G].
  - destruct (Z.even _); [lia|].
    assert (Qfloor q ≠ k); [|lia]. intros Hk. rewrite Hk in E. lra.
  - lia.
  - assert (Qfloor q ≠ k); [|lia]. intros Hk. rewrite Hk in G. lra.
Qed.

(** *** Rounding *)

Lemma roundPos_comp (x y : Q) : (0 < x)%Q → (x == y)%Q → (roundPos x == roundPos y)%Q.
Proof.
  intros Hx E. unfold roundPos. rewrite (exponent_comp x y Hx E).
  rewrite (nearestEven_comp (x / pow2 (exponent y)) (y / pow2 (exponent y)))
    by (rewrite E; reflexivity).
  reflexivity.
Qed.

Lemma round64_comp (x y : Q) : (x == y)%Q → round64 x = round64 y.
Proof.
  intros E. unfold round64. apply Qred_complete.
  rewrite (Qcompare_comp x y E 0%Q 0%Q (Qeq_refl 0%Q)).
  destruct (Qcompare_spec y 0) as [H|H|H].
  - reflexivity.
  - apply Qopp_comp. apply roundPos_comp; [rewrite E; lra|rewrite E; reflexivity].
  - apply roundPos_comp; [rewrite E; exact H|exact E].
Qed.

Lemma round64_zero (x : Q) : (x == 0)%Q → (round64 x == 0)%Q.
Proof.
  intros H. unfold round64. rewrite Qred_correct.
  destruct (Qcompare_spec x 0) as [E|L|G]; [reflexivity|lra|lra].
Qed.

Lemma round64_pos (x : Q) : (0 < x)%Q → (round64 x == roundPos x)%Q.
Proof.
  intros H. unfold round64. rewrite Qred_correct.
  destruct (Qcompare_spec x 0) as [E|L|G]; [lra|lra|reflexivity].
Qed.

Lemma round64_neg (x : Q) : (x < 0)%Q → (round64 x == - roundPos (- x))%Q.
Proof.
  intros H. unfold round64. rewrite Qred_correct.
  destruct (Qcompare_spec x 0) as [E|L|G]; [lra|reflexivity|lra].
Qed.

Lemma round64_opp (x : Q) : (round64 (- x) == - round64 x)%Q.
Proof.
  destruct (Qcompare_spec x 0) as [H|H|H].
  - rewrite (round64_zero x H), (round64_zero (- x)) by (rewrite H; reflexivity). reflexivity.
  - rewrite (round64_neg x H), (round64_pos (- x)) by lra. ring.
  - rewrite (round64_pos x H), (round64_neg (- x)) by lra.
    rewrite (roundPos_comp (- - x) x) by (try lra; ring). reflexivity.
Qed.

(** The value on the grid of [x]: scaling and back. *)
Lemma scale_back (x : Q) (e : Z) : (x / pow2 e * pow2 e == x)%Q.
Proof. field. pose proof (pow2_pos e). lra. Qed.

(** The error is at most half a unit of the last place. *)
Lemma roundPos_error (x : Q) :
  (x - pow2 (exponent x) / 2 <= roundPos x)%Q
  ∧ (roundPos x <= x + pow2 (exponent x) / 2)%Q.
Proof.
  unfold roundPos. set (e := exponent x). pose proof (pow2_pos e) as P.
  destruct (nearestEven_error (x / pow2 e)) as [E1 E2].
  pose proof (scale_back x e) as Hx.
  set (y := (x / pow2 e)%Q) in *. set (u := pow2 e) in *.
  set (N := inject_Z (nearestEven y)) in *.
  assert (A1 : ((y - (1 # 2)) * u <= N * u)%Q)
    by (apply Qmult_le_compat_r; [exact E1|lra]).
  assert (A2 : (N * u <= (y + (1 # 2)) * u)%Q)
    by (apply Qmult_le_compat_r; [exact E2|lra]).
  assert (B1 : ((y - (1 # 2)) * u == x - u / 2)%Q) by (rewrite <- Hx; field).
  assert (B2 : ((y + (1 # 2)) * u == x + u / 2)%Q) by (rewrite <- Hx; field).
  rewrite B1 in A1. rewrite B2 in A2. split; assumption.
Qed.

Lemma round64_error (x : Q) (k : Z) :
  (0 <= x)%Q → (x < pow2 k)%Q → -1021 ≤ k →
  (x - pow2 (k - 54) <= round64 x)%Q ∧ (round64 x <= x + pow2 (k - 54))%Q.
Proof.
  intros H0 Hk Hmin. pose proof (pow2_pos (k - 54)) as P.
  destruct (Qcompare_spec x 0) as [E|L|G].
  - rewrite (round64_zero x E). lra.
  - lra.
  - rewrite (round64_pos x G). destruct (roundPos_error x) as [E1 E2].
    pose proof (exponent_le x k G Hk Hmin) as He.
    assert (Hh : (pow2 (exponent x) / 2 <= pow2 (k - 54))%Q).
    { rewrite <- pow2_pred. apply pow2_le. lia. }
    lra.
Qed.

Lemma round64_nonneg (x : Q) : (0 <= x)%Q → (0 <= round64 x)%Q.
Proof.
  intros H0. destruct (Qcompare_spec x 0) as [E|L|G].
  - rewrite (round64_zero x E). lra.
  - lra.
  - rewrite (round64_pos x G). unfold roundPos.
    apply Qmult_le_0_compat; [|apply Qlt_le_weak, pow2_pos].
    change 0%Q with (inject_Z 0). rewrite <- Zle_Qle.
    apply nearestEven_ge. change (inject_Z 0) with 0%Q.
    apply Qle_shift_div_l; [apply pow2_pos|lra].
Qed.

(** A number on the grid of [x], or on a coarser one, is passed by the
    rounding of [x] on neither side. *)
Lemma roundPos_ge_grid (x : Q) (K e : Z) :
  exponent x ≤ e → (inject_Z K * pow2 e <= x)%Q →
  (inject_Z K * pow2 e <= roundPos x)%Q.
Proof.
  intros He H. unfold roundPos. set (ex := exponent x) in *.
  pose proof (pow2_pos ex) as P.
  assert (Hg : (inject_Z K * pow2 e == inject_Z (K * 2 ^ (e - ex)) * pow2 ex)%Q).
  { rewrite inject_Z_mult, <- (pow2_Z (e - ex)) by lia.
    rewrite <- Qmult_assoc, <- pow2_add. replace (e - ex + ex) with e by lia. reflexivity. }
  rewrite Hg in H |- *.
  apply Qmult_le_compat_r; [|lra].
  rewrite <- Zle_Qle. apply nearestEven_ge.
  apply Qle_shift_div_l; [exact P|exact H].
Qed.

Lemma roundPos_le_grid (x : Q) (K e : Z) :
  exponent x ≤ e → (x <= inject_Z K * pow2 e)%Q →
  (roundPos x <= inject_Z K * pow2 e)%Q.
Proof.
  intros He H. unfold roundPos. set (ex := exponent x) in *.
  pose proof (pow2_pos ex) as P.
  assert (Hg : (inject_Z K * pow2 e == inject_Z (K * 2 ^ (e - ex)) * pow2 ex)%Q).
  { rewrite inject_Z_mult, <- (pow2_Z (e - ex)) by lia.
    rewrite <- Qmult_assoc, <- pow2_add. replace (e - ex + ex) with e by lia. reflexivity. }
  rewrite Hg in H |- *.
  apply Qmult_le_compat_r; [|lra].
  rewrite <- Zle_Qle. apply nearestEven_le.
  apply Qle_shift_div_r; [exact P|exact H].
Qed.

(** A number on the grid of [x] within less than half a unit of [x] is
    the rounding of [x]. *)
Lemma roundPos_near_grid (x : Q) (K : Z) :
  (inject_Z K * pow2 (exponent x) - pow2 (exponent x) / 2 < x)%Q →
  (x < inject_Z K * pow2 (exponent x) + pow2 (exponent x) / 2)%Q →
  (roundPos x == inject_Z K * pow2 (exponent x))%Q.
Proof.
  intros H1 H2. unfold roundPos. set (e := exponent x) in *. pose proof (pow2_pos e) as P.
  rewrite (nearestEven_near (x / pow2 e) K); [reflexivity|..].
  - apply Qlt_shift_div_l; [exact P|].
    assert (B : ((inject_Z K - (1 # 2)) * pow2 e
                 == inject_Z K * pow2 e - pow2 e / 2)%Q) by field.
    rewrite B. exact H1.
  - apply Qlt_shift_div_r; [exact P|].
    assert (B : ((inject_Z K + (1 # 2)) * pow2 e
                 == inject_Z K * pow2 e + pow2 e / 2)%Q) by field.
    rewrite B. exact H2.
Qed.

(** Integers below [2^53] times a power of two are binary64 numbers. *)
Lemma round64_exact (m e : Z) :
  0 ≤ m < 2 ^ 53 → -1074 ≤ e →
  (round64 (inject_Z m * pow2 e) == inject_Z m * pow2 e)%Q.
Proof.
  intros Hm He. pose proof (pow2_pos e) as P.
  destruct (Z.eq_dec m 0) as [->|Hne].
  { assert (Z0 : (inject_Z 0 * pow2 e == 0)%Q) by ring.
    rewrite (round64_zero _ Z0), Z0. reflexivity. }
  set (x := (inject_Z m * pow2 e)%Q).
  assert (Hx : (0 < x)%Q).
  { apply Qmult_lt_0_compat; [|exact P]. change 0%Q with (inject_Z 0).
    rewrite <- Zlt_Qlt. lia. }
  rewrite (round64_pos x Hx).
  assert (Hlt : (x < pow2 (53 + e))%Q).
  { rewrite pow2_add. apply Qmult_lt_compat_r; [exact P|].
    rewrite pow2_Z by lia. rewrite <- Zlt_Qlt. lia. }
  pose proof (ilog2_lt x (53 + e) Hx Hlt) as Hl.
  assert (Hex : exponent x ≤ e) by (unfold exponent; lia).
  apply Qle_antisym.
  - apply roundPos_le_grid; [exact Hex|apply Qle_refl].
  - apply roundPos_ge_grid; [exact Hex|apply Qle_refl].
Qed.

Lemma round64_int (n : Z) : - 2 ^ 53 ≤ n ≤ 2 ^ 53 → (round64 (inject_Z n) == inject_Z n)%Q.
Proof.
  intros Hn.
  assert (Hpos : ∀ k, 0 ≤ k ≤ 2 ^ 53 → (round64 (inject_Z k) == inject_Z k)%Q).
  { intros k Hk. destruct (Z.eq_dec k (2 ^ 53)) as [->|Hne].
    - rewrite (round64_comp _ (inject_Z (2 ^ 52) * pow2 1)) by reflexivity.
      rewrite round64_exact by lia. reflexivity.
    - rewrite (round64_comp _ (inject_Z k * pow2 0))
        by (change (pow2 0) with 1%Q; ring).
      rewrite round64_exact by lia. change (pow2 0) with 1%Q. ring. }
  destruct (Z_le_gt_dec 0 n) as [H|H].
  - apply Hpos. lia.
  - rewrite (round64_comp _ (- inject_Z (- n))) by (rewrite inject_Z_opp; ring).
    rewrite round64_opp, Hpos by lia. rewrite inject_Z_opp. ring.
Qed.

(** A binary64 number is on its own grid. *)
Lemma isDouble_grid (x : Q) :
  isDouble x → (0 < x)%Q →
  (x == inject_Z (nearestEven (x / pow2 (exponent x))) * pow2 (exponent x))%Q.
Proof.
  intros Hd Hx. unfold isDouble in Hd. rewrite (round64_pos x Hx) in Hd.
  symmetry. exact Hd.
Qed.

(** It is on every finer grid, or below where that grid starts to be
    the finest. *)
Lemma isDouble_grid_or_small (x : Q) (j : Z) :
  isDouble x → (0 <= x)%Q →
  (∃ K : Z, 0 ≤ K ∧ (x == inject_Z K * pow2 j)%Q) ∨ (x < pow2 (j + 52))%Q.
Proof.
  intros Hd H0.
  destruct (Qcompare_spec x 0) as [E|L|G].
  - left. exists 0. split; [lia|]. rewrite E. ring.
  - lra.
  - destruct (Z_le_gt_dec j (exponent x)) as [Hj|Hj].
    + left. pose proof (isDouble_grid x Hd G) as Hg.
      set (N := nearestEven (x / pow2 (exponent x))) in *.
      assert (HN : 0 ≤ N).
      { apply nearestEven_ge. change (inject_Z 0) with 0%Q.
        apply Qle_shift_div_l; [apply pow2_pos|lra]. }
      exists (N * 2 ^ (exponent x - j)). split; [lia|].
      rewrite Hg at 1. rewrite inject_Z_mult, <- (pow2_Z (exponent x - j)) by lia.
      rewrite <- Qmult_assoc, <- pow2_add.
      replace (exponent x - j + j) with (exponent x) by lia. reflexivity.
    + right. destruct (ilog2_spec x G) as [_ S2].
      eapply Qlt_le_trans; [exact S2|]. apply pow2_le. unfold exponent in Hj. lia.
Qed.


(** Rounding keeps the order. *)
Lemma nearestEven_mono (p q : Q) : (p <= q)%Q → nearestEven p ≤ nearestEven q.
Proof.
  intros H. destruct (nearestEven_error p) as [P1 P2].
  destruct (nearestEven_error q) as [Q1 Q2].
  destruct (Z_le_gt_dec (nearestEven p) (nearestEven q)) as [Hle|Hgt]; [exact Hle|].
  exfalso.
  assert (Hd : (inject_Z (nearestEven q) + 1 <= inject_Z (nearestEven p))%Q).
  { change 1%Q with (inject_Z 1). rewrite <- inject_Z_plus, <- Zle_Qle. lia. }
  assert (E : (p == q)%Q) by lra.
  rewrite (nearestEven_comp p q E) in Hgt. lia.
Qed.

Lemma roundPos_mono (x y : Q) :
  (0 < x)%Q → (x <= y)%Q → (roundPos x <= roundPos y)%Q.
Proof.
  intros Hx Hxy.
  assert (Hy : (0 < y)%Q) by lra.
  destruct (ilog2_spec x Hx) as [X1 X2]. destruct (ilog2_spec y Hy) as [Y1 Y2].
  assert (Hl : ilog2 x ≤ ilog2 y).
  { assert (ilog2 x < ilog2 y + 1); [|lia].
    apply pow2_lt_inv. eapply Qle_lt_trans; [exact X1|]. lra. }
  destruct (Z.eq_dec (exponent x) (exponent y)) as [He|Hne].
  - unfold roundPos. rewrite He. pose proof (pow2_pos (exponent y)) as P.
    apply Qmult_le_compat_r; [|lra].
    rewrite <- Zle_Qle. apply nearestEven_mono.
    apply Qmult_le_compat_r; [exact Hxy|]. apply Qlt_le_weak, Qinv_lt_0_compat, P.
  - assert (Hlt : ilog2 x < ilog2 y) by (unfold exponent in Hne; lia).
    assert (Hey : exponent y = ilog2 y - 52) by (unfold exponent in *; lia).
    set (L := ilog2 y) in *.
    (* the power of two between them is on both grids *)
    assert (HB : (pow2 L == inject_Z 1 * pow2 L)%Q) by (change (inject_Z 1) with 1%Q; ring).
    assert (HxB : (x <= pow2 L)%Q).
    { apply Qlt_le_weak. eapply Qlt_le_trans; [exact X2|]. apply pow2_le. lia. }
    apply Qle_trans with (inject_Z 1 * pow2 L)%Q.
    + apply roundPos_le_grid; [unfold exponent in *; lia|]. rewrite <- HB. exact HxB.
    + apply roundPos_ge_grid; [lia|]. rewrite <- HB. exact Y1.
Qed.

Lemma round64_le (x y : Q) : (x <= y)%Q → (round64 x <= round64 y)%Q.
Proof.
  intros H.
  destruct (Qcompare_spec x 0) as [Ex|Lx|Gx].
  - rewrite (round64_zero x Ex). apply round64_nonneg. lra.
  - destruct (Qcompare_spec y 0) as [Ey|Ly|Gy].
    + rewrite (round64_zero y Ey), (round64_neg x Lx).
      pose proof (round64_nonneg (- x) ltac:(lra)) as Hn.
      rewrite (round64_pos (- x)) in Hn by lra. lra.
    + rewrite (round64_neg x Lx), (round64_neg y Ly).
      pose proof (roundPos_mono (- y) (- x) ltac:(lra) ltac:(lra)). lra.
    + rewrite (round64_neg x Lx).
      pose proof (round64_nonneg (- x) ltac:(lra)) as Hn.
      rewrite (round64_pos (- x)) in Hn by lra.
      pose proof (round64_nonneg y ltac:(lra)). lra.
  - rewrite (round64_pos x Gx), (round64_pos y) by lra.
    apply roundPos_mono; assumption.
Qed.

End Binary64Facts.

(** ** [toFixed(2)] *)

Section NumberFacts.

Lemma toFixed2_nonneg_eq (x : Q) :
  (0 <= x)%Q →
  Js.toFixed2 x = Js.round64 (Qmake (Qfloor (x * 100 + (1 # 2))%Q) 100).
Proof. intros H. unfold Js.toFixed2. rewrite (Qle_bool_true _ _ H). reflexivity. Qed.

Lemma round_arg_nonneg (x : Q) : (0 <= x)%Q → (0 <= x * 100 + (1 # 2))%Q.
Proof. intros H. lra. Qed.

Lemma hundredths_nonneg (n : Z) : 0 ≤ n → (0 <= n # 100)%Q.
Proof. intros H. unfold Qle. cbn. lia. Qed.

Lemma hundredths_Q (k : Z) : (k # 100 == inject_Z k * (1 # 100))%Q.
Proof. unfold Qeq. cbn. lia. Qed.

Lemma toFixed2_nonneg (x : Q) : (0 <= x)%Q → (0 <= Js.toFixed2 x)%Q.
Proof.
  intros H. rewrite (toFixed2_nonneg_eq x H).
  apply round64_nonneg, hundredths_nonneg, Qfloor_nonneg, round_arg_nonneg, H.
Qed.

(** The hundredths that [toFixed(2)] writes for [x]. *)
Lemma hundredths_spec (x : Q) :
  (inject_Z (Qfloor (x * 100 + (1 # 2))) * (1 # 100) <= x + (1 # 200))%Q
  ∧ (x - (1 # 200) < inject_Z (Qfloor (x * 100 + (1 # 2))) * (1 # 100))%Q.
Proof.
  pose proof (Qfloor_le (x * 100 + (1 # 2))) as H1.
  pose proof (Qlt_floor (x * 100 + (1 # 2))) as H2.
  rewrite inject_Z_plus in H2. change (inject_Z 1) with 1%Q in H2.
  split; lra.
Qed.

(** A number within half a hundredth of [k/100] is written as [k]. *)
Lemma hundredths_near (y : Q) (k : Z) :
  (inject_Z k * (1 # 100) - (1 # 200) <= y)%Q → (y < inject_Z k * (1 # 100) + (1 # 200))%Q →
  Qfloor (y * 100 + (1 # 2)) = k.
Proof.
  intros H1 H2. apply Qfloor_unique.
  - lra.
  - rewrite inject_Z_plus. change (inject_Z 1) with 1%Q. lra.
Qed.

(** Below [2^46] the binary64 number nearest to a number of hundredths
    is written as that number of hundredths. *)
Lemma hundredths_of_rounded (k : Z) :
  0 ≤ k → (k # 100 < Js.pow2 46)%Q →
  Qfloor (Js.round64 (k # 100) * 100 + (1 # 2)) = k.
Proof.
  intros Hk Hlt.
  destruct (round64_error (k # 100) 46 (hundredths_nonneg k Hk) Hlt ltac:(lia)) as [E1 E2].
  change (Js.pow2 (46 - 54)) with (Js.pow2 (-8)) in E1, E2.
  assert (P : (Js.pow2 (-8) == 1 # 256)%Q) by reflexivity.
  rewrite P in E1, E2. pose proof (hundredths_Q k) as Hq.
  set (y := (k # 100)%Q) in *.
  apply hundredths_near; lra.
Qed.

(** [Number(x.toFixed(2))] is then [x] itself. *)
Lemma toFixed2_rounded (k : Z) :
  0 ≤ k → (k # 100 < Js.pow2 46)%Q →
  Js.toFixed2 (Js.round64 (k # 100)) = Js.round64 (k # 100).
Proof.
  intros Hk Hlt.
  rewrite toFixed2_nonneg_eq by (apply round64_nonneg, hundredths_nonneg, Hk).
  rewrite (hundredths_of_rounded k Hk Hlt). reflexivity.
Qed.

(** Adding a duration to a number of hundredths. *)
Lemma toFixed2_sum (k t : Z) (d : Q) :
  0 ≤ k → (k # 100 < Js.pow2 44)%Q → 20 ≤ t ≤ 100 →
  (inject_Z t * (1 # 10) - Js.pow2 (-40) <= d)%Q → (d <= inject_Z t * (1 # 10) + Js.pow2 (-40))%Q →
  Js.toFixed2 (Js.add (Js.round64 (k # 100)) d) = Js.round64 ((k + 10 * t) # 100).
Proof.
  intros Hk Hlt Ht D1 D2.
  destruct (round64_error (k # 100) 44 (hundredths_nonneg k Hk) Hlt ltac:(lia)) as [E1 E2].
  change (Js.pow2 (44 - 54)) with (Js.pow2 (-10)) in E1, E2.
  assert (P10 : (Js.pow2 (-10) == 1 # 1024)%Q) by reflexivity.
  assert (P40 : (Js.pow2 (-40) == 1 # 1099511627776)%Q) by reflexivity.
  assert (P44 : (Js.pow2 44 == 17592186044416)%Q) by reflexivity.
  assert (P45 : (Js.pow2 45 == 35184372088832)%Q) by reflexivity.
  assert (P9 : (Js.pow2 (-9) == 1 # 512)%Q) by reflexivity.
  rewrite P10 in E1, E2. rewrite P40 in D1, D2. rewrite P44 in Hlt.
  pose proof (hundredths_Q k) as Hq. set (y := (k # 100)%Q) in *.
  assert (Tq : (20 <= inject_Z t)%Q ∧ (inject_Z t <= 100)%Q).
  { change 20%Q with (inject_Z 20). change 100%Q with (inject_Z 100).
    rewrite <- !Zle_Qle. lia. }
  assert (Kq : (0 <= inject_Z k)%Q) by (change 0%Q with (inject_Z 0); rewrite <- Zle_Qle; lia).
  set (a := Js.round64 y) in *.
  assert (S0 : (0 <= a + d)%Q) by lra.
  assert (S1 : (a + d < Js.pow2 45)%Q) by (rewrite P45; lra).
  destruct (round64_error (a + d) 45 S0 S1 ltac:(lia)) as [F1 F2].
  change (Js.pow2 (45 - 54)) with (Js.pow2 (-9)) in F1, F2. rewrite P9 in F1, F2.
  unfold Js.add.
  rewrite toFixed2_nonneg_eq by (apply round64_nonneg, S0).
  rewrite (hundredths_near (Js.round64 (a + d)) (k + 10 * t)); [reflexivity|..];
    rewrite inject_Z_plus, inject_Z_mult; change (inject_Z 10) with 10%Q; lra.
Qed.

(** Adding a duration moves what [toFixed(2)] gives up. *)
Lemma toFixed2_sum_lt (ct d : Q) :
  (0 <= ct)%Q → (ct < Js.pow2 44)%Q → (2 <= d)%Q → (d <= 10)%Q →
  (Js.toFixed2 ct < Js.toFixed2 (Js.add ct d))%Q.
Proof.
  intros C0 C1 D1 D2.
  assert (P44 : (Js.pow2 44 == 17592186044416)%Q) by reflexivity.
  assert (P45 : (Js.pow2 45 == 35184372088832)%Q) by reflexivity.
  assert (P46 : (Js.pow2 46 == 70368744177664)%Q) by reflexivity.
  assert (P9 : (Js.pow2 (-9) == 1 # 512)%Q) by reflexivity.
  assert (P8 : (Js.pow2 (-8) == 1 # 256)%Q) by reflexivity.
  rewrite P44 in C1.
  assert (S0 : (0 <= ct + d)%Q) by lra.
  assert (S1 : (ct + d < Js.pow2 45)%Q) by (rewrite P45; lra).
  destruct (round64_error (ct + d) 45 S0 S1 ltac:(lia)) as [F1 F2].
  change (Js.pow2 (45 - 54)) with (Js.pow2 (-9)) in F1, F2. rewrite P9 in F1, F2.
  unfold Js.add. set (s := Js.round64 (ct + d)) in *.
  assert (Hs : (0 <= s)%Q) by (apply round64_nonneg, S0).
  rewrite (toFixed2_nonneg_eq ct C0), (toFixed2_nonneg_eq s Hs).
  destruct (hundredths_spec ct) as [A1 A2]. destruct (hundredths_spec s) as [B1 B2].
  set (a := Qfloor (ct * 100 + (1 # 2))) in *.
  set (b := Qfloor (s * 100 + (1 # 2))) in *.
  assert (Ha : 0 ≤ a) by (apply Qfloor_nonneg; lra).
  assert (Hb : 0 ≤ b) by (apply Qfloor_nonneg; lra).
  pose proof (hundredths_Q a) as Qa. pose proof (hundredths_Q b) as Qb.
  assert (La : (a # 100 < Js.pow2 46)%Q) by (rewrite P46, Qa; lra).
  assert (Lb : (b # 100 < Js.pow2 46)%Q) by (rewrite P46, Qb; lra).
  destruct (round64_error (a # 100) 46 (hundredths_nonneg a Ha) La ltac:(lia)) as [_ Ea].
  destruct (round64_error (b # 100) 46 (hundredths_nonneg b Hb) Lb ltac:(lia)) as [Eb _].
  change (Js.pow2 (46 - 54)) with (Js.pow2 (-8)) in Ea, Eb. rewrite P8 in Ea, Eb.
  set (ya := (a # 100)%Q) in *. set (yb := (b # 100)%Q) in *.
  lra.
Qed.

(** What [toFixed(2)] writes for a binary64 number is read back as a
    number that [toFixed(2)] writes in the same way. *)
Lemma hundredths_of_double (x : Q) :
  Js.isDouble x → (0 <= x)%Q →
  Qfloor (Js.round64 (Qfloor (x * 100 + (1 # 2)) # 100) * 100 + (1 # 2))
  = Qfloor (x * 100 + (1 # 2)).
Proof.
  intros Hd H0. destruct (hundredths_spec x) as [A1 A2].
  set (k := Qfloor (x * 100 + (1 # 2))) in *.
  assert (Hk : 0 ≤ k) by (apply Qfloor_nonneg; lra).
  assert (Ky : (k # 100 == inject_Z k * (1 # 100))%Q) by apply hundredths_Q.
  destruct (Qlt_le_dec (k # 100) (Js.pow2 46)) as [Hsmall|Hbig].
  { apply hundredths_of_rounded; assumption. }
  (* from 2^46 on, half a unit in the last place is more than 1/200 *)
  assert (P46 : (Js.pow2 46 == 70368744177664)%Q) by reflexivity.
  set (y := (k # 100)%Q) in *.
  assert (Hy : (0 < y)%Q) by (rewrite P46 in Hbig; lra).
  assert (Hx : (0 < x)%Q) by (rewrite P46 in Hbig; lra).
  pose proof (exponent_ge y 46 Hbig) as Hey.
  assert (Hu : (Js.pow2 (-6) <= Js.pow2 (Js.exponent y))%Q) by (apply pow2_le; lia).
  assert (P6 : (Js.pow2 (-6) == 1 # 64)%Q) by reflexivity. rewrite P6 in Hu.
  set (u := Js.pow2 (Js.exponent y)) in *.
  assert (Hr : ∃ K : Z, (inject_Z K * u < y + (1 # 200))%Q
                        ∧ (y <= inject_Z K * u + (1 # 200))%Q).
  { destruct (Z_le_gt_dec (Js.exponent y) (Js.exponent x)) as [Hge|Hlt].
    - (* [x] is on the grid of [y] *)
      pose proof (isDouble_grid x Hd Hx) as Hg.
      set (N := Js.nearestEven (x / Js.pow2 (Js.exponent x))) in *.
      exists (N * 2 ^ (Js.exponent x - Js.exponent y)).
      assert (E : (inject_Z (N * 2 ^ (Js.exponent x - Js.exponent y)) * u == x)%Q).
      { rewrite Hg at 2. rewrite inject_Z_mult, <- (pow2_Z (Js.exponent x - Js.exponent y)) by lia.
        unfold u. rewrite <- Qmult_assoc, <- pow2_add.
        replace (Js.exponent x - Js.exponent y + Js.exponent y) with (Js.exponent x) by lia.
        reflexivity. }
      rewrite E. split; lra.
    - (* [x] is below the power of two that [y] has reached *)
      destruct (ilog2_spec x Hx) as [_ X2]. destruct (ilog2_spec y Hy) as [Y1 _].
      assert (Hl : Js.ilog2 x + 1 ≤ Js.ilog2 y) by (unfold Js.exponent in *; lia).
      assert (Hxy : (x < Js.pow2 (Js.ilog2 y))%Q).
      { eapply Qlt_le_trans; [exact X2|]. apply pow2_le. exact Hl. }
      exists (2 ^ 52).
      assert (E : (inject_Z (2 ^ 52) * u == Js.pow2 (Js.ilog2 y))%Q).
      { unfold u. rewrite <- (pow2_Z 52) by lia. rewrite <- pow2_add.
        replace (52 + Js.exponent y) with (Js.ilog2 y) by (unfold Js.exponent in *; lia).
        reflexivity. }
      rewrite E. split; lra. }
  destruct Hr as (K & R1 & R2).
  assert (Hround : (Js.round64 y == inject_Z K * u)%Q).
  { assert (Hh : (u / 2 == u * (1 # 2))%Q) by field.
    rewrite (round64_pos y Hy). apply roundPos_near_grid; fold u; rewrite Hh; lra. }
  apply hundredths_near; rewrite Hround; rewrite <- Ky; fold y; lra.
Qed.

End NumberFacts.

Section GapFacts.

Import Js.

Lemma inject_Z_pos (d : Z) : 0 < d → (0 < inject_Z d)%Q.
Proof. intros Hd. unfold Qlt, inject_Z. cbn. lia. Qed.

(** A positive binary64 number is an integer below [2^53] times its unit
    in the last place. *)
Lemma isDouble_mantissa (x : Q) :
  isDouble x → (0 < x)%Q →
  ∃ K : Z, 0 ≤ K < 2 ^ 53 ∧ (x == inject_Z K * pow2 (exponent x))%Q.
Proof.
  intros Hd Hx. pose proof (isDouble_grid x Hd Hx) as Hg.
  set (K := nearestEven (x / pow2 (exponent x))) in *.
  set (e := exponent x) in *. pose proof (pow2_pos e) as P.
  exists K. split; [|exact Hg]. split.
  - destruct (Z_le_gt_dec 0 K) as [H|H]; [exact H|exfalso].
    assert (HK : (inject_Z K <= inject_Z (-1))%Q) by (rewrite <- Zle_Qle; lia).
    change (inject_Z (-1)) with (-1)%Q in HK.
    assert (Hn : (inject_Z K * pow2 e <= (-1) * pow2 e)%Q)
      by (apply Qmult_le_compat_r; [exact HK|lra]).
    lra.
  - destruct (ilog2_spec x Hx) as [_ X2].
    assert (He : ilog2 x + 1 ≤ 53 + e) by (unfold e, exponent; lia).
    pose proof (pow2_le _ _ He) as Hle. rewrite (pow2_add 53 e), (pow2_Z 53) in Hle by lia.
    assert (Hlt : (inject_Z K * pow2 e < inject_Z (2 ^ 53) * pow2 e)%Q) by lra.
    apply Qmult_lt_r in Hlt; [|exact P]. rewrite <- Zlt_Qlt in Hlt. exact Hlt.
Qed.

(** Taking whole units off a binary64 number below [2^53] leaves a
    binary64 number: the remainder operator is exact. *)
Lemma isDouble_sub_int (x : Q) (n : Z) :
  isDouble x → (x < pow2 53)%Q → 0 ≤ n → (inject_Z n <= x)%Q →
  isDouble (x - inject_Z n).
Proof.
  intros Hd Hlt Hn Hle.
  assert (N0 : (0 <= inject_Z n)%Q) by (change 0%Q with (inject_Z 0); rewrite <- Zle_Qle; lia).
  destruct (Qcompare_spec x 0) as [E|L|G]; [| lra |].
  - assert (En : (inject_Z n == 0)%Q) by lra.
    unfold isDouble. assert (Z0 : (x - inject_Z n == 0)%Q) by lra.
    rewrite (round64_zero _ Z0), Z0. reflexivity.
  - destruct (isDouble_mantissa x Hd G) as (K & HK & Hx).
    set (e := exponent x) in *. pose proof (pow2_pos e) as P.
    assert (He : e ≤ 0) by (pose proof (exponent_le x 53 G Hlt ltac:(lia)); lia).
    pose proof (exponent_min x) as Hmin. fold e in Hmin.
    assert (Hn2 : (inject_Z n == inject_Z (n * 2 ^ (- e)) * pow2 e)%Q).
    { rewrite inject_Z_mult, <- (pow2_Z (- e)) by lia.
      rewrite <- Qmult_assoc, (Qmult_comm (pow2 (- e))), pow2_cancel. ring. }
    assert (Hdiff : (x - inject_Z n == inject_Z (K - n * 2 ^ (- e)) * pow2 e)%Q).
    { unfold Z.sub. rewrite inject_Z_plus, inject_Z_opp.
      rewrite Hx at 1. rewrite Hn2 at 1. ring. }
    assert (Hk : 0 ≤ K - n * 2 ^ (- e)).
    { destruct (Z_le_gt_dec 0 (K - n * 2 ^ (- e))) as [H|H]; [exact H|exfalso].
      assert (HK' : (inject_Z (K - n * 2 ^ (- e)) <= inject_Z (-1))%Q)
        by (rewrite <- Zle_Qle; lia).
      change (inject_Z (-1)) with (-1)%Q in HK'.
      assert (Hm : (inject_Z (K - n * 2 ^ (- e)) * pow2 e <= (-1) * pow2 e)%Q)
        by (apply Qmult_le_compat_r; [exact HK'|lra]).
      lra. }
    unfold isDouble. rewrite (round64_comp _ _ Hdiff), Hdiff.
    apply round64_exact; [|exact Hmin].
    assert (0 ≤ n * 2 ^ (- e)) by (apply Z.mul_nonneg_nonneg; [lia|apply Z.pow_nonneg; lia]).
    lia.
Qed.

(** Dividing a binary64 number that is below [c * N] by [c] gives a
    number below [N], also after rounding. *)
Lemma round64_div_below (y : Q) (c a N k : Z) :
  isDouble y → (0 <= y)%Q →
  2 ^ (a - 1) < c < 2 ^ a → 1 ≤ a ≤ 12 →
  2 ^ (k - 1) ≤ N < 2 ^ k → 1 ≤ k → k + a ≤ 54 →
  (y < inject_Z (c * N))%Q →
  (round64 (y / inject_Z c) < inject_Z N)%Q.
Proof.
  intros Hd Hy Hc Ha HN Hk Hka Hlt.
  assert (Hc0 : 0 < c) by (pose proof (Z.pow_nonneg 2 (a - 1) ltac:(lia)); lia).
  pose proof (inject_Z_pos c Hc0) as C0.
  set (C := inject_Z c) in *. set (q := (y / C)%Q).
  assert (Hq : (q * C == y)%Q) by (unfold q; field; lra).
  assert (Hq0 : (0 <= q)%Q).
  { unfold q. apply Qle_shift_div_l; [exact C0|]. lra. }
  rewrite inject_Z_mult in Hlt. fold C in Hlt.
  assert (HqN : (q < inject_Z N)%Q).
  { apply Qmult_lt_r with (z := C); [exact C0|]. rewrite Hq. lra. }
  assert (HNk : (inject_Z N < pow2 k)%Q) by (rewrite pow2_Z by lia; rewrite <- Zlt_Qlt; lia).
  destruct (round64_error q k Hq0 ltac:(lra) ltac:(lia)) as [_ E].
  set (P := pow2 (k - 54)) in *. pose proof (pow2_pos (k - 54)) as P0. fold P in P0.
  (* the unit of the grid that [c * N] and [y] share *)
  set (j := a + (k - 54)).
  assert (HJ : (pow2 j == pow2 a * P)%Q) by (unfold j, P; apply pow2_add).
  assert (HCA : (C < pow2 a)%Q) by (rewrite pow2_Z by lia; unfold C; rewrite <- Zlt_Qlt; lia).
  assert (HPC : (P * C < pow2 j)%Q).
  { rewrite HJ, (Qmult_comm (pow2 a)). apply Qmult_lt_l; assumption. }
  eapply Qle_lt_trans; [exact E|].
  apply Qmult_lt_r with (z := C); [exact C0|].
  assert (Hexp : ((q + P) * C == y + P * C)%Q) by (rewrite <- Hq; ring).
  rewrite Hexp.
  destruct (isDouble_grid_or_small y j Hd Hy) as [(K & HK & Hg)|Hsmall].
  - assert (HcN : (inject_Z N * C == inject_Z (c * N * 2 ^ (- j)) * pow2 j)%Q).
    { rewrite !inject_Z_mult, <- (pow2_Z (- j)) by (unfold j; lia). fold C.
      rewrite <- Qmult_assoc, (Qmult_comm (pow2 (- j))), pow2_cancel. ring. }
    pose proof (pow2_pos j) as J0.
    assert (HKlt : K < c * N * 2 ^ (- j)).
    { rewrite Zlt_Qlt. apply Qmult_lt_r with (z := pow2 j); [exact J0|].
      rewrite <- Hg, <- HcN. lra. }
    assert (HK1 : (inject_Z (K + 1) * pow2 j <= inject_Z (c * N * 2 ^ (- j)) * pow2 j)%Q).
    { apply Qmult_le_compat_r; [|lra]. rewrite <- Zle_Qle. lia. }
    rewrite inject_Z_plus in HK1. change (inject_Z 1) with 1%Q in HK1.
    rewrite <- HcN in HK1.
    assert (Hy1 : (y + pow2 j <= inject_Z N * C)%Q).
    { rewrite Hg. eapply Qle_trans; [|exact HK1]. ring_simplify. apply Qle_refl. }
    lra.
  - replace (j + 52) with ((k - 1) + (a - 1)) in Hsmall by (unfold j; lia).
    rewrite pow2_add in Hsmall.
    set (B := pow2 (k - 1)) in *. set (H := pow2 (a - 1)) in *.
    pose proof (pow2_pos (k - 1)) as B0. fold B in B0.
    assert (HBN : (B <= inject_Z N)%Q) by (unfold B; rewrite pow2_Z by lia; rewrite <- Zle_Qle; lia).
    assert (HHC : (H + 1 <= C)%Q).
    { unfold H, C. rewrite pow2_Z by lia. change 1%Q with (inject_Z 1).
      rewrite <- inject_Z_plus, <- Zle_Qle. lia. }
    assert (HJB : (pow2 j <= B)%Q) by (apply pow2_le; unfold j; lia).
    assert (H1 : (B * (H + 1) <= B * C)%Q).
    { rewrite !(Qmult_comm B). apply Qmult_le_compat_r; [exact HHC|lra]. }
    assert (H2 : (B * C <= inject_Z N * C)%Q).
    { apply Qmult_le_compat_r; [exact HBN|lra]. }
    assert (H3 : (B * (H + 1) == B * H + B)%Q) by ring.
    lra.
Qed.

(** What [round64] gives is a binary64 number. *)
Lemma roundPos_isDouble (x : Q) : (0 < x)%Q → isDouble (roundPos x).
Proof.
  intros Hx. unfold roundPos. set (e := exponent x). pose proof (pow2_pos e) as P.
  pose proof (exponent_min x) as Hmin. fold e in Hmin.
  set (N := nearestEven (x / pow2 e)).
  assert (Hq0 : (0 <= x / pow2 e)%Q) by (apply Qle_shift_div_l; [exact P|lra]).
  assert (HN0 : 0 ≤ N) by (apply nearestEven_ge; exact Hq0).
  assert (HN1 : N ≤ 2 ^ 53).
  { apply nearestEven_le. apply Qle_shift_div_r; [exact P|].
    destruct (ilog2_spec x Hx) as [_ X2].
    assert (He : ilog2 x + 1 ≤ 53 + e) by (unfold e, exponent; lia).
    pose proof (pow2_le _ _ He) as Hle. rewrite (pow2_add 53 e), (pow2_Z 53) in Hle by lia.
    lra. }
  unfold isDouble.
  destruct (Z.eq_dec N (2 ^ 53)) as [HE|HE].
  - assert (E2 : (inject_Z N * pow2 e == inject_Z (2 ^ 52) * pow2 (e + 1))%Q).
    { rewrite HE, pow2_succ. change (inject_Z (2 ^ 53)) with (2 * inject_Z (2 ^ 52))%Q. ring. }
    rewrite (round64_comp _ _ E2), E2. apply round64_exact; lia.
  - apply round64_exact; lia.
Qed.

Lemma round64_isDouble (x : Q) : isDouble (round64 x).
Proof.
  unfold isDouble.
  destruct (Qcompare_spec x 0) as [E|L|G].
  - pose proof (round64_zero x E) as Z0.
    rewrite (round64_comp _ _ Z0), Z0. apply (round64_zero 0). reflexivity.
  - pose proof (round64_neg x L) as Hn.
    rewrite (round64_comp _ _ Hn), Hn, round64_opp.
    assert (Hp : (0 < - x)%Q) by lra.
    pose proof (roundPos_isDouble (- x) Hp) as Hd. unfold isDouble in Hd.
    rewrite Hd. reflexivity.
  - pose proof (round64_pos x G) as Hp.
    rewrite (round64_comp _ _ Hp), Hp. apply roundPos_isDouble, G.
Qed.

End GapFacts.


Section FixedFacts.

(** [Number(x.toFixed(2))] of a binary64 number is left as it is by
    [toFixed(2)]. *)
Lemma toFixed2_idem (x : Q) :
  Js.isDouble x → (0 <= x)%Q → Js.toFixed2 (Js.toFixed2 x) = Js.toFixed2 x.
Proof.
  intros Hd H0. rewrite (toFixed2_nonneg_eq x H0).
  rewrite toFixed2_nonneg_eq
    by (apply round64_nonneg, hundredths_nonneg, Qfloor_nonneg, round_arg_nonneg, H0).
  rewrite (hundredths_of_double x Hd H0). reflexivity.
Qed.

Lemma add_nonneg (x y : Q) : (0 <= x)%Q → (0 <= y)%Q → (0 <= Js.add x y)%Q.
Proof. intros Hx Hy. apply round64_nonneg. lra. Qed.

End FixedFacts.

(** ** The time codec *)

Section ClockFacts.

Lemma Qfloor_sub_Z (x : Q) (n : Z) : Qfloor (x - inject_Z n) = Qfloor x - n.
Proof.
  unfold Qminus. rewrite <- inject_Z_opp, Qfloor_add_Z. lia.
Qed.

(** The floor of a quotient by a positive integer is the quotient of the
    floor. *)
Lemma Qfloor_div_Z (x : Q) (d : Z) :
  0 < d → Qfloor (x / inject_Z d) = Qfloor x / d.
Proof.
  intros Hd.
  pose proof (inject_Z_pos d Hd) as Hdq.
  pose proof (Qfloor_le x) as Hlo. pose proof (Qlt_floor x) as Hhi.
  apply Qfloor_unique.
  - apply Qle_shift_div_l; [exact Hdq|].
    eapply Qle_trans; [|exact Hlo].
    rewrite <- inject_Z_mult, <- Zle_Qle.
    pose proof (Z.mul_div_le (Qfloor x) d Hd). lia.
  - apply Qlt_shift_div_r; [exact Hdq|].
    eapply Qlt_le_trans; [exact Hhi|].
    rewrite <- inject_Z_mult, <- Zle_Qle.
    pose proof (Z.mul_succ_div_gt (Qfloor x) d Hd). lia.
Qed.

(** On a non-negative dividend [%] takes away the whole multiples of the
    divisor. *)
Lemma rem_nonneg (x : Q) (d : Z) :
  (0 <= x)%Q → 0 < d →
  (Js.rem x (inject_Z d) == x - inject_Z (d * (Qfloor x / d)))%Q.
Proof.
  intros Hx Hd. unfold Js.rem, Js.trunc.
  assert (Hq : (0 <= x / inject_Z d)%Q).
  { apply Qle_shift_div_l; [apply inject_Z_pos, Hd|].
    rewrite Qmult_0_l. exact Hx. }
  rewrite (Qle_bool_true _ _ Hq), (Qfloor_div_Z x d Hd), inject_Z_mult.
  reflexivity.
Qed.

(** It is exact in binary64 as well. *)
Lemma rem_isDouble (x : Q) (d : Z) :
  Js.isDouble x → (0 <= x)%Q → (x < Js.pow2 53)%Q → 0 < d →
  Js.isDouble (x - inject_Z (d * (Qfloor x / d))).
Proof.
  intros Hd H0 Hlt Hpos. pose proof (Qfloor_nonneg x H0) as Ht.
  apply isDouble_sub_int; [exact Hd|exact Hlt| |].
  - apply Z.mul_nonneg_nonneg; [lia|]. apply Z.div_pos; lia.
  - eapply Qle_trans; [|apply Qfloor_le]. rewrite <- Zle_Qle.
    apply Z.mul_div_le. exact Hpos.
Qed.

(** The floor of the rounded quotient of a binary64 number by an integer
    below [2^12] is the quotient of its whole part. *)
Lemma floor_div_rounded (y : Q) (c a : Z) :
  Js.isDouble y → (0 <= y)%Q →
  2 ^ (a - 1) < c < 2 ^ a → 1 ≤ a ≤ 12 →
  Qfloor y / c + 1 < 2 ^ (54 - a) →
  Qfloor (Js.div y (inject_Z c)) = Qfloor y / c.
Proof.
  intros Hd H0 Hc Ha Hn.
  assert (Hc0 : 0 < c) by (pose proof (Z.pow_nonneg 2 (a - 1) ltac:(lia)); lia).
  pose proof (Qfloor_nonneg y H0) as Ht.
  pose proof (Z.div_pos (Qfloor y) c Ht Hc0) as Hn0.
  set (n0 := Qfloor y / c) in *.
  pose proof (Qfloor_div_Z y c Hc0) as Hfl. fold n0 in Hfl.
  pose proof (Qfloor_le (y / inject_Z c)) as Hlo. rewrite Hfl in Hlo.
  assert (Hbig : 2 ^ (54 - a) ≤ 2 ^ 53) by (apply Z.pow_le_mono_r; lia).
  unfold Js.div. apply Qfloor_unique.
  - rewrite <- (round64_int n0) by lia. apply round64_le, Hlo.
  - set (k := Z.log2 (n0 + 1) + 1).
    pose proof (Z.log2_spec (n0 + 1) ltac:(lia)) as Hl.
    pose proof (Z.log2_nonneg (n0 + 1)) as Hl0.
    assert (Hlk : Z.log2 (n0 + 1) < 54 - a) by (apply Z.log2_lt_pow2; lia).
    apply (round64_div_below y c a (n0 + 1) k Hd H0 Hc Ha).
    + unfold k. replace (Z.log2 (n0 + 1) + 1 - 1) with (Z.log2 (n0 + 1)) by lia.
      replace (Z.log2 (n0 + 1) + 1) with (Z.succ (Z.log2 (n0 + 1))) by lia. exact Hl.
    + unfold k. lia.
    + unfold k. lia.
    + eapply Qlt_le_trans; [apply Qlt_floor|]. rewrite <- Zle_Qle.
      pose proof (Z.mul_succ_div_gt (Qfloor y) c Hc0). fold n0 in H. lia.
Qed.

Lemma minutes_of (t : Z) : (t - 3600 * (t / 3600)) / 60 = (t / 60) mod 60.
Proof. Z.to_euclidean_division_equations. lia. Qed.

Lemma seconds_of (t : Z) : t - 60 * (t / 60) = t mod 60.
Proof. Z.to_euclidean_division_equations. lia. Qed.

Lemma hundredths_of (t c : Z) :
  100 * t ≤ c → c < 100 * t + 100 → c - 100 * t = c mod 100.
Proof. Z.to_euclidean_division_equations. lia. Qed.

Lemma pad_two_digits (n : Z) :
  0 ≤ n < 100 → Js.padStart 2 "0" (Js.toString n) = TimeCodec.two_digits n.
Proof.
  intros Hn.
  assert (Hall : forallb (λ k, String.eqb (Js.padStart 2 "0" (Js.toString k))
                                          (TimeCodec.two_digits k))
                         (seqZ 0 100) = true) by (vm_compute; reflexivity).
  rewrite forallb_forall in Hall.
  apply String.eqb_eq, Hall, list_elem_of_In, elem_of_seqZ. lia.
Qed.

Lemma lt_0_inject_Z (h : Z) : Js.lt 0 (inject_Z h) = (0 <? h).
Proof.
  unfold Js.lt. destruct (Z.ltb_spec 0 h) as [H|H].
  - destruct (Qle_bool (inject_Z h) 0) eqn:E; [|reflexivity].
    apply Qle_bool_iff in E. change 0%Q with (inject_Z 0) in E.
    rewrite <- Zle_Qle in E. lia.
  - rewrite Qle_bool_true; [reflexivity|].
    change 0%Q with (inject_Z 0). rewrite <- Zle_Qle. exact H.
Qed.

(** The fraction of a second, [seconds % 1]. *)
Lemma fraction_of (x : Q) :
  (0 <= x)%Q → (Js.rem x 1 == x - inject_Z (Qfloor x))%Q.
Proof.
  intros Hx. rewrite (rem_nonneg x 1 Hx ltac:(lia) : (Js.rem x 1 == _)%Q).
  rewrite Z.div_1_r, Z.mul_1_l. reflexivity.
Qed.

(** The hundredths that [formatTime] shows: the floor of the binary64
    product of the fraction and 100. *)
Lemma hundredths_shown (x : Q) :
  Js.isDouble x → (0 <= x)%Q → (x < Js.pow2 53)%Q →
  let c := Qfloor (Js.round64 ((x - inject_Z (Qfloor x)) * 100)) in
  0 ≤ c < 100
  ∧ Qfloor (x * 100) mod 100 ≤ c ≤ Qfloor (x * 100) mod 100 + 1.
Proof.
  intros Hd H0 Hlt c.
  pose proof (Qfloor_nonneg x H0) as Ht.
  pose proof (Qfloor_le x) as Hlo. pose proof (Qlt_floor x) as Hhi.
  rewrite inject_Z_plus in Hhi. change (inject_Z 1) with 1%Q in Hhi.
  assert (Hf : Js.isDouble (x - inject_Z (Qfloor x)))
    by (apply isDouble_sub_int; assumption).
  set (f := (x - inject_Z (Qfloor x))%Q) in *.
  assert (F0 : (0 <= f)%Q) by (unfold f; lra).
  assert (F1 : (f < 1)%Q) by (unfold f; lra).
  set (p := Js.round64 (f * 100)) in *.
  assert (P0 : (0 <= p)%Q) by (apply round64_nonneg; lra).
  assert (P100 : (p < 100)%Q).
  { assert (P7 : (Js.pow2 7 == 128)%Q) by reflexivity.
    assert (P47 : (Js.pow2 (-47) == 1 # 140737488355328)%Q) by reflexivity.
    assert (P53 : (Js.pow2 (-53) == 1 # 9007199254740992)%Q) by reflexivity.
    assert (P1 : (Js.pow2 (-1) == 1 # 2)%Q) by reflexivity.
    destruct (round64_error (f * 100) 7 ltac:(lra) ltac:(rewrite P7; lra) ltac:(lia)) as [_ E].
    change (Js.pow2 (7 - 54)) with (Js.pow2 (-47)) in E. rewrite P47 in E. fold p in E.
    destruct (isDouble_grid_or_small f (-53) Hf F0) as [(K & HK & Hg)|Hs].
    - assert (HK1 : K < 2 ^ 53).
      { rewrite Zlt_Qlt. apply Qmult_lt_r with (z := Js.pow2 (-53)); [apply pow2_pos|].
        rewrite <- Hg. rewrite P53.
        assert (E1 : (inject_Z (2 ^ 53) * (1 # 9007199254740992) == 1)%Q) by reflexivity.
        rewrite E1. exact F1. }
      assert (HK2 : (inject_Z K <= inject_Z (2 ^ 53) - 1)%Q).
      { change 1%Q with (inject_Z 1). unfold Qminus.
        rewrite <- inject_Z_opp, <- inject_Z_plus, <- Zle_Qle. lia. }
      assert (HK3 : (inject_Z K * (1 # 9007199254740992)
                     <= (inject_Z (2 ^ 53) - 1) * (1 # 9007199254740992))%Q).
      { apply Qmult_le_compat_r; [exact HK2|discriminate]. }
      rewrite P53 in Hg. rewrite <- Hg in HK3.
      assert (E2 : ((inject_Z (2 ^ 53) - 1) * (1 # 9007199254740992)
                    == 1 - (1 # 9007199254740992))%Q) by reflexivity.
      rewrite E2 in HK3. lra.
    - change (Js.pow2 (-53 + 52)) with (Js.pow2 (-1)) in Hs. rewrite P1 in Hs. lra. }
  assert (Hc0 : Qfloor (f * 100) = Qfloor (x * 100) mod 100).
  { rewrite (Qfloor_comp _ (x * 100 - inject_Z (100 * Qfloor x))%Q).
    - rewrite Qfloor_sub_Z.
      assert (H1 : 100 * Qfloor x ≤ Qfloor (x * 100)).
      { rewrite <- (Qfloor_Z (100 * Qfloor x)). apply Qfloor_resp_le.
        rewrite inject_Z_mult. change (inject_Z 100) with 100%Q. lra. }
      assert (H2 : Qfloor (x * 100) < 100 * Qfloor x + 100).
      { rewrite Zlt_Qlt. eapply Qle_lt_trans; [apply Qfloor_le|].
        rewrite inject_Z_plus, inject_Z_mult. change (inject_Z 100) with 100%Q. lra. }
      apply hundredths_of; assumption.
    - unfold f. rewrite inject_Z_mult. change (inject_Z 100) with 100%Q. ring. }
  pose proof (Qfloor_le (f * 100)) as G1. pose proof (Qlt_floor (f * 100)) as G2.
  rewrite Hc0 in G1, G2.
  pose proof (Z.mod_pos_bound (Qfloor (x * 100)) 100 ltac:(lia)) as Bc.
  set (c0 := Qfloor (x * 100) mod 100) in *.
  assert (L : (inject_Z c0 <= p)%Q).
  { rewrite <- (round64_int c0) by lia. apply round64_le, G1. }
  assert (U : (p <= inject_Z (c0 + 1))%Q).
  { rewrite <- (round64_int (c0 + 1)) by lia. apply round64_le. lra. }
  assert (C1 : c0 ≤ c).
  { unfold c. rewrite <- (Qfloor_Z c0). apply Qfloor_resp_le, L. }
  assert (C2 : c ≤ c0 + 1).
  { unfold c. rewrite <- (Qfloor_Z (c0 + 1)). apply Qfloor_resp_le, U. }
  assert (C3 : c < 100).
  { unfold c. rewrite Zlt_Qlt. eapply Qle_lt_trans; [apply Qfloor_le|].
    change (inject_Z 100) with 100%Q. exact P100. }
  lia.
Qed.

Lemma formatTime_clock (x : Q) :
  Js.isDouble x → (0 <= x)%Q → (x < Js.pow2 53)%Q →
  TimeCodec.formatTime (Js.Num x) =
    TimeCodec.clock (Qfloor x / 3600) ((Qfloor x / 60) mod 60) (Qfloor x mod 60)
                    (Qfloor (Js.round64 ((x - inject_Z (Qfloor x)) * 100))).
Proof.
  intros Hd H0 Hlt.
  pose proof (Qfloor_nonneg x H0) as Ht.
  assert (HT : Qfloor x < 2 ^ 53).
  { rewrite Zlt_Qlt. eapply Qle_lt_trans; [apply Qfloor_le|].
    rewrite <- pow2_Z by lia. exact Hlt. }
  unfold TimeCodec.formatTime, Js.numFloor, Js.numDiv, Js.numRem, Js.numMul,
    Js.numToString, Js.numPositive, Js.floor.
  rewrite !Qfloor_Z, lt_0_inject_Z.
  assert (Hh : Qfloor (Js.div x 3600) = Qfloor x / 3600).
  { apply (floor_div_rounded x 3600 12 Hd H0); [lia|lia|].
    change (2 ^ (54 - 12)) with 4398046511104.
    assert (Qfloor x / 3600 ≤ 2 ^ 53 / 3600) by (apply Z.div_le_mono; lia).
    change (2 ^ 53 / 3600) with 2501999792983 in H. lia. }
  assert (Hm : Qfloor (Js.div (Js.rem x 3600) 60) = (Qfloor x / 60) mod 60).
  { pose proof (rem_nonneg x 3600 H0 ltac:(lia)) as Hr.
    change (inject_Z 3600) with 3600%Q in Hr.
    unfold Js.div. rewrite (round64_comp _ ((x - inject_Z (3600 * (Qfloor x / 3600))) / 60)%Q)
      by (rewrite Hr; reflexivity).
    pose proof (rem_isDouble x 3600 Hd H0 Hlt ltac:(lia)) as Hrd.
    set (r := (x - inject_Z (3600 * (Qfloor x / 3600)))%Q) in *.
    assert (Hfr : Qfloor r = Qfloor x - 3600 * (Qfloor x / 3600))
      by (unfold r; apply Qfloor_sub_Z).
    assert (Hr0 : (0 <= r)%Q).
    { unfold r. pose proof (Qfloor_le x). 
      assert ((inject_Z (3600 * (Qfloor x / 3600)) <= inject_Z (Qfloor x))%Q).
      { rewrite <- Zle_Qle. apply Z.mul_div_le. lia. }
      lra. }
    pose proof (floor_div_rounded r 60 6 Hrd Hr0 ltac:(lia) ltac:(lia)) as Hfd.
    unfold Js.div in Hfd. change (inject_Z 60) with 60%Q in Hfd.
    rewrite Hfd, Hfr; [apply minutes_of|].
    rewrite Hfr, minutes_of. change (2 ^ (54 - 6)) with 281474976710656.
    pose proof (Z.mod_pos_bound (Qfloor x / 60) 60 ltac:(lia)). lia. }
  assert (Hs : Qfloor (Js.rem x 60) = Qfloor x mod 60).
  { rewrite (Qfloor_comp (Js.rem x 60) (x - inject_Z (60 * (Qfloor x / 60)))%Q).
    - rewrite Qfloor_sub_Z. apply seconds_of.
    - apply (rem_nonneg x 60 H0). lia. }
  assert (Hc : Js.mul (Js.rem x 1) 100
               = Js.round64 ((x - inject_Z (Qfloor x)) * 100)).
  { unfold Js.mul. apply round64_comp. rewrite (fraction_of x H0). reflexivity. }
  rewrite Hh, Hm, Hs, Hc.
  pose proof (Z.mod_pos_bound (Qfloor x / 60) 60 ltac:(lia)) as Bm.
  pose proof (Z.mod_pos_bound (Qfloor x) 60 ltac:(lia)) as Bs.
  destruct (hundredths_shown x Hd H0 Hlt) as [Bc _].
  rewrite !pad_two_digits by lia.
  reflexivity.
Qed.

(** The hundredths are cut, not rounded, but after the product with 100
    has been rounded to binary64: at the number that the literal [2.3]
    denotes, a little below 2.3, the string ends in 29; at the one of
    [0.03], a little below 0.03, the product is 3 and the string ends in
    03. *)
Lemma formatTime_cuts_hundredths :
  TimeCodec.formatTime (Js.Num Sample.b64_2_3) = "00:02.29"%string
  ∧ Js.round64 (23 # 10) = Sample.b64_2_3
  ∧ TimeCodec.formatTime (Js.Num Sample.b64_0_03) = "00:00.03"%string
  ∧ Js.round64 (3 # 100) = Sample.b64_0_03
  ∧ (Sample.b64_0_03 < 3 # 100)%Q
  ∧ Qfloor (Sample.b64_0_03 * 100) = 2.
Proof. repeat split; vm_compute; reflexivity. Qed.

(** C9 fails at [Infinity], a number that is not negative (and the
    [duration] of a stream, which the player hands to [formatTime]): the
    string has no minutes, seconds or hundredths of two digits. *)
Lemma C9_formatTime_of_Infinity :
  TimeCodec.formatTime Js.PosInfinity = "Infinity:NaN:NaN.NaN"%string.
Proof. reflexivity. Qed.

(** C9, amended: for a finite binary64 number of seconds from 0 to below
    [2^53], [formatTime] gives the clock string of the whole hours, the
    minutes below 60, the seconds below 60 and the hundredths below 100:
    the hours and a colon only when the hours are positive, then minutes,
    colon, seconds, point, hundredths, each of exactly two digits with a
    leading zero.  The hundredths are the floor of the binary64 product of the
    fraction and 100: the cut hundredths of the number, or one more.  It
    maps the binary64 number of 3725.07 to 1:02:05.07, 65.5 to 01:05.50
    and the binary64 number of 0.03, a little below 0.03, to 00:00.03. *)
Theorem C9_formatTime_is_clock (x : Q) :
  Js.isDouble x → (0 <= x)%Q → (x < Js.pow2 53)%Q →
  let c := Qfloor (Js.round64 ((x - inject_Z (Qfloor x)) * 100)) in
  TimeCodec.formatTime (Js.Num x) =
    TimeCodec.clock (Qfloor x / 3600) ((Qfloor x / 60) mod 60) (Qfloor x mod 60) c
  ∧ 0 ≤ (Qfloor x / 60) mod 60 < 60
  ∧ 0 ≤ Qfloor x mod 60 < 60
  ∧ 0 ≤ c < 100
  ∧ Qfloor (x * 100) mod 100 ≤ c ≤ Qfloor (x * 100) mod 100 + 1
  ∧ TimeCodec.formatTime (Js.Num Sample.b64_3725_07) = "1:02:05.07"%string
  ∧ Js.round64 (372507 # 100) = Sample.b64_3725_07
  ∧ TimeCodec.formatTime (Js.Num (655 # 10)) = "01:05.50"%string
  ∧ Js.isDouble (655 # 10)
  ∧ TimeCodec.formatTime (Js.Num Sample.b64_0_03) = "00:00.03"%string
  ∧ Js.round64 (3 # 100) = Sample.b64_0_03.
Proof.
  intros Hd H0 Hlt c. split; [apply formatTime_clock; assumption|].
  split; [apply Z.mod_pos_bound; lia|].
  split; [apply Z.mod_pos_bound; lia|].
  destruct (hundredths_shown x Hd H0 Hlt) as [B1 B2]. fold c in B1, B2.
  split; [exact B1|]. split; [exact B2|].
  repeat split; vm_compute; reflexivity.
Qed.

Lemma C9_witness :
  TimeCodec.formatTime (Js.Num Sample.b64_0_03) = TimeCodec.clock 0 0 0 3.
Proof.
  exact (proj1 (C9_formatTime_is_clock Sample.b64_0_03
                  ltac:(vm_compute; reflexivity) ltac:(vm_compute; discriminate)
                  ltac:(vm_compute; reflexivity))).
Defined.

End ClockFacts.

(** ** The import paths *)

Section ImportFacts.

Import Importer.

Lemma spanDigits_digits (s : string) : Str.allDigits (Str.spanDigits s).1 = true.
Proof.
  induction s as [|c s IH]; cbn; [reflexivity|].
  destruct (Str.isDigit c) eqn:Hc; [|reflexivity].
  destruct (Str.spanDigits s) as [d r]. cbn in *. rewrite Hc. exact IH.
Qed.

Lemma digitsValueFrom_nonneg (s : string) (acc : Z) :
  Str.allDigits s = true → 0 ≤ acc → 0 ≤ Str.digitsValueFrom acc s.
Proof.
  revert acc. induction s as [|c s IH]; cbn; intros acc Hs Hacc; [exact Hacc|].
  apply andb_true_iff in Hs as [Hc Hs]. apply IH; [exact Hs|].
  unfold Str.isDigit in Hc. apply andb_true_iff in Hc as [Hlo _].
  apply Nat.leb_le in Hlo. lia.
Qed.

Lemma decimalValue_nonneg (s : string) : (0 <= Str.decimalValue s)%Q.
Proof.
  unfold Str.decimalValue.
  pose proof (spanDigits_digits s) as Hip.
  destruct (Str.spanDigits s) as [ip r]. cbn in Hip.
  pose proof (digitsValueFrom_nonneg ip 0 Hip (Z.le_refl 0)) as Hv.
  fold (Str.digitsValue ip) in Hv.
  destruct (Str.lit "." r) as [r'|].
  - pose proof (spanDigits_digits r') as Hfp.
    destruct (Str.spanDigits r') as [fp r'']. cbn in Hfp.
    pose proof (digitsValueFrom_nonneg fp 0 Hfp (Z.le_refl 0)) as Hf.
    fold (Str.digitsValue fp) in Hf.
    unfold Qle. cbn [Qnum Qden].
    assert (0 ≤ 10 ^ Z.of_nat (String.length fp)) by (apply Z.pow_nonneg; lia).
    nia.
  - unfold Qle, inject_Z. cbn [Qnum Qden]. lia.
Qed.

Lemma parseFloat_nonneg (s : string) : (0 <= Str.parseFloat s)%Q.
Proof. apply round64_nonneg, decimalValue_nonneg. Qed.

(** The binary64 number of the literal [0.1]. *)
Lemma tenth_literal :
  Js.round64 (1 # 10) = (3602879701896397 # 36028797018963968)%Q.
Proof. vm_compute. reflexivity. Qed.

Lemma duration_bounds (t : string) : (2 <= duration t <= 10)%Q.
Proof.
  unfold duration, Js.max, Js.min.
  set (x := Js.mul _ _).
  destruct (Qle_bool 10 x) eqn:H10.
  - cbn. split; discriminate.
  - destruct (Qle_bool 2 x) eqn:H2.
    + split; [apply Qle_bool_iff, H2|apply Qlt_le_weak, Qle_bool_false, H10].
    + split; [apply Qle_refl|discriminate].
Qed.

(** The synthesized duration is, up to the rounding of the product, 0.1
    seconds for each character of the trimmed line, clamped to 2 and 10
    seconds. *)
Lemma duration_tenths (l : string) :
  20 ≤ tenths l ≤ 100
  ∧ (inject_Z (tenths l) * (1 # 10) - Js.pow2 (-40) <= duration (Str.trim l))%Q
  ∧ (duration (Str.trim l) <= inject_Z (tenths l) * (1 # 10) + Js.pow2 (-40))%Q.
Proof.
  split; [unfold tenths; lia|].
  assert (P40 : (Js.pow2 (-40) == 1 # 1099511627776)%Q) by reflexivity.
  rewrite P40.
  unfold duration, tenths, Js.mul. rewrite tenth_literal.
  set (n := Z.of_nat (String.length (Str.trim l))).
  assert (Hn : 0 ≤ n) by (unfold n; lia).
  set (v := (inject_Z n * (3602879701896397 # 36028797018963968))%Q).
  set (p := Js.round64 v).
  assert (R2 : (Js.round64 2 == 2)%Q) by (apply (round64_int 2); lia).
  assert (R10 : (Js.round64 10 == 10)%Q) by (apply (round64_int 10); lia).
  assert (N0 : (0 <= inject_Z n)%Q) by (change 0%Q with (inject_Z 0); rewrite <- Zle_Qle; lia).
  destruct (Z_le_gt_dec n 19) as [Hs|Hs]; [|destruct (Z_le_gt_dec 101 n) as [Hb|Hb]].
  - (* short lines *)
    assert (Hv : (v <= 2)%Q).
    { assert (inject_Z n <= 19)%Q by (change 19%Q with (inject_Z 19); rewrite <- Zle_Qle; lia).
      unfold v. lra. }
    pose proof (round64_le v 2 Hv) as Hp. fold p in Hp. rewrite R2 in Hp.
    replace (Z.max 20 (Z.min 100 n)) with 20 by lia. change (inject_Z 20) with 20%Q.
    unfold Js.max, Js.min.
    destruct (Qle_bool 10 p) eqn:H10; [apply Qle_bool_iff in H10; lra|].
    destruct (Qle_bool 2 p) eqn:H2; [apply Qle_bool_iff in H2|]; split; lra.
  - (* long lines *)
    assert (Hv : (10 <= v)%Q).
    { assert (101 <= inject_Z n)%Q by (change 101%Q with (inject_Z 101); rewrite <- Zle_Qle; lia).
      unfold v. lra. }
    pose proof (round64_le 10 v Hv) as Hp. fold p in Hp. rewrite R10 in Hp.
    replace (Z.max 20 (Z.min 100 n)) with 100 by lia. change (inject_Z 100) with 100%Q.
    unfold Js.max, Js.min. rewrite (Qle_bool_true 10 p Hp).
    change (Qle_bool 2 10) with true. cbv iota. split; lra.
  - (* the lines between *)
    replace (Z.max 20 (Z.min 100 n)) with n by lia.
    assert (Nl : (20 <= inject_Z n)%Q) by (change 20%Q with (inject_Z 20); rewrite <- Zle_Qle; lia).
    assert (Nu : (inject_Z n <= 100)%Q) by (change 100%Q with (inject_Z 100); rewrite <- Zle_Qle; lia).
    assert (P4 : (Js.pow2 4 == 16)%Q) by reflexivity.
    assert (P50 : (Js.pow2 (-50) == 1 # 1125899906842624)%Q) by reflexivity.
    destruct (round64_error v 4 ltac:(unfold v; lra) ltac:(rewrite P4; unfold v; lra) ltac:(lia))
      as [E1 E2].
    change (Js.pow2 (4 - 54)) with (Js.pow2 (-50)) in E1, E2. rewrite P50 in E1, E2.
    fold p in E1, E2. unfold v in E1, E2.
    unfold Js.max, Js.min.
    destruct (Qle_bool 10 p) eqn:H10.
    + apply Qle_bool_iff in H10. change (Qle_bool 2 10) with true. cbv iota. split; lra.
    + apply Qle_bool_false in H10.
      destruct (Qle_bool 2 p) eqn:H2; [apply Qle_bool_iff in H2|apply Qle_bool_false in H2];
        split; lra.
Qed.

Lemma tenthsOf_app (ls ls' : list string) :
  tenthsOf (ls ++ ls') = tenthsOf ls + tenthsOf ls'.
Proof. induction ls as [|l ls IH]; cbn; [reflexivity|]. rewrite IH. lia. Qed.

Lemma tenthsOf_bounds (ls : list string) :
  0 ≤ tenthsOf ls ≤ 100 * Z.of_nat (length ls).
Proof.
  induction ls as [|l ls IH]; cbn [tenthsOf length]; [lia|].
  assert (20 ≤ tenths l ≤ 100) by (unfold tenths; lia). lia.
Qed.

Lemma toFixed2_isDouble (x : Q) : Js.isDouble (Js.toFixed2 x).
Proof. unfold Js.toFixed2. destruct (Qle_bool 0 x); apply round64_isDouble. Qed.

Variable gen : nat → string.

Lemma txtLine_lineSentence (ss : list Sentence) (ct : Q) (l : string) :
  txtLine gen (ss, ct) l =
    (ss ++ [lineSentence gen (length ss) ct l],
     endTime (lineSentence gen (length ss) ct l)).
Proof.
  unfold txtLine, lineSentence.
  destruct (markerMatch (Str.trim l)) as [[[m1 m2] m3]|]; reflexivity.
Qed.

(** The loop, one line after the other. *)
Lemma fold_txtLine (ls : list string) :
  ∀ (ss : list Sentence) (ct : Q),
  ∃ res,
    (fold_left (txtLine gen) ls (ss, ct)).1 = ss ++ res
    ∧ length res = length ls
    ∧ ∀ i l, ls !! i = Some l →
        res !! i = Some (lineSentence gen (length ss + i) (endBefore ct res i) l).
Proof.
  induction ls as [|l ls IH]; intros ss ct.
  - exists []. cbn. rewrite app_nil_r. repeat split. intros i l Hi. discriminate.
  - cbn [fold_left]. rewrite txtLine_lineSentence.
    set (s0 := lineSentence gen (length ss) ct l).
    destruct (IH (ss ++ [s0]) (endTime s0)) as (res & Hres & Hlen & Hat).
    exists (s0 :: res). split; [|split].
    + rewrite Hres, <- app_assoc. reflexivity.
    + cbn. rewrite Hlen. reflexivity.
    + intros [|i] l' Hi.
      * cbn in Hi. injection Hi as <-. cbn. rewrite Nat.add_0_r. reflexivity.
      * cbn in Hi. change ((s0 :: res) !! S i) with (res !! i).
        rewrite (Hat i l' Hi).
        rewrite length_app. cbn [length].
        replace (length ss + 1 + i)%nat with (length ss + S i)%nat by lia.
        f_equal. f_equal. destruct i as [|i]; reflexivity.
Qed.

(** [parseTxtContent] pushes one sentence for each line it keeps. *)
Lemma parseTxtContent_lookup (content : string) (i : nat) (l : string) :
  contentLines content !! i = Some l →
  parseTxtContent gen content !! i =
    Some (lineSentence gen i (endBefore 0 (parseTxtContent gen content) i) l).
Proof.
  intros Hi. unfold parseTxtContent.
  destruct (fold_txtLine (contentLines content) [] 0%Q) as (res & Hres & _ & Hat).
  rewrite Hres. cbn [app]. exact (Hat i l Hi).
Qed.

Lemma parseTxtContent_length (content : string) :
  length (parseTxtContent gen content) = length (contentLines content).
Proof.
  unfold parseTxtContent.
  destruct (fold_txtLine (contentLines content) [] 0%Q) as (res & Hres & Hlen & _).
  rewrite Hres. exact Hlen.
Qed.

Lemma lineSentence_free (n : nat) (ct : Q) (l : string) :
  markerMatch (Str.trim l) = None →
  lineSentence gen n ct l =
    mkSentence (gen n) (Str.trim l) (Js.toFixed2 ct)
               (Js.toFixed2 (Js.add ct (duration (Str.trim l)))) 1.
Proof. intros Hm. unfold lineSentence. rewrite Hm. reflexivity. Qed.

Lemma lineSentence_end_nonneg (n : nat) (ct : Q) (l : string) :
  (0 <= ct)%Q → (0 <= endTime (lineSentence gen n ct l))%Q.
Proof.
  intros Hct. unfold lineSentence.
  destruct (markerMatch (Str.trim l)) as [[[m1 m2] m3]|]; cbn.
  - apply parseFloat_nonneg.
  - apply toFixed2_nonneg, add_nonneg; [exact Hct|].
    destruct (duration_bounds (Str.trim l)) as [H2 _]. lra.
Qed.

(** [currentTime] never goes below 0. *)
Lemma endBefore_nonneg (content : string) (i : nat) :
  (0 <= endBefore 0 (parseTxtContent gen content) i)%Q.
Proof.
  induction i as [|i IH]; [discriminate|].
  cbn [endBefore].
  destruct (parseTxtContent gen content !! i) as [s|] eqn:Hs; [|discriminate].
  assert (Hlt : (i < length (contentLines content))%nat).
  { rewrite <- parseTxtContent_length. eapply lookup_lt_Some, Hs. }
  destruct (lookup_lt_is_Some_2 _ _ Hlt) as [l Hl].
  rewrite (parseTxtContent_lookup content i l Hl) in Hs. injection Hs as <-.
  apply lineSentence_end_nonneg, IH.
Qed.


Lemma loopCount_lineSentence (n : nat) (ct : Q) (l : string) :
  loopCount (lineSentence gen n ct l) = 1.
Proof.
  unfold lineSentence.
  destruct (markerMatch (Str.trim l)) as [[[m1 m2] m3]|]; reflexivity.
Qed.

Lemma loopCount_parseTxtContent (content : string) :
  Forall (λ s, loopCount s = 1) (parseTxtContent gen content).
Proof.
  apply Forall_lookup. intros i s Hs.
  assert (Hlt : (i < length (contentLines content))%nat).
  { rewrite <- parseTxtContent_length. eapply lookup_lt_Some, Hs. }
  destruct (lookup_lt_is_Some_2 _ _ Hlt) as [l Hl].
  rewrite (parseTxtContent_lookup content i l Hl) in Hs. injection Hs as <-.
  apply loopCount_lineSentence.
Qed.

Lemma loopCount_cues (l : list (string * string * string)) :
  Forall (λ s, loopCount s = 1) (imap (cueSentence gen) l).
Proof.
  apply Forall_lookup. intros i s Hs. rewrite list_lookup_imap in Hs.
  destruct (l !! i) as [[[t1 t2] txt]|]; [|discriminate].
  cbn in Hs. injection Hs as <-. reflexivity.
Qed.

(** C10: every sentence of subtitle import, of plain-text import (marked
    or free lines) and of the transcription import has [loopCount] 1; the
    transcription import replaces the sentences of the page by such
    sentences, or finds no cue and leaves them. *)
Theorem C10_imports_set_loopCount_1 (content : string) :
  Forall (λ s, loopCount s = 1) (srtSentences gen content)
  ∧ Forall (λ s, loopCount s = 1) (parseTxtContent gen content)
  ∧ (∀ isSrt, Forall (λ s, loopCount s = 1) (processContent gen content isSrt))
  ∧ Forall (λ s, loopCount s = 1) (imap (cueSentence gen) (cues 0 content))
  ∧ (∀ sentences,
       handleTranscribe gen sentences content = imap (cueSentence gen) (cues 0 content)
       ∨ (cues 0 content = [] ∧ handleTranscribe gen sentences content = sentences)).
Proof.
  split; [apply loopCount_cues|].
  split; [apply loopCount_parseTxtContent|].
  split; [intros [|]; [apply loopCount_cues|apply loopCount_parseTxtContent]|].
  split; [apply loopCount_cues|].
  intros sentences. unfold handleTranscribe.
  destruct (cues 0 content) as [|c cs]; [right|left]; split; reflexivity.
Qed.

(** The time so far after free lines only: the tenths of these lines,
    as the nearest binary64 number of seconds. *)
Lemma endBefore_free_lines (content : string) (i : nat) :
  (i ≤ length (contentLines content))%nat →
  Forall (λ l, markerMatch (Str.trim l) = None) (take i (contentLines content)) →
  Z.of_nat i < 10 ^ 12 →
  endBefore 0 (parseTxtContent gen content) i
  = Js.round64 (tenthsOf (take i (contentLines content)) # 10).
Proof.
  induction i as [|i IH]; intros Hlen Hfree Hi.
  - cbn. vm_compute. reflexivity.
  - destruct (lookup_lt_is_Some_2 (contentLines content) i ltac:(lia)) as [l Hl].
    rewrite (take_S_r _ _ _ Hl) in Hfree |- *.
    apply Forall_app in Hfree as [Hfree Hone].
    rewrite Forall_singleton in Hone.
    rewrite tenthsOf_app. cbn [tenthsOf]. rewrite Z.add_0_r.
    specialize (IH ltac:(lia) Hfree ltac:(lia)).
    cbn [endBefore]. rewrite (parseTxtContent_lookup content i l Hl), IH.
    rewrite (lineSentence_free _ _ _ Hone). cbn [endTime].
    pose proof (tenthsOf_bounds (take i (contentLines content))) as [T0 T1].
    rewrite length_take in T1.
    set (T := tenthsOf (take i (contentLines content))) in *.
    destruct (duration_tenths l) as (Ht & D1 & D2).
    rewrite (round64_comp (T # 10) ((10 * T) # 100)) by (unfold Qeq; cbn; lia).
    rewrite (toFixed2_sum (10 * T) (tenths l) _ ltac:(lia)); [| |exact Ht|exact D1|exact D2].
    + apply round64_comp. unfold Qeq. cbn. lia.
    + assert (P44 : (Js.pow2 44 == 17592186044416)%Q) by reflexivity.
      rewrite P44. unfold Qlt. cbn [Qnum Qden]. lia.
Qed.

(** C6, amended: the sentence of a free line starts where the time so
    far stands (a time below [2^1023]), rounded to two decimals (at 0
    for the first line); when
    the time so far is a whole number of hundredths [k/100], as it is
    after a free line, the sentence starts there and ends [tenths] tenths
    of a second later, 0.1 seconds for each character of the trimmed line
    clamped between 2 and 10 seconds, each time as the nearest binary64
    number; after free lines only these are the tenths of the lines
    before, taken together; and when the next line is free too, its
    sentence starts exactly at the end of this one. *)
Theorem C6_free_lines_chain (content : string) (i : nat) (l : string) :
  contentLines content !! i = Some l →
  markerMatch (Str.trim l) = None →
  ∃ s, parseTxtContent gen content !! i = Some s
    ∧ ((endBefore 0 (parseTxtContent gen content) i < Js.pow2 1023)%Q →
       startTime s = Js.toFixed2 (endBefore 0 (parseTxtContent gen content) i))
    ∧ (i = 0%nat → startTime s = 0%Q)
    ∧ 20 ≤ tenths l ≤ 100
    ∧ (∀ k, 0 ≤ k → (k # 100 < Js.pow2 44)%Q →
         endBefore 0 (parseTxtContent gen content) i = Js.round64 (k # 100) →
         startTime s = Js.round64 (k # 100)
         ∧ endTime s = Js.round64 ((k + 10 * tenths l) # 100))
    ∧ (Forall (λ l', markerMatch (Str.trim l') = None) (take i (contentLines content)) →
       Z.of_nat i < 10 ^ 12 →
       startTime s = Js.round64 (tenthsOf (take i (contentLines content)) # 10)
       ∧ endTime s = Js.round64 ((tenthsOf (take i (contentLines content)) + tenths l) # 10))
    ∧ (∀ l', contentLines content !! S i = Some l' →
             markerMatch (Str.trim l') = None →
             ∃ s', parseTxtContent gen content !! S i = Some s'
                   ∧ startTime s' = endTime s).
Proof.
  intros Hl Hm.
  pose proof (parseTxtContent_lookup content i l Hl) as Hs.
  pose proof (endBefore_nonneg content i) as Hct.
  set (out := parseTxtContent gen content) in *.
  set (ct := endBefore 0 out i) in *.
  destruct (duration_tenths l) as (Ht & D1 & D2).
  destruct (duration_bounds (Str.trim l)) as [B2 B10].
  assert (Hhund : ∀ k, 0 ≤ k → (k # 100 < Js.pow2 44)%Q → ct = Js.round64 (k # 100) →
            Js.toFixed2 ct = Js.round64 (k # 100)
            ∧ Js.toFixed2 (Js.add ct (duration (Str.trim l)))
              = Js.round64 ((k + 10 * tenths l) # 100)).
  { intros k Hk Hlt ->. split.
    - apply toFixed2_rounded; [exact Hk|].
      eapply Qlt_trans; [exact Hlt|]. apply pow2_lt. lia.
    - apply toFixed2_sum; assumption. }
  exists (lineSentence gen i ct l). split; [exact Hs|].
  rewrite (lineSentence_free _ _ _ Hm). cbn [startTime endTime].
  split; [reflexivity|].
  split.
  { intros ->. vm_compute. reflexivity. }
  split; [exact Ht|].
  split; [exact Hhund|].
  split.
  { intros Hfree Hi.
    assert (Hlen : (i ≤ length (contentLines content))%nat)
      by (apply Nat.lt_le_incl; eapply lookup_lt_Some, Hl).
    pose proof (endBefore_free_lines content i Hlen Hfree Hi) as Hpre.
    fold out in Hpre. fold ct in Hpre.
    pose proof (tenthsOf_bounds (take i (contentLines content))) as [T0 T1].
    rewrite length_take in T1.
    set (T := tenthsOf (take i (contentLines content))) in *.
    rewrite (round64_comp (T # 10) ((10 * T) # 100)) in Hpre by (unfold Qeq; cbn; lia).
    destruct (Hhund (10 * T) ltac:(lia)) as [H1 H2]; [|exact Hpre|].
    { assert (P44 : (Js.pow2 44 == 17592186044416)%Q) by reflexivity.
      rewrite P44. unfold Qlt. cbn [Qnum Qden]. lia. }
    rewrite H1, H2. split; apply round64_comp; unfold Qeq; cbn; lia. }
  intros l' Hl' Hm'.
  pose proof (parseTxtContent_lookup content (S i) l' Hl') as Hs'.
  fold out in Hs'. cbn [endBefore] in Hs'. rewrite Hs in Hs'.
  eexists. split; [exact Hs'|].
  rewrite (lineSentence_free _ _ _ Hm), (lineSentence_free _ _ _ Hm'). cbn [startTime endTime].
  apply toFixed2_idem; [apply round64_isDouble|].
  apply add_nonneg; [exact Hct|]. lra.
Qed.

End ImportFacts.

(** C6 fails after a marked line.  When its end has three decimals, the
    free line that follows starts at that end rounded to two; and the free
    line need not last its 2 seconds: after an end of 0.005 it starts at
    0.01 and ends at 2, since the sum of 0.005 and 2 in binary64 is below
    2.005. *)
Lemma C6_free_line_after_marked_line :
  (∃ s0 s1,
    Importer.parseTxtContent Sample.ids Sample.marked_then_free !! 0%nat = Some s0
    ∧ Importer.parseTxtContent Sample.ids Sample.marked_then_free !! 1%nat = Some s1
    ∧ Importer.contentLines Sample.marked_then_free !! 1%nat = Some "hello"%string
    ∧ Importer.markerMatch (Str.trim "hello") = None
    ∧ endTime s0 = Js.round64 (1234 # 1000)
    ∧ startTime s1 = Js.round64 (123 # 100)
    ∧ ¬ (startTime s1 == endTime s0)%Q)
  ∧ (∃ s0 s1,
    Importer.parseTxtContent Sample.ids Sample.half_hundredth !! 0%nat = Some s0
    ∧ Importer.parseTxtContent Sample.ids Sample.half_hundredth !! 1%nat = Some s1
    ∧ Importer.contentLines Sample.half_hundredth !! 1%nat = Some "b"%string
    ∧ Importer.markerMatch (Str.trim "b") = None
    ∧ endTime s0 = Js.round64 (5 # 1000)
    ∧ startTime s1 = Js.round64 (1 # 100)
    ∧ endTime s1 = 2%Q
    ∧ Importer.tenths "b" = 20
    ∧ (endTime s1 - startTime s1 < 2)%Q).
Proof.
  split.
  - eexists. eexists.
    split; [vm_compute; reflexivity|].
    split; [vm_compute; reflexivity|].
    repeat split. intros H. vm_compute in H. discriminate H.
  - eexists. eexists.
    split; [vm_compute; reflexivity|].
    split; [vm_compute; reflexivity|].
    repeat split.
Qed.

Lemma C6_witness :
  ∃ s, Importer.parseTxtContent Sample.ids Sample.two_free !! 0%nat = Some s
       ∧ startTime s = 0%Q ∧ endTime s = 2%Q.
Proof.
  destruct (C6_free_lines_chain Sample.ids Sample.two_free 0 "hello" eq_refl eq_refl)
    as (s & Hs & _ & _ & _ & _ & Hd & _).
  exists s. split; [exact Hs|].
  exact (Hd (Forall_nil_2 _) ltac:(reflexivity)).
Defined.

(** * More properties *)

(** ** Indices *)

Section IndexFacts.

Import Engine.

Lemma findIndex_none {A} (f : A → bool) (l : list A) :
  (∀ x, x ∈ l → f x = false) → findIndex f l = -1.
Proof.
  induction l as [|y l IH]; intros H; [reflexivity|].
  cbn [findIndex]. rewrite (H y ltac:(left)).
  rewrite IH by (intros x Hx; apply H; right; exact Hx). reflexivity.
Qed.

Lemma findIndex_first {A} (f : A → bool) (l : list A) (i : nat) (x : A) :
  l !! i = Some x → f x = true →
  (∀ j y, (j < i)%nat → l !! j = Some y → f y = false) →
  findIndex f l = Z.of_nat i.
Proof.
  revert i. induction l as [|y l IH]; intros i Hi Hx Hbefore; [discriminate|].
  cbn [findIndex]. destruct i as [|i].
  - cbn in Hi. injection Hi as ->. rewrite Hx. reflexivity.
  - rewrite (Hbefore 0%nat y ltac:(lia) eq_refl).
    rewrite (IH i Hi Hx) by (intros j z Hj Hz; apply (Hbefore (S j) z); [lia|exact Hz]).
    destruct (Z.ltb_spec (Z.of_nat i) 0); lia.
Qed.

Lemma findIndex_found {A} (f : A → bool) (l : list A) :
  0 ≤ findIndex f l →
  ∃ x, l !! Z.to_nat (findIndex f l) = Some x ∧ f x = true
       ∧ ∀ j y, (j < Z.to_nat (findIndex f l))%nat → l !! j = Some y → f y = false.
Proof.
  induction l as [|y l IH]; cbn [findIndex]; [lia|].
  destruct (f y) eqn:Hy.
  - intros _. exists y. repeat split; [exact Hy|]. intros j z Hj. cbn in Hj. lia.
  - destruct (Z.ltb_spec (findIndex f l) 0) as [Hneg|Hpos]; [lia|]. intros _.
    destruct (IH Hpos) as (x & Hx & Hfx & Hbefore).
    exists x. replace (Z.to_nat (findIndex f l + 1)) with (S (Z.to_nat (findIndex f l))) by lia.
    repeat split; [exact Hx|exact Hfx|].
    intros [|j] z Hj Hz.
    + cbn in Hz. injection Hz as <-. exact Hy.
    + apply (Hbefore j z); [lia|exact Hz].
Qed.

Lemma findIndex_missing {A} (f : A → bool) (l : list A) :
  findIndex f l < 0 → ∀ x, x ∈ l → f x = false.
Proof.
  induction l as [|y l IH]; cbn [findIndex]; intros H x Hx.
  - inversion Hx.
  - destruct (f y) eqn:Hy; [lia|].
    destruct (Z.ltb_spec (findIndex f l) 0) as [Hneg|Hpos]; [|lia].
    apply elem_of_cons in Hx as [->|Hx]; [exact Hy|exact (IH Hneg x Hx)].
Qed.

End IndexFacts.

(** ** The stores *)

Section ServiceFacts.

Local Abbreviation sentenceId := id (only parsing).

Import Storage.

Lemma eqb_id_false (a b : string) : a ≠ b → String.eqb a b = false.
Proof. intros H. apply String.eqb_neq, H. Qed.

(** On a store that holds the project, [updateProjectInStorage] and
    [moveProjectToGroup] write the collection with one record replaced. *)
Lemma updateProject_saves
    (now : Z) (project : Project) (w : World) (i : nat) (p : Project) :
  writable (localStorage w) = true →
  getProjects w !! i = Some p → id p = id project →
  (∀ j q, (j < i)%nat → getProjects w !! j = Some q → id q ≠ id project) →
  Service.updateProjectInStorage now project w
  = saveProjects (<[i := Service.withLastAccessedAt now project]> (getProjects w)) w.
Proof.
  intros Hw Hi Hid Hbefore. unfold Service.updateProjectInStorage.
  rewrite (findIndex_first _ _ i p Hi) ;
    [|rewrite Hid; apply String.eqb_refl
     |intros j q Hj Hq; apply eqb_id_false, (Hbefore j q Hj Hq)].
  replace (negb (Z.of_nat i =? -1)) with true
    by (symmetry; apply negb_true_iff, Z.eqb_neq; lia).
  rewrite Nat2Z.id. reflexivity.
Qed.

Lemma moveProject_saves
    (projectId : string) (g : option string) (w : World) (i : nat) (p : Project) :
  writable (localStorage w) = true →
  getProjects w !! i = Some p → id p = projectId →
  (∀ j q, (j < i)%nat → getProjects w !! j = Some q → id q ≠ projectId) →
  Service.moveProjectToGroup projectId g w
  = saveProjects (<[i := withGroupId g p]> (getProjects w)) w.
Proof.
  intros Hw Hi Hid Hbefore. unfold Service.moveProjectToGroup.
  rewrite (findIndex_first _ _ i p Hi) ;
    [|rewrite Hid; apply String.eqb_refl
     |intros j q Hj Hq; apply eqb_id_false, (Hbefore j q Hj Hq)].
  replace (negb (Z.of_nat i =? -1)) with true
    by (symmetry; apply negb_true_iff, Z.eqb_neq; lia).
  rewrite Nat2Z.id, Hi. reflexivity.
Qed.

Lemma writable_saveProjects (ps : list Project) (w : World) :
  writable (localStorage w) = true →
  writable (localStorage (saveProjects ps w)) = true.
Proof. intros Hw. unfold saveProjects. rewrite Hw. reflexivity. Qed.

(** What [updateProjectInStorage] does to a writable store that holds
    the project. *)
Lemma updateProject_at
    (now : Z) (project : Project) (w : World) (i : nat) (p : Project) :
  writable (localStorage w) = true →
  getProjects w !! i = Some p → id p = id project →
  (∀ j q, (j < i)%nat → getProjects w !! j = Some q → id q ≠ id project) →
  let w' := Service.updateProjectInStorage now project w in
  getProjects w' = <[i := Service.withLastAccessedAt now project]> (getProjects w)
  ∧ getProjects w' !! i = Some (Service.withLastAccessedAt now project)
  ∧ length (getProjects w') = length (getProjects w)
  ∧ (∀ j, j ≠ i → getProjects w' !! j = getProjects w !! j)
  ∧ getGroups w' = getGroups w
  ∧ mediaDB w' = mediaDB w.
Proof.
  intros Hw Hi Hid Hbefore. cbv zeta. unfold Service.updateProjectInStorage.
  rewrite (findIndex_first _ _ i p Hi) ;
    [|rewrite Hid; apply String.eqb_refl
     |intros j q Hj Hq; apply eqb_id_false, (Hbefore j q Hj Hq)].
  replace (negb (Z.of_nat i =? -1)) with true
    by (symmetry; apply negb_true_iff, Z.eqb_neq; lia).
  rewrite Nat2Z.id, getProjects_saveProjects, getGroups_saveProjects,
    mediaDB_saveProjects by exact Hw.
  apply lookup_lt_Some in Hi as Hlt.
  repeat split.
  - apply list_lookup_insert_eq, Hlt.
  - apply length_insert.
  - intros j Hj. apply list_lookup_insert_ne. congruence.
Qed.

(** X15: [updateProjectInStorage] on a store that holds the projects
    and takes the write: when no stored project has the identifier,
    nothing changes; otherwise the first project with that identifier is
    replaced by a record with [lastAccessedAt] set to now and every
    other field as in the record given, and every other project, the
    groups and the media store are as before. *)
Theorem X15_updateProject_replaces_first_match
    (now : Z) (project : Project) (w : World) (ps : list Project) :
  writable (localStorage w) = true →
  lingoloop_data (localStorage w) = Json ps →
  ((∀ p, p ∈ ps → id p ≠ id project) →
     Service.updateProjectInStorage now project w = w)
  ∧ (∀ i p,
       ps !! i = Some p → id p = id project →
       (∀ j q, (j < i)%nat → ps !! j = Some q → id q ≠ id project) →
       let w' := Service.updateProjectInStorage now project w in
       ∃ ps' saved,
         lingoloop_data (localStorage w') = Json ps'
         ∧ ps' !! i = Some saved
         ∧ lastAccessedAt saved = now
         ∧ sameButLastAccessedAt project saved
         ∧ length ps' = length ps
         ∧ (∀ j, j ≠ i → ps' !! j = ps !! j)
         ∧ lingoloop_groups (localStorage w') = lingoloop_groups (localStorage w)
         ∧ mediaDB w' = mediaDB w).
Proof.
  intros Hw Hps. pose proof (getProjects_stored w ps Hps) as Hget. split.
  - intros Hnone. unfold Service.updateProjectInStorage. rewrite Hget.
    rewrite findIndex_none; [reflexivity|].
    intros p Hp. apply eqb_id_false, Hnone, Hp.
  - intros i p Hi Hid Hbefore. cbv zeta.
    rewrite (updateProject_saves now project w i p Hw
               ltac:(rewrite Hget; exact Hi) Hid
               ltac:(rewrite Hget; exact Hbefore)), Hget.
    destruct (stored_saveProjects (<[i := Service.withLastAccessedAt now project]> ps) w Hw)
      as (H1 & H2 & H3).
    apply lookup_lt_Some in Hi as Hlt.
    exists (<[i := Service.withLastAccessedAt now project]> ps),
           (Service.withLastAccessedAt now project).
    split; [exact H1|].
    split; [apply list_lookup_insert_eq, Hlt|].
    split; [reflexivity|].
    split; [repeat split|].
    split; [apply length_insert|].
    split; [intros j Hj; apply list_lookup_insert_ne; congruence|].
    split; [exact H2|exact H3].
Qed.

(** X16: [moveProjectToGroup] on a store that holds the projects and
    takes the write: when no stored project has the identifier, nothing
    changes; otherwise the first project with that identifier gets the
    group given (none: the root) and keeps its other fields, and every
    other project, the groups and the media store are as before. *)
Theorem X16_moveProject_changes_one_groupId
    (projectId : string) (g : option string) (w : World) (ps : list Project) :
  writable (localStorage w) = true →
  lingoloop_data (localStorage w) = Json ps →
  ((∀ p, p ∈ ps → id p ≠ projectId) →
     Service.moveProjectToGroup projectId g w = w)
  ∧ (∀ i p,
       ps !! i = Some p → id p = projectId →
       (∀ j q, (j < i)%nat → ps !! j = Some q → id q ≠ projectId) →
       let w' := Service.moveProjectToGroup projectId g w in
       ∃ ps' moved,
         lingoloop_data (localStorage w') = Json ps'
         ∧ ps' !! i = Some moved
         ∧ groupId moved = g
         ∧ sameButGroupId p moved
         ∧ length ps' = length ps
         ∧ (∀ j, j ≠ i → ps' !! j = ps !! j)
         ∧ lingoloop_groups (localStorage w') = lingoloop_groups (localStorage w)
         ∧ mediaDB w' = mediaDB w).
Proof.
  intros Hw Hps. pose proof (getProjects_stored w ps Hps) as Hget. split.
  - intros Hnone. unfold Service.moveProjectToGroup. rewrite Hget.
    rewrite findIndex_none; [reflexivity|].
    intros p Hp. apply eqb_id_false, Hnone, Hp.
  - intros i p Hi Hid Hbefore. cbv zeta.
    rewrite (moveProject_saves projectId g w i p Hw
               ltac:(rewrite Hget; exact Hi) Hid
               ltac:(rewrite Hget; exact Hbefore)), Hget.
    destruct (stored_saveProjects (<[i := withGroupId g p]> ps) w Hw) as (H1 & H2 & H3).
    apply lookup_lt_Some in Hi as Hlt.
    exists (<[i := withGroupId g p]> ps), (withGroupId g p).
    split; [exact H1|].
    split; [apply list_lookup_insert_eq, Hlt|].
    split; [reflexivity|].
    split; [repeat split|].
    split; [apply length_insert|].
    split; [intros j Hj; apply list_lookup_insert_ne; congruence|].
    split; [exact H2|exact H3].
Qed.



(** X17: a project moved into a group comes back to the root when the
    group is deleted: after [moveProjectToGroup] and [deleteGroup] of the
    same group, in a store that holds the two collections and takes the
    writes, the record at the old position has no group and every other
    field of the project, and no project is lost. *)
Theorem X17_move_then_deleteGroup
    (g : string) (i : nat) (p : Project) (w : World)
    (ps : list Project) (gs : list Group.t) :
  writable (localStorage w) = true →
  lingoloop_data (localStorage w) = Json ps →
  lingoloop_groups (localStorage w) = Json gs →
  ps !! i = Some p →
  (∀ j q, (j < i)%nat → ps !! j = Some q → id q ≠ id p) →
  ∃ w' ps' p',
    deleteGroup g (Service.moveProjectToGroup (id p) (Some g) w) = (Returns, w')
    ∧ lingoloop_data (localStorage w') = Json ps'
    ∧ ps' !! i = Some p'
    ∧ groupId p' = None
    ∧ sameButGroupId p p'
    ∧ length ps' = length ps.
Proof.
  intros Hw Hps Hgs Hi Hbefore. pose proof (getProjects_stored w ps Hps) as Hget.
  rewrite (moveProject_saves (id p) (Some g) w i p Hw
             ltac:(rewrite Hget; exact Hi) eq_refl
             ltac:(rewrite Hget; exact Hbefore)), Hget.
  destruct (stored_saveProjects (<[i := withGroupId (Some g) p]> ps) w Hw) as (H1 & H2 & _).
  rewrite Hgs in H2.
  destruct (deleteGroup_stored g _ _ _ (writable_saveProjects _ w Hw) H1 H2)
    as (w' & Hd & _ & Hp' & _).
  apply lookup_lt_Some in Hi as Hlt.
  exists w'. eexists. exists (withGroupId None (withGroupId (Some g) p)).
  split; [exact Hd|]. split; [exact Hp'|].
  split.
  { rewrite list_lookup_fmap, list_lookup_insert_eq by exact Hlt. cbn.
    destruct (decide _) as [_|Hne]; [reflexivity|]. exfalso. apply Hne. reflexivity. }
  split; [reflexivity|]. split; [repeat split|].
  rewrite length_map. apply length_insert.
Qed.


Lemma clear_unreferenced (g : string) (ps : list Project) :
  (∀ p, p ∈ ps → groupId p ≠ Some g) →
  map (λ p, if decide (groupId p = Some g) then withGroupId None p else p) ps = ps.
Proof.
  induction ps as [|p ps IH]; intros H; [reflexivity|].
  cbn [map]. destruct (decide _) as [Heq|_].
  - exfalso. exact (H p (list_elem_of_here _ _) Heq).
  - f_equal. apply IH. intros q Hq. apply H. right. exact Hq.
Qed.

Lemma filter_other_groups (g : string) (xs : list Group.t) :
  (∀ x, x ∈ xs → Group.id x ≠ g) →
  filter (λ x, Group.id x ≠ g) xs = xs.
Proof.
  induction xs as [|x xs IH]; intros H; [reflexivity|].
  rewrite filter_cons. destruct (decide _) as [_|Hne].
  - f_equal. apply IH. intros q Hq. apply H. right. exact Hq.
  - exfalso. apply Hne, H. left.
Qed.

Lemma filteredProjects_unreferenced (g : string) (ps : list Project) :
  (∀ p, p ∈ ps → groupId p ≠ Some g) →
  HomePage.filteredProjects (Some g) ps = [].
Proof.
  unfold HomePage.filteredProjects.
  induction ps as [|p ps IH]; intros H; [reflexivity|].
  rewrite filter_cons. destruct (decide _) as [Heq|_].
  - exfalso. exact (H p (list_elem_of_here _ _) Heq).
  - apply IH. intros q Hq. apply H. right. exact Hq.
Qed.

(** X18: after [deleteGroup] on a writable store no project refers to
    the group, no group has its identifier, the view of that group on the
    home page is empty, and deleting it once more changes neither the
    projects nor the groups. *)
Theorem X18_deleteGroup_leaves_no_reference (g : string) (w : World) :
  writable (localStorage w) = true →
  ∃ w', deleteGroup g w = (Returns, w')
    ∧ (∀ p, p ∈ getProjects w' → groupId p ≠ Some g)
    ∧ (∀ x, x ∈ getGroups w' → Group.id x ≠ g)
    ∧ HomePage.filteredProjects (Some g) (getProjects w') = []
    ∧ ∃ w'', deleteGroup g w' = (Returns, w'')
        ∧ getProjects w'' = getProjects w' ∧ getGroups w'' = getGroups w'.
Proof.
  intros Hw.
  destruct (deleteGroup_returns g w Hw) as (w' & Hd & Hg & Hp & Hm).
  assert (Hw' : writable (localStorage w') = true).
  { unfold deleteGroup, saveGroups in Hd. rewrite Hw in Hd.
    injection Hd as <-. apply writable_saveProjects. reflexivity. }
  assert (Hnoref : ∀ p, p ∈ getProjects w' → groupId p ≠ Some g).
  { intros p Hin. rewrite Hp in Hin. apply list_elem_of_fmap in Hin as (q & -> & _).
    destruct (decide _) as [_|Hne]; [discriminate|exact Hne]. }
  assert (Hnogroup : ∀ x, x ∈ getGroups w' → Group.id x ≠ g).
  { intros x Hin. rewrite Hg in Hin. apply list_elem_of_filter in Hin. tauto. }
  exists w'. split; [exact Hd|]. split; [exact Hnoref|]. split; [exact Hnogroup|].
  split; [apply filteredProjects_unreferenced, Hnoref|].
  destruct (deleteGroup_returns g w' Hw') as (w'' & Hd' & Hg' & Hp' & _).
  exists w''. split; [exact Hd'|]. split.
  - rewrite Hp'. apply clear_unreferenced, Hnoref.
  - rewrite Hg'. apply filter_other_groups, Hnogroup.
Qed.

(** X19: creating a group with a fresh identifier and deleting it again
    gives back the groups and the projects as they were. *)
Theorem X19_createGroup_then_deleteGroup
    (newId : string) (now : Z) (name : string) (w : World) :
  writable (localStorage w) = true →
  (∀ x, x ∈ getGroups w → Group.id x ≠ newId) →
  (∀ p, p ∈ getProjects w → groupId p ≠ Some newId) →
  ∃ w1 w2,
    Service.createGroup newId now name w = (Returns, w1)
    ∧ getGroups w1 = getGroups w ++ [Group.mk newId name now]
    ∧ getProjects w1 = getProjects w
    ∧ deleteGroup newId w1 = (Returns, w2)
    ∧ getGroups w2 = getGroups w
    ∧ getProjects w2 = getProjects w.
Proof.
  intros Hw Hfresh Hnoref.
  set (w1 := mkWorld (mkLocalStorage (lingoloop_data (localStorage w))
                        (Json (getGroups w ++ [Group.mk newId name now])) true)
                     (mediaDB w) (trace w ++ [SetItem GROUP_KEY])).
  assert (Hc : Service.createGroup newId now name w = (Returns, w1))
    by (unfold Service.createGroup, saveGroups; rewrite Hw; reflexivity).
  assert (Hg1 : getGroups w1 = getGroups w ++ [Group.mk newId name now]) by reflexivity.
  assert (Hp1 : getProjects w1 = getProjects w) by reflexivity.
  destruct (deleteGroup_returns newId w1 eq_refl) as (w2 & Hd & Hg & Hp & _).
  exists w1, w2.
  split; [exact Hc|]. split; [exact Hg1|]. split; [exact Hp1|]. split; [exact Hd|].
  rewrite Hg, Hp, Hg1, Hp1. split.
  - rewrite filter_app, filter_cons, filter_nil. cbn [Group.id].
    destruct (decide (newId ≠ newId)) as [Hne|_]; [congruence|].
    rewrite app_nil_r. apply filter_other_groups, Hfresh.
  - apply clear_unreferenced, Hnoref.
Qed.


(** X20: deleting a project touches nothing else: the files of other
    projects stay in the media store, the groups stay, every project with
    another identifier stays in the collection, the file of the project
    is gone when the transaction completes, and deleting the project
    again leaves the collection as it is. *)
Theorem X20_deleteProject_is_local (o : IdbOutcome) (pid : string) (w : World) :
  let w' := (deleteProjectFromStorage o pid w).2 in
  (∀ q, q ≠ pid → mediaDB w' !! q = mediaDB w !! q)
  ∧ (o = TxCompletes →
       Service.getMediaFromDB TxCompletes pid (mediaDB w') = (Fulfilled, None))
  ∧ getGroups w' = getGroups w
  ∧ (∀ p, p ∈ getProjects w → id p ≠ pid →
          writable (localStorage w) = true → p ∈ getProjects w')
  ∧ (writable (localStorage w) = true →
       ∀ o2, getProjects (deleteProjectFromStorage o2 pid w').2 = getProjects w').
Proof.
  cbv zeta.
  assert (Hw' : writable (localStorage w) = true →
                writable (localStorage (deleteProjectFromStorage o pid w).2) = true).
  { intros Hw. unfold deleteProjectFromStorage, deleteMediaFromDB.
    destruct o; cbn; apply writable_saveProjects, Hw. }
  split; [|split; [|split; [|split]]].
  - intros q Hq. unfold deleteProjectFromStorage, deleteMediaFromDB.
    destruct o; cbn; rewrite ?mediaDB_saveProjects; try reflexivity.
    apply lookup_delete_ne. congruence.
  - intros ->. unfold deleteProjectFromStorage, deleteMediaFromDB. cbn.
    rewrite lookup_delete_eq. reflexivity.
  - unfold deleteProjectFromStorage, deleteMediaFromDB.
    destruct o; cbn; apply getGroups_saveProjects.
  - intros p Hp Hne Hw. rewrite (deleteProject_metadata o pid w Hw).
    apply list_elem_of_filter. split; assumption.
  - intros Hw o2. rewrite (deleteProject_metadata o2 pid _ (Hw' Hw)).
    rewrite (deleteProject_metadata o pid w Hw).
    apply list_filter_filter_l. intros p Hp. exact Hp.
Qed.

(** X21: the media store gives back what was saved: after a completed
    [saveMediaToDB], [getMediaFromDB] of the same project gives the file,
    the files of other projects are untouched, a second save replaces the
    first, a save that does not complete stores nothing, and after
    [deleteMediaFromDB] the file is gone. *)
Theorem X21_media_save_then_get
    (projectId : string) (file : File) (db : gmap string File) :
  let db' := (Service.saveMediaToDB TxCompletes projectId file db).2 in
  Service.getMediaFromDB TxCompletes projectId db' = (Fulfilled, Some file)
  ∧ (∀ q, q ≠ projectId →
          Service.getMediaFromDB TxCompletes q db' =
          Service.getMediaFromDB TxCompletes q db)
  ∧ (∀ file2,
       Service.getMediaFromDB TxCompletes projectId
         (Service.saveMediaToDB TxCompletes projectId file2 db').2
       = (Fulfilled, Some file2))
  ∧ (∀ o, o ≠ TxCompletes → (Service.saveMediaToDB o projectId file db).2 = db)
  ∧ (∀ w, mediaDB w = db' →
          Service.getMediaFromDB TxCompletes projectId
            (mediaDB (deleteMediaFromDB TxCompletes projectId w).2)
          = (Fulfilled, None)).
Proof.
  cbv zeta. cbn [Service.saveMediaToDB Service.getMediaFromDB snd].
  split; [rewrite lookup_insert_eq; reflexivity|].
  split; [intros q Hq; rewrite lookup_insert_ne by congruence; reflexivity|].
  split; [intros file2; rewrite lookup_insert_eq; reflexivity|].
  split; [intros o Ho; destruct o; [reflexivity|reflexivity|congruence]|].
  intros w Hw. cbn. rewrite lookup_delete_eq. reflexivity.
Qed.

(** X22: what the page plays after [loadMedia]: a [mediaUrl] that is
    not empty always wins; without one, a project with a media name and
    nothing loaded yet gets the file that was saved for it; and when the
    store cannot be read or holds no file for the project, when something
    is loaded already, or when the project has no media name, the source
    stays as it is. *)
Theorem X22_loadMedia_source (project : Project) (db : gmap string File) :
  (∀ url o src, mediaUrl project = Some url → url ≠ EmptyString →
       PlayerPage.loadMedia o project src db = Some (PlayerPage.Remote url))
  ∧ (∀ file, Text.truthy (mediaUrl project) = false →
       mediaName project ≠ EmptyString →
       PlayerPage.loadMedia TxCompletes project None
         (Service.saveMediaToDB TxCompletes (id project) file db).2
       = Some (PlayerPage.Local file))
  ∧ (∀ o src, Text.truthy (mediaUrl project) = false →
       o ≠ TxCompletes ∨ db !! id project = None ∨ PlayerPage.hasSrc src = true
       ∨ mediaName project = EmptyString →
       PlayerPage.loadMedia o project src db = src).
Proof.
  assert (Hne : ∀ s, s ≠ EmptyString → Str.isEmpty s = false)
    by (intros [|c s] H; [congruence|reflexivity]).
  split; [|split].
  - intros url o src Hu Hurl. unfold PlayerPage.loadMedia. rewrite Hu.
    cbn [Text.truthy]. rewrite (Hne url Hurl). reflexivity.
  - intros file Hu Hn. unfold PlayerPage.loadMedia.
    cbn [Text.truthy]. rewrite (Hne _ Hn). cbn [negb andb].
    cbn [PlayerPage.hasSrc].
    cbn [negb Service.saveMediaToDB Service.getMediaFromDB snd].
    rewrite lookup_insert_eq.
    destruct (mediaUrl project) as [url|]; [|reflexivity].
    cbn [Text.truthy] in Hu |- *. rewrite Hu. reflexivity.
  - intros o src Hu Hcase. unfold PlayerPage.loadMedia.
    assert (Hstore :
      (if Text.truthy (Some (mediaName project)) && negb (PlayerPage.hasSrc src)
       then match Service.getMediaFromDB o (id project) db with
            | (Fulfilled, Some file) => Some (PlayerPage.Local file)
            | _ => src
            end
       else src) = src).
    { destruct (Text.truthy (Some (mediaName project))) eqn:Hn; [|reflexivity].
      destruct (PlayerPage.hasSrc src) eqn:Hs; [reflexivity|]. cbn [negb andb].
      destruct Hcase as [Ho|[Hdb|[Hsrc|Hname]]].
      - destruct o; [reflexivity|reflexivity|congruence].
      - destruct o; cbn; [reflexivity|reflexivity|]. rewrite Hdb. reflexivity.
      - congruence.
      - rewrite Hname in Hn. discriminate Hn. }
    rewrite Hstore.
    destruct (mediaUrl project) as [url|]; [|reflexivity].
    cbn [Text.truthy] in Hu |- *. rewrite Hu. reflexivity.
Qed.


(** The sentence that the saved index points at. *)
Lemma initialSentenceId_updatedProject
    (project : Project) (ss : list Sentence) (cur : option string)
    (ratio : Q) (fs : Z) (t : Q) :
  let p' := PlayerPage.updatedProject project ss cur ratio fs t in
  (∀ c s, cur = Some c → s ∈ ss → sentenceId s = c →
          PlayerPage.initialSentenceId p' = Some c)
  ∧ ((∀ s, s ∈ ss → Engine.hasId cur s = false) →
          PlayerPage.initialSentenceId p' = None).
Proof.
  cbv zeta. unfold PlayerPage.initialSentenceId, PlayerPage.updatedProject.
  cbn [lastActiveIndex sentences]. split.
  - intros c s -> Hin Hid.
    destruct (Z.leb_spec 0 (Engine.findIndex (Engine.hasId (Some c)) ss)) as [Hge|Hlt].
    + destruct (findIndex_found _ _ Hge) as (x & Hx & Hfx & _).
      rewrite Hx. cbn [Engine.hasId] in Hfx. apply String.eqb_eq in Hfx.
      rewrite Hfx. reflexivity.
    + pose proof (findIndex_missing _ _ Hlt s Hin) as Hf.
      cbn [Engine.hasId] in Hf. rewrite Hid, String.eqb_refl in Hf. discriminate Hf.
  - intros Hnone. rewrite (findIndex_none _ _ Hnone). reflexivity.
Qed.

(** X23: the session of a page survives a reload: after the persistence
    effect on a writable store that holds the project, the stored record
    has the sentences, the split ratio, the font size and the position of
    the page and the time of the write, and the sentence that a page
    opened on it selects first is the one that was selected (none when
    the selected identifier is not in the list). *)
Theorem X23_session_survives_reload
    (now : Z) (project : Project) (ss : list Sentence) (cur : option string)
    (ratio : Q) (fs : Z) (t : Q) (w : World) (i : nat) (p0 : Project) :
  writable (localStorage w) = true →
  getProjects w !! i = Some p0 → id p0 = id project →
  (∀ j q, (j < i)%nat → getProjects w !! j = Some q → id q ≠ id project) →
  ∃ saved,
    getProjects (PlayerPage.persistenceSync now project ss cur ratio fs t w) !! i
      = Some saved
    ∧ id saved = id project
    ∧ sentences saved = ss
    ∧ splitRatio saved = ratio ∧ fontSize saved = fs ∧ currentTime saved = t
    ∧ lastAccessedAt saved = now
    ∧ (∀ c s, cur = Some c → s ∈ ss → sentenceId s = c →
              PlayerPage.initialSentenceId saved = Some c)
    ∧ ((∀ s, s ∈ ss → Engine.hasId cur s = false) →
              PlayerPage.initialSentenceId saved = None).
Proof.
  intros Hw Hi Hid Hbefore. unfold PlayerPage.persistenceSync.
  set (p' := PlayerPage.updatedProject project ss cur ratio fs t).
  destruct (updateProject_at now p' w i p0 Hw Hi Hid Hbefore) as (_ & Hat & _).
  exists (Service.withLastAccessedAt now p'). split; [exact Hat|].
  repeat split; try reflexivity;
    apply (initialSentenceId_updatedProject project ss cur ratio fs t).
Qed.

(** X24: [handleCreateProject] of the home page: a name of white space
    only creates nothing; when the stored collection cannot be parsed the
    handler throws and nothing is written; otherwise the new project is
    appended to the collection and shows in the group that is open, with
    the groups and the media store untouched; the new project has no
    sentences, no sentence selected, split ratio 70 and font size 16. *)
Theorem X24_createProject_is_listed
    (newId : string) (now : Z) (newItemName : string) (g : option string)
    (w : World) :
  let newProject := Service.createProject newId now newItemName g in
  (Str.isEmpty (Str.trim newItemName) = true →
     HomePage.handleCreateProject newId now newItemName g w = (Returns, w))
  ∧ (Str.isEmpty (Str.trim newItemName) = false →
     lingoloop_data (localStorage w) = Corrupt →
     HomePage.handleCreateProject newId now newItemName g w = (Throws, w))
  ∧ (Str.isEmpty (Str.trim newItemName) = false →
     lingoloop_data (localStorage w) ≠ Corrupt →
     writable (localStorage w) = true →
     ∃ w', HomePage.handleCreateProject newId now newItemName g w = (Returns, w')
           ∧ getProjects w' = getProjects w ++ [newProject]
           ∧ newProject ∈ HomePage.filteredProjects g (getProjects w')
           ∧ getGroups w' = getGroups w
           ∧ mediaDB w' = mediaDB w)
  ∧ sentences newProject = []
  ∧ PlayerPage.initialSentenceId newProject = None
  ∧ PlayerPage.initialSplitRatio newProject = 70%Q
  ∧ PlayerPage.initialFontSize newProject = 16.
Proof.
  cbv zeta. unfold HomePage.handleCreateProject.
  split; [intros ->; reflexivity|].
  split; [intros -> ->; reflexivity|].
  split; [|repeat split].
  intros -> Hdata Hw. rewrite Hw.
  set (newProject := Service.createProject newId now newItemName g).
  assert (Hin : ∀ ps, newProject ∈ HomePage.filteredProjects g (ps ++ [newProject])).
  { intros ps. unfold HomePage.filteredProjects. apply list_elem_of_filter.
    split; [reflexivity|]. apply elem_of_app. right. left. }
  unfold getProjects.
  destruct (lingoloop_data (localStorage w)) as [| |ps]; [|congruence|].
  - eexists. split; [reflexivity|]. cbn [localStorage lingoloop_data].
    split; [reflexivity|]. split; [exact (Hin [])|]. split; reflexivity.
  - eexists. split; [reflexivity|]. cbn [localStorage lingoloop_data].
    split; [reflexivity|]. split; [exact (Hin ps)|]. split; reflexivity.
Qed.

End ServiceFacts.

(** ** The transcript, out and in again *)

Section DecimalFacts.

(** Evaluate the code of a literal character, then arithmetic. *)
Ltac digit_code :=
  unfold Str.code;
  match goal with
  | |- context [nat_of_ascii ?c] =>
      let v := eval vm_compute in (nat_of_ascii c) in
      change (nat_of_ascii c) with v
  end; lia.


(** The digits that [toString] writes are digits, and they read back as
    the number. *)
Lemma uint_digits (d : Decimal.uint) :
  Str.allDigits (NilEmpty.string_of_uint d) = true.
Proof. induction d; cbn; try reflexivity; exact IHd. Qed.

Lemma uint_value_acc (d : Decimal.uint) (acc : positive) :
  Str.digitsValueFrom (Z.pos acc) (NilEmpty.string_of_uint d) =
    Z.pos (Pos.of_uint_acc d acc).
Proof.
  revert acc. induction d; intros acc; cbn [NilEmpty.string_of_uint Str.digitsValueFrom Pos.of_uint_acc];
    [reflexivity|..];
    match goal with
    | |- Str.digitsValueFrom ?z _ = _ =>
        match goal with
        | |- _ = Z.pos (Pos.of_uint_acc _ ?a) =>
            replace z with (Z.pos a) by digit_code
        end
    end; apply IHd.
Qed.

Lemma uint_value (d : Decimal.uint) :
  Str.digitsValueFrom 0 (NilEmpty.string_of_uint d) = Z.of_N (Pos.of_uint d).
Proof.
  induction d; cbn [NilEmpty.string_of_uint Str.digitsValueFrom Pos.of_uint];
    [reflexivity|exact IHd|..];
    match goal with
    | |- Str.digitsValueFrom ?z _ = Z.of_N (N.pos (Pos.of_uint_acc _ ?a)) =>
        replace z with (Z.pos a) by digit_code
    end; apply uint_value_acc.
Qed.

Lemma toString_digits (n : Z) : 0 ≤ n → Str.allDigits (Js.toString n) = true.
Proof.
  intros Hn. unfold Js.toString. destruct n as [|p|p]; [reflexivity| |lia].
  cbn [Z.to_int NilZero.string_of_int]. unfold NilZero.string_of_uint.
  destruct (Pos.to_uint p) eqn:E; try apply uint_digits.
  exfalso. exact (Unsigned.to_uint_nonnil p E).
Qed.

Lemma toString_value (n : Z) : 0 ≤ n → Str.digitsValue (Js.toString n) = n.
Proof.
  intros Hn. unfold Js.toString, Str.digitsValue.
  destruct n as [|p|p]; [reflexivity| |lia].
  cbn [Z.to_int NilZero.string_of_int]. unfold NilZero.string_of_uint.
  pose proof (uint_value (Pos.to_uint p)) as Hv.
  rewrite DecimalPos.Unsigned.of_to in Hv.
  destruct (Pos.to_uint p); exact Hv.
Qed.

Lemma toString_nonempty (n : Z) : 0 ≤ n → Str.isEmpty (Js.toString n) = false.
Proof.
  intros Hn. unfold Js.toString. destruct n as [|p|p]; [reflexivity| |lia].
  cbn [Z.to_int NilZero.string_of_int]. unfold NilZero.string_of_uint.
  destruct (Pos.to_uint p); reflexivity.
Qed.


Lemma append_cons (x : ascii) (a b : string) :
  (String x a ++ b)%string = String x (a ++ b).
Proof. reflexivity. Qed.

Lemma append_assoc (a b c : string) : ((a ++ b) ++ c = a ++ (b ++ c))%string.
Proof.
  induction a as [|x a IH]; [reflexivity|]. rewrite !append_cons, IH. reflexivity.
Qed.



(** *** Reading digits back *)

Lemma spanDigits_app (d : string) (c : ascii) (r : string) :
  Str.allDigits d = true → Str.isDigit c = false →
  Str.spanDigits (d ++ String c r) = (d, String c r).
Proof.
  intros Hd Hc. induction d as [|x d IH].
  - change (Str.spanDigits (String c r) = (EmptyString, String c r)).
    cbn [Str.spanDigits]. rewrite Hc. reflexivity.
  - cbn [Str.allDigits] in Hd. apply andb_true_iff in Hd as [Hx Hd].
    rewrite append_cons. cbn [Str.spanDigits]. rewrite Hx, (IH Hd). reflexivity.
Qed.

Lemma spanDigits_all (d : string) :
  Str.allDigits d = true → Str.spanDigits d = (d, EmptyString).
Proof.
  intros Hd. induction d as [|x d IH]; [reflexivity|].
  cbn [Str.allDigits] in Hd. apply andb_true_iff in Hd as [Hx Hd].
  cbn [Str.spanDigits]. rewrite Hx, (IH Hd). reflexivity.
Qed.

Lemma digits1_app (d : string) (c : ascii) (r : string) :
  Str.allDigits d = true → Str.isEmpty d = false → Str.isDigit c = false →
  Str.digits1 (d ++ String c r) = Some (d, String c r).
Proof.
  intros Hd Hne Hc. unfold Str.digits1. rewrite (spanDigits_app d c r Hd Hc), Hne.
  reflexivity.
Qed.

(** A decimal with a point is captured whole. *)
Lemma decimal_pointed (ip fp : string) (c : ascii) (r : string) :
  Str.allDigits ip = true → Str.isEmpty ip = false →
  Str.allDigits fp = true → Str.isEmpty fp = false →
  Str.isDigit c = false →
  Importer.decimal (ip ++ String "." (fp ++ String c r)) =
    Some ((ip ++ "." ++ fp)%string, String c r).
Proof.
  intros Hip Nip Hfp Nfp Hc. unfold Importer.decimal.
  rewrite (digits1_app ip "." _ Hip Nip eq_refl). cbn [mbind option_bind Str.lit].
  cbn [Ascii.eqb Bool.eqb]. rewrite (digits1_app fp c r Hfp Nfp Hc). reflexivity.
Qed.

Lemma digitsValueFrom_lt (s : string) (acc : Z) :
  Str.allDigits s = true → 0 ≤ acc →
  Str.digitsValueFrom acc s < (acc + 1) * 10 ^ Z.of_nat (String.length s).
Proof.
  revert acc. induction s as [|c s IH]; intros acc Hs Hacc.
  - cbn. lia.
  - cbn [Str.allDigits] in Hs. apply andb_true_iff in Hs as [Hc Hs].
    cbn [Str.digitsValueFrom String.length]. rewrite Nat2Z.inj_succ, Z.pow_succ_r by lia.
    unfold Str.isDigit in Hc. apply andb_true_iff in Hc as [Hlo Hhi].
    apply Nat.leb_le in Hlo, Hhi.
    eapply Z.lt_le_trans; [apply IH; [exact Hs|lia]|].
    assert (0 < 10 ^ Z.of_nat (String.length s)) by (apply Z.pow_pos_nonneg; lia).
    nia.
Qed.

(** The value of a pointed decimal. *)
Lemma decimalValue_pointed (ip fp : string) :
  Str.allDigits ip = true → Str.allDigits fp = true →
  Str.decimalValue (ip ++ String "." fp) =
    Qmake (Str.digitsValue ip * 10 ^ Z.of_nat (String.length fp) + Str.digitsValue fp)
          (Z.to_pos (10 ^ Z.of_nat (String.length fp))).
Proof.
  intros Hip Hfp. unfold Str.decimalValue.
  rewrite (spanDigits_app ip "." fp Hip eq_refl). cbn [Str.lit Ascii.eqb Bool.eqb].
  rewrite (spanDigits_all fp Hfp). reflexivity.
Qed.


(** *** The string of [toFixed(2)] *)

Lemma pad2_facts (k : Z) :
  0 ≤ k < 100 →
  let fp := Js.padStart 2 "0" (Js.toString k) in
  Str.allDigits fp = true ∧ String.length fp = 2%nat ∧ Str.digitsValue fp = k.
Proof.
  intros Hk.
  assert (Hall : forallb
            (λ k, let fp := Js.padStart 2 "0" (Js.toString k) in
                  Str.allDigits fp && (String.length fp =? 2)%nat
                  && (Str.digitsValue fp =? k))
            (seqZ 0 100) = true) by (vm_compute; reflexivity).
  rewrite forallb_forall in Hall.
  specialize (Hall k). cbv zeta in *.
  destruct (andb_prop _ _ (Hall ltac:(apply list_elem_of_In, elem_of_seqZ; lia)))
    as [H12 H3].
  destruct (andb_prop _ _ H12) as [H1 H2].
  repeat split; [exact H1|apply Nat.eqb_eq, H2|apply Z.eqb_eq, H3].
Qed.

Lemma decimalValue_fixed2 (n : Z) :
  0 ≤ n → Str.decimalValue (Text.fixed2 n) = Qmake n 100.
Proof.
  intros Hn. unfold Text.fixed2.
  assert (Hq : 0 ≤ n / 100) by (apply Z.div_pos; lia).
  destruct (pad2_facts (n mod 100) ltac:(apply Z.mod_pos_bound; lia))
    as (Hfp & Hlen & Hval).
  change (Js.toString (n / 100) ++ "." ++ ?fp)%string
    with (Js.toString (n / 100) ++ String "." fp)%string.
  rewrite (decimalValue_pointed _ _ (toString_digits _ Hq) Hfp).
  rewrite Hlen, Hval, (toString_value _ Hq).
  change (10 ^ Z.of_nat 2) with 100. change (Z.to_pos 100) with 100%positive.
  f_equal. pose proof (Z.div_mod n 100 ltac:(lia)). lia.
Qed.

Lemma parseFloat_fixed2 (n : Z) :
  0 ≤ n → Str.parseFloat (Text.fixed2 n) = Js.round64 (Qmake n 100).
Proof. intros Hn. unfold Str.parseFloat. rewrite (decimalValue_fixed2 n Hn). reflexivity. Qed.

(** The number that [toFixed(2)] writes is the number that
    [Number(x.toFixed(2))] is. *)
Lemma parseFloat_toFixed2 (x : Q) :
  (0 <= x)%Q → Str.parseFloat (Text.toFixed2 x) = Js.toFixed2 x.
Proof.
  intros Hx. unfold Text.toFixed2, Js.toFixed2. rewrite (Qle_bool_true _ _ Hx).
  apply parseFloat_fixed2, Qfloor_nonneg, round_arg_nonneg, Hx.
Qed.

Lemma decimal_fixed2 (n : Z) (c : ascii) (r : string) :
  0 ≤ n → Str.isDigit c = false →
  Importer.decimal (Text.fixed2 n ++ String c r) = Some (Text.fixed2 n, String c r).
Proof.
  intros Hn Hc. unfold Text.fixed2.
  assert (Hq : 0 ≤ n / 100) by (apply Z.div_pos; lia).
  destruct (pad2_facts (n mod 100) ltac:(apply Z.mod_pos_bound; lia))
    as (Hfp & Hlen & _).
  set (ip := Js.toString (n / 100)) in *.
  set (fp := Js.padStart 2 "0" (Js.toString (n mod 100))) in *.
  change (ip ++ "." ++ fp)%string with (ip ++ String "." fp)%string.
  rewrite append_assoc, append_cons.
  assert (Nfp : Str.isEmpty fp = false) by (destruct fp; [discriminate Hlen|reflexivity]).
  exact (decimal_pointed ip fp c r (toString_digits _ Hq) (toString_nonempty _ Hq)
                         Hfp Nfp Hc).
Qed.


(** *** Trimming *)

Lemma digit_not_space (c : ascii) : Str.isDigit c = true → Str.isSpace c = false.
Proof.
  unfold Str.isDigit, Str.isSpace. intros H.
  apply andb_true_iff in H as [Hlo Hhi]. apply Nat.leb_le in Hlo, Hhi.
  destruct (Nat.leb_spec 9 (Str.code c)), (Nat.leb_spec (Str.code c) 13),
    (Nat.eqb_spec (Str.code c) 32), (Nat.eqb_spec (Str.code c) 160);
    cbn; try reflexivity; lia.
Qed.

Lemma digit_not_terminator (c : ascii) :
  Str.isDigit c = true → Str.isLineTerminator c = false.
Proof.
  unfold Str.isDigit, Str.isLineTerminator. intros H.
  apply andb_true_iff in H as [Hlo Hhi]. apply Nat.leb_le in Hlo, Hhi.
  destruct (Nat.eqb_spec (Str.code c) 10), (Nat.eqb_spec (Str.code c) 13);
    cbn; try reflexivity; lia.
Qed.

Lemma trimEnd_digits (d x : string) :
  Str.allDigits d = true → Str.trimEnd (d ++ x) = (d ++ Str.trimEnd x)%string.
Proof.
  intros Hd. induction d as [|c d IH]; [reflexivity|].
  cbn [Str.allDigits] in Hd. apply andb_true_iff in Hd as [Hc Hd].
  rewrite !append_cons. cbn [Str.trimEnd].
  rewrite (digit_not_space c Hc), (IH Hd). reflexivity.
Qed.

Lemma trimEnd_fixed2 (n : Z) (x : string) :
  0 ≤ n → Str.trimEnd (Text.fixed2 n ++ x) = (Text.fixed2 n ++ Str.trimEnd x)%string.
Proof.
  intros Hn. unfold Text.fixed2.
  assert (Hq : 0 ≤ n / 100) by (apply Z.div_pos; lia).
  destruct (pad2_facts (n mod 100) ltac:(apply Z.mod_pos_bound; lia))
    as (Hfp & _ & _).
  set (ip := Js.toString (n / 100)) in *.
  set (fp := Js.padStart 2 "0" (Js.toString (n mod 100))) in *.
  change (ip ++ "." ++ fp)%string with (ip ++ String "." fp)%string.
  rewrite !append_assoc, !append_cons.
  rewrite (trimEnd_digits ip _ (toString_digits _ Hq)). cbn [Str.trimEnd].
  change (Str.isSpace ".") with false. cbn [andb].
  rewrite (trimEnd_digits fp x Hfp). reflexivity.
Qed.

(** Trimming at the two ends, in either order. *)
Lemma trimStart_trimEnd (t : string) :
  Str.trimStart (Str.trimEnd t) = Str.trim t.
Proof.
  unfold Str.trim. induction t as [|c t IH]; [reflexivity|].
  cbn [Str.trimEnd Str.trimStart]. destruct (Str.isSpace c) eqn:Hc.
  - rewrite <- IH. cbn [andb]. destruct (Str.isEmpty (Str.trimEnd t)) eqn:He.
    + destruct (Str.trimEnd t); [reflexivity|discriminate He].
    + cbn [Str.trimStart]. rewrite Hc. reflexivity.
  - cbn [andb Str.trimStart Str.trimEnd]. rewrite Hc. reflexivity.
Qed.

Lemma trimStart_trimEnd_space (t : string) :
  Str.trimStart (Str.trimEnd (String " " t)) = Str.trim t.
Proof.
  rewrite <- trimStart_trimEnd. cbn [Str.trimEnd].
  change (Str.isSpace " ") with true. cbn [andb].
  destruct (Str.isEmpty (Str.trimEnd t)) eqn:He.
  - destruct (Str.trimEnd t); [reflexivity|discriminate He].
  - reflexivity.
Qed.

(** *** Line terminators *)

Lemma hasLineTerminator_app (a b : string) :
  Importer.hasLineTerminator (a ++ b) =
    Importer.hasLineTerminator a || Importer.hasLineTerminator b.
Proof.
  induction a as [|c a IH]; [reflexivity|].
  rewrite append_cons. cbn [Importer.hasLineTerminator]. rewrite IH, orb_assoc.
  reflexivity.
Qed.

Lemma hasLineTerminator_digits (d : string) :
  Str.allDigits d = true → Importer.hasLineTerminator d = false.
Proof.
  intros Hd. induction d as [|c d IH]; [reflexivity|].
  cbn [Str.allDigits] in Hd. apply andb_true_iff in Hd as [Hc Hd].
  cbn [Importer.hasLineTerminator]. rewrite (digit_not_terminator c Hc), (IH Hd).
  reflexivity.
Qed.

Lemma hasLineTerminator_fixed2 (n : Z) :
  0 ≤ n → Importer.hasLineTerminator (Text.fixed2 n) = false.
Proof.
  intros Hn. unfold Text.fixed2.
  assert (Hq : 0 ≤ n / 100) by (apply Z.div_pos; lia).
  destruct (pad2_facts (n mod 100) ltac:(apply Z.mod_pos_bound; lia))
    as (Hfp & _ & _).
  rewrite !hasLineTerminator_app, (hasLineTerminator_digits _ (toString_digits _ Hq)),
    (hasLineTerminator_digits _ Hfp). reflexivity.
Qed.

Lemma hasLineTerminator_trimStart (t : string) :
  Importer.hasLineTerminator t = false →
  Importer.hasLineTerminator (Str.trimStart t) = false.
Proof.
  induction t as [|c t IH]; [reflexivity|].
  intros H. cbn [Str.trimStart]. destruct (Str.isSpace c); [|exact H].
  cbn [Importer.hasLineTerminator] in H. apply orb_false_iff in H as [_ H].
  exact (IH H).
Qed.

Lemma hasLineTerminator_trimEnd (t : string) :
  Importer.hasLineTerminator t = false →
  Importer.hasLineTerminator (Str.trimEnd t) = false.
Proof.
  induction t as [|c t IH]; [reflexivity|].
  intros H. cbn [Importer.hasLineTerminator] in H.
  apply orb_false_iff in H as [Hc H]. cbn [Str.trimEnd].
  destruct (_ && _); [reflexivity|].
  cbn [Importer.hasLineTerminator]. rewrite Hc, (IH H). reflexivity.
Qed.

Lemma hasLineTerminator_trim (t : string) :
  Importer.hasLineTerminator t = false →
  Importer.hasLineTerminator (Str.trim t) = false.
Proof.
  intros H. apply hasLineTerminator_trimEnd, hasLineTerminator_trimStart, H.
Qed.

(** *** Lines *)

Lemma split_line (l rest : string) :
  Importer.hasLineTerminator l = false →
  Str.split Importer.nl (l ++ String Importer.nl rest) =
    l :: Str.split Importer.nl rest.
Proof.
  intros H. induction l as [|c l IH]; [reflexivity|].
  cbn [Importer.hasLineTerminator] in H. apply orb_false_iff in H as [Hc H].
  rewrite append_cons. cbn [Str.split].
  assert (Hne : Ascii.eqb c Importer.nl = false).
  { destruct (Ascii.eqb_spec c Importer.nl) as [->|]; [discriminate Hc|reflexivity]. }
  rewrite Hne, (IH H). reflexivity.
Qed.

Lemma split_last (l : string) :
  Importer.hasLineTerminator l = false → Str.split Importer.nl l = [l].
Proof.
  intros H. induction l as [|c l IH]; [reflexivity|].
  cbn [Importer.hasLineTerminator] in H. apply orb_false_iff in H as [Hc H].
  cbn [Str.split].
  assert (Hne : Ascii.eqb c Importer.nl = false).
  { destruct (Ascii.eqb_spec c Importer.nl) as [->|]; [discriminate Hc|reflexivity]. }
  rewrite Hne, (IH H). reflexivity.
Qed.

(** Splitting what was joined gives the lines back. *)
Lemma split_join (ls : list string) :
  ls ≠ [] → Forall (λ l, Importer.hasLineTerminator l = false) ls →
  Str.split Importer.nl (Text.join Importer.nl ls) = ls.
Proof.
  induction ls as [|l ls IH]; [congruence|]. intros _ Hall.
  inversion Hall as [|? ? Hl Hls]; subst.
  destruct ls as [|l' ls].
  - cbn [Text.join]. apply split_last, Hl.
  - change (Text.join Importer.nl (l :: l' :: ls))
      with (l ++ String Importer.nl (Text.join Importer.nl (l' :: ls)))%string.
    rewrite (split_line _ _ Hl), (IH ltac:(discriminate) Hls). reflexivity.
Qed.


(** *** A line of the export, read again *)

Lemma toFixed2_fixed2 (x : Q) :
  (0 <= x)%Q →
  Text.toFixed2 x = Text.fixed2 (Qfloor (x * 100 + (1 # 2))%Q)
  ∧ 0 ≤ Qfloor (x * 100 + (1 # 2))%Q.
Proof.
  intros Hx. unfold Text.toFixed2. rewrite (Qle_bool_true _ _ Hx).
  split; [reflexivity|]. apply Qfloor_nonneg, round_arg_nonneg, Hx.
Qed.

Lemma exportLine_trim (s : Sentence) :
  (0 <= startTime s)%Q → (0 <= endTime s)%Q →
  Str.trim (TextEditor.exportLine s) =
    String "[" (Text.toFixed2 (startTime s) ++
      String "-" (Text.toFixed2 (endTime s) ++
        String "]" (Str.trimEnd (String " " (text s)))))%string.
Proof.
  intros Ha Hb. unfold TextEditor.exportLine.
  destruct (toFixed2_fixed2 _ Ha) as [-> Na].
  destruct (toFixed2_fixed2 _ Hb) as [-> Nb].
  unfold Str.trim.
  change ("[" ++ ?x)%string with (String "[" x).
  cbn [Str.trimStart]. change (Str.isSpace "[") with false. cbv iota.
  cbn [Str.trimEnd]. change (Str.isSpace "[") with false. cbn [andb]. cbv iota.
  rewrite (trimEnd_fixed2 _ _ Na).
  change ("-" ++ ?x)%string with (String "-" x).
  cbn [Str.trimEnd]. change (Str.isSpace "-") with false. cbn [andb]. cbv iota.
  rewrite (trimEnd_fixed2 _ _ Nb).
  change ("] " ++ ?x)%string with (String "]" (String " " x)).
  cbn [Str.trimEnd]. change (Str.isSpace "]") with false. cbn [andb]. cbv iota.
  reflexivity.
Qed.

Lemma markerMatch_exportLine (s : Sentence) :
  (0 <= startTime s)%Q → (0 <= endTime s)%Q →
  Importer.hasLineTerminator (text s) = false →
  Importer.markerMatch (Str.trim (TextEditor.exportLine s)) =
    Some (Text.toFixed2 (startTime s), Text.toFixed2 (endTime s), Str.trim (text s)).
Proof.
  intros Ha Hb Ht. rewrite (exportLine_trim s Ha Hb).
  destruct (toFixed2_fixed2 _ Ha) as [-> Na].
  destruct (toFixed2_fixed2 _ Hb) as [-> Nb].
  unfold Importer.markerMatch. cbn [Str.lit Ascii.eqb Bool.eqb mbind option_bind].
  rewrite (decimal_fixed2 _ "-" _ Na eq_refl).
  cbn [Str.lit Ascii.eqb Bool.eqb mbind option_bind].
  rewrite (decimal_fixed2 _ "]" _ Nb eq_refl).
  cbn [Str.lit Ascii.eqb Bool.eqb mbind option_bind].
  rewrite trimStart_trimEnd_space, (hasLineTerminator_trim _ Ht). reflexivity.
Qed.

Lemma exportLine_one_line (s : Sentence) :
  (0 <= startTime s)%Q → (0 <= endTime s)%Q →
  Importer.hasLineTerminator (text s) = false →
  Importer.hasLineTerminator (TextEditor.exportLine s) = false.
Proof.
  intros Ha Hb Ht. unfold TextEditor.exportLine.
  destruct (toFixed2_fixed2 _ Ha) as [-> Na].
  destruct (toFixed2_fixed2 _ Hb) as [-> Nb].
  rewrite !hasLineTerminator_app, (hasLineTerminator_fixed2 _ Na),
    (hasLineTerminator_fixed2 _ Nb), Ht. reflexivity.
Qed.

Lemma exportLine_not_blank (s : Sentence) :
  (0 <= startTime s)%Q → (0 <= endTime s)%Q →
  (0 <? String.length (Str.trim (TextEditor.exportLine s)))%nat = true.
Proof. intros Ha Hb. rewrite (exportLine_trim s Ha Hb). reflexivity. Qed.

Lemma filter_all {A} (f : A → bool) (l : list A) :
  Forall (λ x, f x = true) l → List.filter f l = l.
Proof.
  induction 1 as [|x l Hx Hl IH]; [reflexivity|].
  cbn [List.filter]. rewrite Hx, IH. reflexivity.
Qed.


Lemma contentLines_export (ss : list Sentence) :
  ss ≠ [] → Forall TextEditor.exportable ss →
  Importer.contentLines (Text.join Importer.nl (map TextEditor.exportLine ss)) =
    map TextEditor.exportLine ss.
Proof.
  intros Hne Hall. unfold Importer.contentLines.
  rewrite split_join.
  - apply filter_all, Forall_fmap. eapply Forall_impl; [exact Hall|].
    intros s ([Ha _] & [Hb _] & _). exact (exportLine_not_blank s Ha Hb).
  - destruct ss; [congruence|discriminate].
  - apply Forall_fmap. eapply Forall_impl; [exact Hall|].
    intros s ([Ha _] & [Hb _] & Ht). exact (exportLine_one_line s Ha Hb Ht).
Qed.

Lemma lineSentence_exportLine (gen : nat → string) (i : nat) (ct : Q) (s : Sentence) :
  TextEditor.exportable s →
  Importer.lineSentence gen i ct (TextEditor.exportLine s) = TextEditor.reimported gen i s.
Proof.
  intros ([Ha _] & [Hb _] & Ht). unfold Importer.lineSentence, TextEditor.reimported.
  rewrite (markerMatch_exportLine s Ha Hb Ht).
  rewrite (parseFloat_toFixed2 _ Ha), (parseFloat_toFixed2 _ Hb). reflexivity.
Qed.

(** X1: a transcript that is downloaded can be imported again.  For a
    list of sentences that is not empty, with times that are not negative
    and texts on one line, [handleDownloadTxt] offers a file, and
    [processContent] reads that file as plain text into one sentence for
    each sentence exported, in the same order: the times rounded to two
    decimals, the text trimmed, the loop count 1, the identifiers drawn
    anew. *)
Theorem X1_export_then_import (gen : nat → string) (ss : list Sentence) :
  ss ≠ [] → Forall TextEditor.exportable ss →
  ∃ content,
    TextEditor.handleDownloadTxt ss = Some content
    ∧ Importer.processContent gen content false = imap (TextEditor.reimported gen) ss.
Proof.
  intros Hne Hall.
  exists (Text.join Importer.nl (map TextEditor.exportLine ss)).
  split; [destruct ss; [congruence|reflexivity]|].
  cbn [Importer.processContent].
  pose proof (contentLines_export ss Hne Hall) as Hlines.
  apply list_eq. intros i.
  destruct (ss !! i) as [s|] eqn:Hs.
  - rewrite list_lookup_imap, Hs. cbn [fmap option_fmap option_map].
    assert (Hl : Importer.contentLines
                   (Text.join Importer.nl (map TextEditor.exportLine ss)) !! i
                 = Some (TextEditor.exportLine s))
      by (rewrite Hlines, list_lookup_fmap, Hs; reflexivity).
    rewrite (parseTxtContent_lookup gen _ i _ Hl).
    f_equal. apply lineSentence_exportLine.
    exact (proj1 (Forall_lookup _ _) Hall i s Hs).
  - rewrite list_lookup_imap, Hs. cbn.
    apply lookup_ge_None. rewrite parseTxtContent_length, Hlines, length_map.
    apply lookup_ge_None, Hs.
Qed.


(** A number of hundredths is written as it is. *)
Lemma toFixed2_string_hundredths (x : Q) :
  Js.isDouble x → (0 <= x)%Q → Text.toFixed2 (Js.toFixed2 x) = Text.toFixed2 x.
Proof.
  intros Hd Hx.
  pose proof (toFixed2_nonneg x Hx) as Hr.
  unfold Text.toFixed2. rewrite (Qle_bool_true _ _ Hr), (Qle_bool_true _ _ Hx).
  rewrite (toFixed2_nonneg_eq x Hx), (hundredths_of_double x Hd Hx).
  reflexivity.
Qed.

Lemma exportLine_reimported (gen : nat → string) (i : nat) (s : Sentence) :
  TextEditor.exportable s → Str.trim (text s) = text s →
  Js.isDouble (startTime s) → Js.isDouble (endTime s) →
  TextEditor.exportLine (TextEditor.reimported gen i s) = TextEditor.exportLine s.
Proof.
  intros ([Ha _] & [Hb _] & _) Ht Da Db. unfold TextEditor.exportLine, TextEditor.reimported.
  cbn [startTime endTime text].
  rewrite (toFixed2_string_hundredths _ Da Ha), (toFixed2_string_hundredths _ Db Hb), Ht.
  reflexivity.
Qed.

(** X2: the export of what was imported from an export is that export
    again: for sentences as in X1 whose texts have no white space at
    either end and whose times are binary64 numbers, exporting the
    re-imported sentences gives the same file as exporting the sentences
    themselves. *)
Theorem X2_export_is_stable (gen : nat → string) (ss : list Sentence) :
  Forall TextEditor.exportable ss →
  Forall (λ s, Str.trim (text s) = text s) ss →
  Forall (λ s, Js.isDouble (startTime s) ∧ Js.isDouble (endTime s)) ss →
  TextEditor.handleDownloadTxt (imap (TextEditor.reimported gen) ss) =
    TextEditor.handleDownloadTxt ss.
Proof.
  intros Hall Htrim Hdbl.
  assert (Hmap : map TextEditor.exportLine (imap (TextEditor.reimported gen) ss) =
                 map TextEditor.exportLine ss).
  { apply list_eq. intros i. rewrite !list_lookup_fmap, list_lookup_imap.
    destruct (ss !! i) as [s|] eqn:Hs; [|reflexivity]. cbn. f_equal.
    apply exportLine_reimported.
    - exact (proj1 (Forall_lookup _ _) Hall i s Hs).
    - exact (proj1 (Forall_lookup _ _) Htrim i s Hs).
    - exact (proj1 (proj1 (Forall_lookup _ _) Hdbl i s Hs)).
    - exact (proj2 (proj1 (Forall_lookup _ _) Hdbl i s Hs)). }
  unfold TextEditor.handleDownloadTxt. rewrite Hmap.
  destruct ss; reflexivity.
Qed.

End DecimalFacts.

(** ** Subtitles *)

Section StampFacts.

Lemma digit_eqb (c sep : ascii) :
  Str.isDigit c = true → Str.isDigit sep = false → Ascii.eqb c sep = false.
Proof.
  intros Hc Hs. destruct (Ascii.eqb_spec c sep) as [->|]; [congruence|reflexivity].
Qed.

Lemma digit_value (c : ascii) :
  Str.isDigit c = true → 0 ≤ Z.of_nat (Str.code c) - 48 ≤ 9.
Proof.
  unfold Str.isDigit. intros H. apply andb_true_iff in H as [Hlo Hhi].
  apply Nat.leb_le in Hlo, Hhi. lia.
Qed.

Lemma digitsN_S (n : nat) (s d r : string) :
  Importer.digitsN (S n) s = Some (d, r) →
  ∃ c s' d', s = String c s' ∧ Str.isDigit c = true
             ∧ Importer.digitsN n s' = Some (d', r) ∧ d = String c d'.
Proof.
  cbn [Importer.digitsN]. destruct s as [|c s']; [discriminate|].
  destruct (Str.isDigit c) eqn:Hc; [|discriminate].
  destruct (Importer.digitsN n s') as [[d' r']|] eqn:Hd; cbn; [|discriminate].
  intros H. injection H as <- <-. exists c, s', d'. repeat split; assumption.
Qed.

Lemma digitsN_2 (s d r : string) :
  Importer.digitsN 2 s = Some (d, r) →
  ∃ a b, d = String a (String b EmptyString)
         ∧ Str.isDigit a = true ∧ Str.isDigit b = true.
Proof.
  intros H. apply digitsN_S in H as (a & s1 & d1 & -> & Ha & H & ->).
  apply digitsN_S in H as (b & s2 & d2 & -> & Hb & H & ->).
  cbn in H. injection H as <- _. exists a, b. repeat split; assumption.
Qed.

Lemma digitsN_3 (s d r : string) :
  Importer.digitsN 3 s = Some (d, r) →
  ∃ a b c, d = String a (String b (String c EmptyString))
         ∧ Str.isDigit a = true ∧ Str.isDigit b = true ∧ Str.isDigit c = true.
Proof.
  intros H. apply digitsN_S in H as (a & s1 & d1 & -> & Ha & H & ->).
  apply digitsN_S in H as (b & s2 & d2 & -> & Hb & H & ->).
  apply digitsN_S in H as (c & s3 & d3 & -> & Hc & H & ->).
  cbn in H. injection H as <- _. exists a, b, c. repeat split; assumption.
Qed.

(** Sums and products of small integers are exact. *)
Lemma mul_int (a b : Z) :
  - 2 ^ 53 ≤ a ≤ 2 ^ 53 → - 2 ^ 53 ≤ a * b ≤ 2 ^ 53 →
  (Js.mul (Js.round64 (inject_Z a)) (inject_Z b) == inject_Z (a * b))%Q.
Proof.
  intros Ha Hab. unfold Js.mul.
  rewrite (round64_comp _ (inject_Z (a * b)))
    by (rewrite (round64_int a Ha), inject_Z_mult; reflexivity).
  apply round64_int, Hab.
Qed.

Lemma add_int (x y : Q) (a b : Z) :
  (x == inject_Z a)%Q → (y == inject_Z b)%Q → - 2 ^ 53 ≤ a + b ≤ 2 ^ 53 →
  (Js.add x y == inject_Z (a + b))%Q.
Proof.
  intros Hx Hy Hab. unfold Js.add.
  rewrite (round64_comp _ (inject_Z (a + b)))
    by (rewrite Hx, Hy, inject_Z_plus; reflexivity).
  apply round64_int, Hab.
Qed.

(** The seconds of [w] whole seconds and [ms] milliseconds, as
    [parseSrtTime] adds them up: the thousandths are rounded, and then
    the sum. *)
Lemma stamp_seconds_error (w ms : Z) :
  0 ≤ w < 2 ^ 19 - 1 → 0 ≤ ms < 1000 →
  let p := Js.round64 (inject_Z w + Js.round64 (inject_Z ms / 1000)) in
  (inject_Z (w * 1000 + ms) * (1 # 1000) - Js.pow2 (-34) <= p)%Q
  ∧ (p <= inject_Z (w * 1000 + ms) * (1 # 1000) + Js.pow2 (-34))%Q.
Proof.
  intros Hw Hms p.
  assert (P0 : (Js.pow2 0 == 1)%Q) by reflexivity.
  assert (P54 : (Js.pow2 (-54) == 1 # 18014398509481984)%Q) by reflexivity.
  assert (P35 : (Js.pow2 (-35) == 1 # 34359738368)%Q) by reflexivity.
  assert (P34 : (Js.pow2 (-34) == 1 # 17179869184)%Q) by reflexivity.
  assert (P19 : (Js.pow2 19 == 524288)%Q) by reflexivity.
  assert (M0 : (0 <= inject_Z ms)%Q) by (change 0%Q with (inject_Z 0); rewrite <- Zle_Qle; lia).
  assert (M1 : (inject_Z ms <= 999)%Q) by (change 999%Q with (inject_Z 999); rewrite <- Zle_Qle; lia).
  assert (W0 : (0 <= inject_Z w)%Q) by (change 0%Q with (inject_Z 0); rewrite <- Zle_Qle; lia).
  assert (W1 : (inject_Z w <= 524286)%Q)
    by (change 524286%Q with (inject_Z 524286); rewrite <- Zle_Qle; lia).
  assert (Ef : (inject_Z ms / 1000 == inject_Z ms * (1 # 1000))%Q) by field.
  assert (F0 : (0 <= Js.round64 (inject_Z ms / 1000))%Q)
    by (apply round64_nonneg; rewrite Ef; lra).
  set (f := Js.round64 (inject_Z ms / 1000)) in *.
  destruct (round64_error (inject_Z ms / 1000) 0) as [F1 F2];
    [rewrite Ef; lra|rewrite Ef, P0; lra|lia|].
  change (Js.pow2 (0 - 54)) with (Js.pow2 (-54)) in F1, F2. fold f in F1, F2.
  rewrite P54, Ef in F1, F2.
  destruct (round64_error (inject_Z w + f) 19) as [G1 G2];
    [lra|rewrite P19; lra|lia|].
  change (Js.pow2 (19 - 54)) with (Js.pow2 (-35)) in G1, G2. fold p in G1, G2.
  rewrite P35 in G1, G2. rewrite P34, inject_Z_plus, inject_Z_mult.
  change (inject_Z 1000) with 1000%Q. split; lra.
Qed.

(** More milliseconds give more seconds. *)
Lemma stamp_seconds_lt (w ms w' ms' : Z) :
  0 ≤ w < 2 ^ 19 - 1 → 0 ≤ ms < 1000 → 0 ≤ w' < 2 ^ 19 - 1 → 0 ≤ ms' < 1000 →
  w * 1000 + ms < w' * 1000 + ms' →
  (Js.round64 (inject_Z w + Js.round64 (inject_Z ms / 1000))
   < Js.round64 (inject_Z w' + Js.round64 (inject_Z ms' / 1000)))%Q.
Proof.
  intros Hw Hms Hw' Hms' Hlt.
  destruct (stamp_seconds_error w ms Hw Hms) as [_ U].
  destruct (stamp_seconds_error w' ms' Hw' Hms') as [L _].
  cbv zeta in U, L.
  assert (P34 : (Js.pow2 (-34) == 1 # 17179869184)%Q) by reflexivity.
  rewrite P34 in U, L.
  assert (Hd : (inject_Z (w * 1000 + ms) + 1 <= inject_Z (w' * 1000 + ms'))%Q).
  { change 1%Q with (inject_Z 1). rewrite <- inject_Z_plus, <- Zle_Qle. lia. }
  lra.
Qed.

(** The shape of a time stamp of the cue pattern. *)
Lemma timestamp_shape (s t r : string) :
  Importer.timestamp s = Some (t, r) →
  ∃ h m sec ms,
    t = (h ++ ":" ++ m ++ ":" ++ sec ++ "," ++ ms)%string
    ∧ (∃ a b, h = String a (String b EmptyString)
              ∧ Str.isDigit a = true ∧ Str.isDigit b = true)
    ∧ (∃ a b, m = String a (String b EmptyString)
              ∧ Str.isDigit a = true ∧ Str.isDigit b = true)
    ∧ (∃ a b, sec = String a (String b EmptyString)
              ∧ Str.isDigit a = true ∧ Str.isDigit b = true)
    ∧ (∃ a b c, ms = String a (String b (String c EmptyString))
              ∧ Str.isDigit a = true ∧ Str.isDigit b = true ∧ Str.isDigit c = true).
Proof.
  unfold Importer.timestamp. intros H.
  destruct (Importer.digitsN 2 s) as [[h r1]|] eqn:Hh; cbn [mbind option_bind] in H; [|discriminate].
  destruct (Str.lit ":" r1) as [r2|]; cbn [mbind option_bind] in H; [|discriminate].
  destruct (Importer.digitsN 2 r2) as [[m r3]|] eqn:Hm; cbn [mbind option_bind] in H; [|discriminate].
  destruct (Str.lit ":" r3) as [r4|]; cbn [mbind option_bind] in H; [|discriminate].
  destruct (Importer.digitsN 2 r4) as [[sec r5]|] eqn:Hsec; cbn [mbind option_bind] in H; [|discriminate].
  destruct (Str.lit "," r5) as [r6|]; cbn [mbind option_bind] in H; [|discriminate].
  destruct (Importer.digitsN 3 r6) as [[ms r7]|] eqn:Hms; cbn [mbind option_bind] in H; [|discriminate].
  injection H as <- _. exists h, m, sec, ms.
  split; [reflexivity|].
  split; [exact (digitsN_2 _ _ _ Hh)|].
  split; [exact (digitsN_2 _ _ _ Hm)|].
  split; [exact (digitsN_2 _ _ _ Hsec)|exact (digitsN_3 _ _ _ Hms)].
Qed.

(** What [parseSrtTime] computes on a time stamp of the cue pattern. *)
Lemma parseSrtTime_stamp (s t r : string) :
  Importer.timestamp s = Some (t, r) →
  let h := Str.digitsValue (substring 0 2 t) in
  let m := Str.digitsValue (substring 3 2 t) in
  let sec := Str.digitsValue (substring 6 2 t) in
  let ms := Str.digitsValue (substring 9 3 t) in
  (0 ≤ h ≤ 99 ∧ 0 ≤ m ≤ 99 ∧ 0 ≤ sec ≤ 99 ∧ 0 ≤ ms ≤ 999)
  ∧ Importer.parseSrtTime t
    = Js.round64 (inject_Z (h * 3600 + m * 60 + sec) + Js.round64 (inject_Z ms / 1000)).
Proof.
  intros H. apply timestamp_shape in H
    as (h & m & sec & ms & -> & (h1 & h2 & -> & Hh1 & Hh2)
        & (m1 & m2 & -> & Hm1 & Hm2) & (s1 & s2 & -> & Hs1 & Hs2)
        & (x1 & x2 & x3 & -> & Hx1 & Hx2 & Hx3)).
  pose proof (digit_value _ Hh1). pose proof (digit_value _ Hh2).
  pose proof (digit_value _ Hm1). pose proof (digit_value _ Hm2).
  pose proof (digit_value _ Hs1). pose proof (digit_value _ Hs2).
  pose proof (digit_value _ Hx1). pose proof (digit_value _ Hx2).
  pose proof (digit_value _ Hx3).
  change (_ ++ _)%string with
    (String h1 (String h2 (String ":" (String m1 (String m2 (String ":"
       (String s1 (String s2 (String "," (String x1 (String x2 (String x3 EmptyString)))))))))))).
  cbn [substring]. cbv zeta.
  set (h := Str.digitsValue (String h1 (String h2 EmptyString))).
  set (m := Str.digitsValue (String m1 (String m2 EmptyString))).
  set (sec := Str.digitsValue (String s1 (String s2 EmptyString))).
  set (ms := Str.digitsValue (String x1 (String x2 (String x3 EmptyString)))).
  assert (Bh : 0 ≤ h ≤ 99) by (unfold h, Str.digitsValue; cbn [Str.digitsValueFrom]; lia).
  assert (Bm : 0 ≤ m ≤ 99) by (unfold m, Str.digitsValue; cbn [Str.digitsValueFrom]; lia).
  assert (Bs : 0 ≤ sec ≤ 99) by (unfold sec, Str.digitsValue; cbn [Str.digitsValueFrom]; lia).
  assert (Bx : 0 ≤ ms ≤ 999) by (unfold ms, Str.digitsValue; cbn [Str.digitsValueFrom]; lia).
  split; [repeat split; lia|].
  assert (Hp : Importer.parseSrtTime
                 (String h1 (String h2 (String ":" (String m1 (String m2 (String ":"
                   (String s1 (String s2 (String "," (String x1 (String x2 (String x3 EmptyString))))))))))))
               = Js.add (Js.add (Js.add (Js.mul (Js.round64 (inject_Z h)) 3600)
                                        (Js.mul (Js.round64 (inject_Z m)) 60))
                                (Js.round64 (inject_Z sec)))
                        (Js.div (Js.round64 (inject_Z ms)) 1000)).
  { unfold Importer.parseSrtTime. cbn [Str.split].
    rewrite (digit_eqb h1 "," Hh1 eq_refl), (digit_eqb h2 "," Hh2 eq_refl),
      (digit_eqb m1 "," Hm1 eq_refl), (digit_eqb m2 "," Hm2 eq_refl),
      (digit_eqb s1 "," Hs1 eq_refl), (digit_eqb s2 "," Hs2 eq_refl),
      (digit_eqb x1 "," Hx1 eq_refl), (digit_eqb x2 "," Hx2 eq_refl),
      (digit_eqb x3 "," Hx3 eq_refl).
    change (Ascii.eqb ":" ",") with false. change (Ascii.eqb "," ",") with true.
    cbn [nth Str.split].
    rewrite (digit_eqb h1 ":" Hh1 eq_refl), (digit_eqb h2 ":" Hh2 eq_refl),
      (digit_eqb m1 ":" Hm1 eq_refl), (digit_eqb m2 ":" Hm2 eq_refl),
      (digit_eqb s1 ":" Hs1 eq_refl), (digit_eqb s2 ":" Hs2 eq_refl).
    change (Ascii.eqb ":" ":") with true.
    cbn [nth map Str.split]. reflexivity. }
  rewrite Hp.
  assert (E1 : (Js.mul (Js.round64 (inject_Z h)) 3600 == inject_Z (h * 3600))%Q)
    by (apply (mul_int h 3600); lia).
  assert (E2 : (Js.mul (Js.round64 (inject_Z m)) 60 == inject_Z (m * 60))%Q)
    by (apply (mul_int m 60); lia).
  assert (E3 : (Js.round64 (inject_Z sec) == inject_Z sec)%Q) by (apply round64_int; lia).
  assert (E4 : (Js.round64 (inject_Z ms) == inject_Z ms)%Q) by (apply round64_int; lia).
  pose proof (add_int _ _ _ _ E1 E2 ltac:(lia)) as E12.
  pose proof (add_int _ _ _ _ E12 E3 ltac:(lia)) as E123.
  unfold Js.add at 1. unfold Js.div.
  rewrite (round64_comp (Js.round64 (inject_Z ms) / 1000) (inject_Z ms / 1000))
    by (rewrite E4; reflexivity).
  apply round64_comp. rewrite E123. reflexivity.
Qed.

(** X5: on every time stamp that the cue pattern captures,
    [parseSrtTime] adds hours * 3600 + minutes * 60 + seconds, a whole
    number, and milliseconds / 1000 for the four numbers written in it,
    rounding the quotient and then the sum to binary64: the result is
    within [2^-34] of the seconds that are written, it is the whole
    number when the milliseconds are 0, and it is not always the binary64
    number nearest to what is written (for [00:00:01,118] it is the one
    below).  The fields are two, two, two and three digits wide, so that
    minutes and seconds up to 99 are accepted. *)
Theorem X5_parseSrtTime_of_timestamp (s t r : string) :
  Importer.timestamp s = Some (t, r) →
  ∃ h m sec ms : Z,
    h = Str.digitsValue (substring 0 2 t)
    ∧ m = Str.digitsValue (substring 3 2 t)
    ∧ sec = Str.digitsValue (substring 6 2 t)
    ∧ ms = Str.digitsValue (substring 9 3 t)
    ∧ 0 ≤ h ≤ 99 ∧ 0 ≤ m ≤ 99 ∧ 0 ≤ sec ≤ 99 ∧ 0 ≤ ms ≤ 999
    ∧ Importer.parseSrtTime t
      = Js.round64 (inject_Z (h * 3600 + m * 60 + sec) + Js.round64 (inject_Z ms / 1000))
    ∧ (inject_Z (h * 3600000 + m * 60000 + sec * 1000 + ms) * (1 # 1000) - Js.pow2 (-34)
       <= Importer.parseSrtTime t)%Q
    ∧ (Importer.parseSrtTime t
       <= inject_Z (h * 3600000 + m * 60000 + sec * 1000 + ms) * (1 # 1000) + Js.pow2 (-34))%Q
    ∧ (ms = 0 → (Importer.parseSrtTime t == inject_Z (h * 3600 + m * 60 + sec))%Q)
    ∧ (Importer.parseSrtTime "00:00:01,118" < Js.round64 (1118 # 1000))%Q.
Proof.
  intros H. destruct (parseSrtTime_stamp s t r H) as ((Bh & Bm & Bs & Bx) & Hp).
  cbv zeta in Bh, Bm, Bs, Bx, Hp.
  eexists _, _, _, _.
  split; [reflexivity|]. split; [reflexivity|]. split; [reflexivity|].
  split; [reflexivity|].
  set (h := Str.digitsValue (substring 0 2 t)) in *.
  set (m := Str.digitsValue (substring 3 2 t)) in *.
  set (sec := Str.digitsValue (substring 6 2 t)) in *.
  set (ms := Str.digitsValue (substring 9 3 t)) in *.
  split; [exact Bh|]. split; [exact Bm|]. split; [exact Bs|]. split; [exact Bx|].
  split; [exact Hp|].
  destruct (stamp_seconds_error (h * 3600 + m * 60 + sec) ms ltac:(lia) ltac:(lia)) as [L U].
  cbv zeta in L, U. rewrite <- Hp in L, U.
  replace ((h * 3600 + m * 60 + sec) * 1000 + ms)
    with (h * 3600000 + m * 60000 + sec * 1000 + ms) in L, U by lia.
  split; [exact L|]. split; [exact U|].
  split.
  - intros Hms. rewrite Hp, Hms.
    rewrite (round64_comp _ (inject_Z (h * 3600 + m * 60 + sec))).
    + apply round64_int. lia.
    + assert (Z0 : (inject_Z 0 / 1000 == 0)%Q) by reflexivity.
      rewrite (round64_zero _ Z0). ring.
  - vm_compute. reflexivity.
Qed.

End StampFacts.

Section SubtitleFacts.

Import Subtitles.

Variable gen : nat → string.














End SubtitleFacts.


Section CueFacts.

Variable gen : nat → string.

Lemma digitThenNewline_tail (c : ascii) (s : string) :
  Text.digitThenNewline (String c s) = false → Text.digitThenNewline s = false.
Proof.
  destruct s as [|c' s']; [reflexivity|].
  cbn [Text.digitThenNewline]. intros H. apply orb_false_iff in H as [_ H]. exact H.
Qed.

Lemma spanDigits_rest_empty (s d r : string) :
  Str.spanDigits s = (d, r) → Str.isEmpty d = true → r = s.
Proof.
  destruct s as [|c s']; cbn [Str.spanDigits].
  - intros H _. injection H as _ <-. reflexivity.
  - destruct (Str.isDigit c).
    + destruct (Str.spanDigits s') as [d' r']. intros H. injection H as <- _. discriminate.
    + intros H _. injection H as _ <-. reflexivity.
Qed.

Lemma digits_then_newline (s : string) : ∀ d r r',
  Str.spanDigits s = (d, r) → Str.isEmpty d = false →
  Str.lit Importer.nl r = Some r' → Text.digitThenNewline s = true.
Proof.
  induction s as [|c s' IH]; intros d r r' Hs Hd Hl; cbn [Str.spanDigits] in Hs.
  - injection Hs as <- _. discriminate.
  - destruct (Str.isDigit c) eqn:Hc; [|injection Hs as <- _; discriminate].
    destruct (Str.spanDigits s') as [d' r0] eqn:Hs'. injection Hs as _ ->.
    destruct (Str.isEmpty d') eqn:Hd'.
    + pose proof (spanDigits_rest_empty _ _ _ Hs' Hd') as ->.
      destruct s' as [|c' s'']; [discriminate|].
      cbn [Str.lit] in Hl. destruct (Ascii.eqb Importer.nl c') eqn:Hc'; [|discriminate].
      apply Ascii.eqb_eq in Hc'. subst c'.
      cbn [Text.digitThenNewline]. rewrite Hc. reflexivity.
    + pose proof (IH _ _ _ eq_refl Hd' Hl) as Ht.
      destruct s' as [|c' s'']; [discriminate|].
      change (Text.digitThenNewline (String c (String c' s'')))
        with ((Str.isDigit c && Ascii.eqb c' "010") || Text.digitThenNewline (String c' s'')).
      rewrite Ht. apply orb_true_r.
Qed.

Lemma cueMatch_none (s : string) :
  Text.digitThenNewline s = false → Importer.cueMatch s = None.
Proof.
  intros H. unfold Importer.cueMatch, Str.digits1.
  destruct (Str.spanDigits s) as [d r] eqn:Hs.
  destruct (Str.isEmpty d) eqn:Hd; [reflexivity|].
  cbn. destruct (Str.lit Importer.nl r) as [r'|] eqn:Hl; [|reflexivity].
  rewrite (digits_then_newline _ _ _ _ Hs Hd Hl) in H. discriminate.
Qed.

Lemma cues_none (s : string) : ∀ k,
  Text.digitThenNewline s = false → Importer.cues k s = [].
Proof.
  induction s as [|c s' IH]; intros k H; [reflexivity|].
  cbn [Importer.cues]. destruct k as [|k].
  - rewrite (cueMatch_none _ H). apply IH. exact (digitThenNewline_tail _ _ H).
  - apply IH. exact (digitThenNewline_tail _ _ H).
Qed.

(** X4: a transcript in which no digit stands right before a newline
    holds no cue (a file with CR LF line ends is one): the SRT path of
    [processContent] hands on the empty list, whereas [handleTranscribe]
    leaves the sentences of the page as they were. *)
Theorem X4_srt_without_cue (content : string) (before : list Sentence) :
  Text.digitThenNewline content = false →
  Importer.processContent gen content true = []
  ∧ Importer.handleTranscribe gen before content = before.
Proof.
  intros H. unfold Importer.processContent, Importer.srtSentences,
    Importer.handleTranscribe.
  rewrite (cues_none _ 0%nat H). split; reflexivity.
Qed.

End CueFacts.

(** ** The times of an import *)

Section TimesFacts.

Import Importer.

Variable gen : nat → string.

(** Below [2^46] two numbers of hundredths are told apart by the
    binary64 numbers nearest to them. *)
Lemma round64_hundredths_lt (a b : Z) :
  0 ≤ a → 0 ≤ b → (a # 100 < Js.pow2 46)%Q → (b # 100 < Js.pow2 46)%Q →
  (Js.round64 (a # 100) < Js.round64 (b # 100))%Q ↔ a < b.
Proof.
  intros Ha Hb La Lb. split.
  - intros Hlt. destruct (Z_lt_ge_dec a b) as [H|H]; [exact H|exfalso].
    assert (Hle : (b # 100 <= a # 100)%Q) by (unfold Qle; cbn; lia).
    pose proof (round64_le _ _ Hle). lra.
  - intros Hlt.
    assert (Hle : (a # 100 <= b # 100)%Q) by (unfold Qle; cbn; lia).
    pose proof (round64_le _ _ Hle) as Hr.
    destruct (Qlt_le_dec (Js.round64 (a # 100)) (Js.round64 (b # 100))) as [H|H];
      [exact H|exfalso].
    assert (E : (Js.round64 (a # 100) == Js.round64 (b # 100))%Q) by lra.
    pose proof (hundredths_of_rounded a Ha La) as Fa.
    pose proof (hundredths_of_rounded b Hb Lb) as Fb.
    rewrite (Qfloor_comp _ (Js.round64 (b # 100) * 100 + (1 # 2))%Q) in Fa
      by (rewrite E; reflexivity).
    lia.
Qed.

Lemma cueMatch_stamps (s t1 t2 txt : string) (len : nat) :
  cueMatch s = Some (t1, t2, txt, len) →
  ∃ r1 r1' r2 r2', timestamp r1 = Some (t1, r1') ∧ timestamp r2 = Some (t2, r2').
Proof.
  unfold cueMatch. intros H.
  destruct (Str.digits1 s) as [[idx r0]|]; cbn [mbind option_bind] in H; [|discriminate].
  destruct (Str.lit nl r0) as [r1|]; cbn [mbind option_bind] in H; [|discriminate].
  destruct (timestamp r1) as [[u1 r1']|] eqn:H1; cbn [mbind option_bind] in H; [|discriminate].
  destruct (Str.lits " --> " r1') as [r2|]; cbn [mbind option_bind] in H; [|discriminate].
  destruct (timestamp r2) as [[u2 r2']|] eqn:H2; cbn [mbind option_bind] in H; [|discriminate].
  destruct (Str.lit nl r2') as [r3|]; cbn [mbind option_bind] in H; [|discriminate].
  injection H as <- <- _ _. exists r1, r1', r2, r2'. split; assumption.
Qed.

(** Every cue that the loop finds holds two time stamps of the pattern. *)
Lemma cues_stamps (s : string) :
  ∀ (skip i : nat) (t1 t2 txt : string),
  cues skip s !! i = Some (t1, t2, txt) →
  ∃ r1 r1' r2 r2', timestamp r1 = Some (t1, r1') ∧ timestamp r2 = Some (t2, r2').
Proof.
  induction s as [|c s IH]; intros skip i t1 t2 txt H; [discriminate|].
  cbn [cues] in H. destruct skip as [|k]; [|exact (IH _ _ _ _ _ H)].
  destruct (cueMatch (String c s)) as [[[[u1 u2] utxt] len]|] eqn:Hm;
    [|exact (IH _ _ _ _ _ H)].
  destruct i as [|i].
  - cbn in H. injection H as <- <- <-. exact (cueMatch_stamps _ _ _ _ _ Hm).
  - exact (IH _ _ _ _ _ H).
Qed.

(** The seconds of a time stamp of the pattern are those of the
    milliseconds that it writes, and in the same order. *)
Lemma parseSrtTime_millis (s t r : string) :
  timestamp s = Some (t, r) →
  ∃ w ms, 0 ≤ w < 2 ^ 19 - 1 ∧ 0 ≤ ms < 1000
    ∧ stampMillis t = w * 1000 + ms
    ∧ parseSrtTime t = Js.round64 (inject_Z w + Js.round64 (inject_Z ms / 1000)).
Proof.
  intros H. destruct (parseSrtTime_stamp s t r H) as ((Bh & Bm & Bs & Bx) & Hp).
  cbv zeta in Bh, Bm, Bs, Bx, Hp.
  exists (Str.digitsValue (substring 0 2 t) * 3600
          + Str.digitsValue (substring 3 2 t) * 60
          + Str.digitsValue (substring 6 2 t)),
         (Str.digitsValue (substring 9 3 t)).
  split; [lia|]. split; [lia|]. split; [unfold stampMillis; lia|exact Hp].
Qed.

Lemma parseSrtTime_order (s1 t1 r1 s2 t2 r2 : string) :
  timestamp s1 = Some (t1, r1) → timestamp s2 = Some (t2, r2) →
  (parseSrtTime t1 < parseSrtTime t2)%Q ↔ stampMillis t1 < stampMillis t2.
Proof.
  intros H1 H2.
  destruct (parseSrtTime_millis _ _ _ H1) as (w1 & m1 & Bw1 & Bm1 & M1 & P1).
  destruct (parseSrtTime_millis _ _ _ H2) as (w2 & m2 & Bw2 & Bm2 & M2 & P2).
  rewrite M1, M2, P1, P2. split.
  - intros Hlt. destruct (Z_lt_ge_dec (w1 * 1000 + m1) (w2 * 1000 + m2)) as [H|H];
      [exact H|exfalso].
    destruct (Z.eq_dec (w1 * 1000 + m1) (w2 * 1000 + m2)) as [E|E].
    + assert (w1 = w2) by lia. assert (m1 = m2) by lia. subst. lra.
    + pose proof (stamp_seconds_lt w2 m2 w1 m1 Bw2 Bm2 Bw1 Bm1 ltac:(lia)). lra.
  - apply stamp_seconds_lt; assumption.
Qed.

(** C5, amended: a sentence synthesized for a free line of plain-text
    import ends after it starts, as long as the time so far is below
    [2^44] seconds.  A sentence of a marked line has the binary64 numbers
    nearest to the two decimals that the line writes (decimals below
    [2^1023]), unchecked: it ends after it starts only if the decimal
    written as the end is the greater one, and for two decimals written
    to hundredths, below [2^46], exactly then.  A sentence of a cue of subtitle import has the
    seconds that [parseSrtTime] makes of the two time stamps: it ends
    after it starts exactly when the milliseconds written as the end are
    more than those written as the start. *)
Theorem C5_times_after_import (content : string) :
  (∀ i l, contentLines content !! i = Some l →
     markerMatch (Str.trim l) = None →
     (endBefore 0 (parseTxtContent gen content) i < Js.pow2 44)%Q →
     ∃ s, parseTxtContent gen content !! i = Some s
          ∧ (startTime s < endTime s)%Q)
  ∧ (∀ i l m1 m2 m3, contentLines content !! i = Some l →
       markerMatch (Str.trim l) = Some (m1, m2, m3) →
       ∃ s, parseTxtContent gen content !! i = Some s
            ∧ ((Str.decimalValue m1 < Js.pow2 1023)%Q →
               (Str.decimalValue m2 < Js.pow2 1023)%Q →
               startTime s = Js.round64 (Str.decimalValue m1)
               ∧ endTime s = Js.round64 (Str.decimalValue m2)
               ∧ ((startTime s < endTime s)%Q →
                  (Str.decimalValue m1 < Str.decimalValue m2)%Q))
            ∧ (∀ a b, 0 ≤ a → 0 ≤ b →
                 (a # 100 < Js.pow2 46)%Q → (b # 100 < Js.pow2 46)%Q →
                 m1 = Text.fixed2 a → m2 = Text.fixed2 b →
                 startTime s = Js.round64 (a # 100)
                 ∧ endTime s = Js.round64 (b # 100)
                 ∧ ((startTime s < endTime s)%Q ↔ a < b)))
  ∧ length (parseTxtContent gen content) = length (contentLines content)
  ∧ (∀ i t1 t2 txt, cues 0 content !! i = Some (t1, t2, txt) →
       ∃ s, srtSentences gen content !! i = Some s
            ∧ (inject_Z (stampMillis t1) * (1 # 1000) - Js.pow2 (-34) <= startTime s)%Q
            ∧ (startTime s <= inject_Z (stampMillis t1) * (1 # 1000) + Js.pow2 (-34))%Q
            ∧ (inject_Z (stampMillis t2) * (1 # 1000) - Js.pow2 (-34) <= endTime s)%Q
            ∧ (endTime s <= inject_Z (stampMillis t2) * (1 # 1000) + Js.pow2 (-34))%Q
            ∧ ((startTime s < endTime s)%Q ↔ stampMillis t1 < stampMillis t2))
  ∧ length (srtSentences gen content) = length (cues 0 content).
Proof.
  split; [|split; [|split; [apply parseTxtContent_length|split]]].
  - intros i l Hl Hm Hlt. eexists. split; [apply parseTxtContent_lookup, Hl|].
    pose proof (endBefore_nonneg gen content i) as Hct.
    rewrite (lineSentence_free gen _ _ _ Hm). cbn [startTime endTime].
    destruct (duration_bounds (Str.trim l)) as [H2 H10].
    apply toFixed2_sum_lt; assumption.
  - intros i l m1 m2 m3 Hl Hm. eexists. split; [apply parseTxtContent_lookup, Hl|].
    unfold lineSentence. rewrite Hm. cbn [startTime endTime]. unfold Str.parseFloat.
    split.
    + intros _ _. split; [reflexivity|]. split; [reflexivity|].
      intros Hlt.
      destruct (Qlt_le_dec (Str.decimalValue m1) (Str.decimalValue m2)) as [H|H];
        [exact H|exfalso].
      pose proof (round64_le _ _ H). lra.
    + intros a b Ha Hb La Lb -> ->.
      rewrite (decimalValue_fixed2 a Ha), (decimalValue_fixed2 b Hb).
      split; [reflexivity|]. split; [reflexivity|].
      apply round64_hundredths_lt; assumption.
  - intros i t1 t2 txt Hc. unfold srtSentences. rewrite list_lookup_imap, Hc.
    eexists. split; [reflexivity|]. cbn [cueSentence startTime endTime].
    destruct (cues_stamps content 0 i t1 t2 txt Hc) as (r1 & r1' & r2 & r2' & H1 & H2).
    destruct (parseSrtTime_millis _ _ _ H1) as (w1 & x1 & Bw1 & Bx1 & M1 & P1).
    destruct (parseSrtTime_millis _ _ _ H2) as (w2 & x2 & Bw2 & Bx2 & M2 & P2).
    destruct (stamp_seconds_error w1 x1 Bw1 Bx1) as [L1 U1].
    destruct (stamp_seconds_error w2 x2 Bw2 Bx2) as [L2 U2].
    cbv zeta in L1, U1, L2, U2. rewrite <- P1 in L1, U1. rewrite <- P2 in L2, U2.
    rewrite <- M1 in L1, U1. rewrite <- M2 in L2, U2.
    split; [exact L1|]. split; [exact U1|]. split; [exact L2|]. split; [exact U2|].
    exact (parseSrtTime_order _ _ _ _ _ _ H1 H2).
  - unfold srtSentences. apply length_imap.
Qed.

End TimesFacts.

(** C5 fails on a marked line and on a cue: the end that the input writes
    is below the start, and so it is in the sentence.  It fails on a free
    line as well, far out: after a marked line that ends at [10^17]
    seconds, where the binary64 numbers are 16 apart, the 2 seconds of
    the free line are lost in the sum and it ends where it starts. *)
Lemma C5_written_end_below_start :
  (∃ s, s ∈ Importer.processContent Sample.ids Sample.backwards_txt false
        ∧ startTime s = 5%Q ∧ endTime s = 3%Q ∧ ¬ (endTime s > startTime s)%Q)
  ∧ (∃ s, s ∈ Importer.processContent Sample.ids Sample.backwards_srt true
          ∧ startTime s = 5%Q ∧ endTime s = 3%Q
          ∧ ¬ (endTime s > startTime s)%Q)
  ∧ (∃ s, Importer.processContent Sample.ids Sample.far_then_free false !! 1%nat = Some s
          ∧ Importer.markerMatch (Str.trim "b") = None
          ∧ startTime s = inject_Z (10 ^ 17) ∧ endTime s = inject_Z (10 ^ 17)
          ∧ ¬ (endTime s > startTime s)%Q).
Proof.
  split; [|split].
  - eexists. split; [apply list_elem_of_singleton; vm_compute; reflexivity|].
    repeat split. intros H. discriminate H.
  - eexists. split; [apply list_elem_of_singleton; vm_compute; reflexivity|].
    repeat split. intros H. discriminate H.
  - eexists. split; [vm_compute; reflexivity|].
    repeat split. intros H. vm_compute in H. discriminate H.
Qed.

Lemma C5_witness :
  ∃ s, Importer.parseTxtContent Sample.ids Sample.two_free !! 0%nat = Some s
       ∧ (startTime s < endTime s)%Q.
Proof.
  exact (proj1 (C5_times_after_import Sample.ids Sample.two_free) 0%nat "hello"%string
               eq_refl eq_refl ltac:(vm_compute; reflexivity)).
Defined.

(** ** More of the engine *)

Section MoreEngineFacts.

Import Engine.

Ltac setters :=
  unfold timerCallback, handleSentenceClick, setTimeout, setIsDelaying,
    setCurrentLoop, setCurrentSentenceId, setSettings, dropTimer,
    mediaPlay, mediaSeek, mediaPause, mediaAdvance;
  cbn.

(** Cycles, one after the other. *)
Lemma run_cycles (ts : list Q) : ∀ st cs,
  activeSentence (page st) = Some cs →
  isDelaying (player st) = false →
  timers st = [] →
  Forall (λ t, (endTime cs <= t)%Q) ts →
  (∀ j, (j < length ts)%nat →
        belowBudget (currentLoop (player st) + Z.of_nat j)
                    (maxLoops (settings (page st))) = true) →
  let st' := run st (Scenario.cycles ts) in
  page st' = page st
  ∧ player st' = mkPlayer (currentLoop (player st) + Z.of_nat (length ts)) false
  ∧ timers st' = []
  ∧ calls st' = calls st ++ Scenario.cycleCalls (length ts) (startTime cs).
Proof.
  induction ts as [|t ts IH]; intros st cs Ha Hd Ht Hts Hb; cbv zeta.
  - cbn. rewrite Z.add_0_r, app_nil_r. repeat split; [|exact Ht].
    destruct st as [pg [cl dl] md ti ca]. cbn in *. rewrite Hd. reflexivity.
  - inversion Hts as [|? ? Hc Hts']; subst.
    change (Scenario.cycles (t :: ts))
      with ([TimeUpdate t; TimerFires 0] ++ Scenario.cycles ts).
    rewrite run_app. cbn [run fold_left].
    pose proof (loop_cycle st t cs Ha Hd Hc) as E.
    rewrite Ht in E. cbn [length] in E.
    rewrite E by (rewrite <- (Z.add_0_r (currentLoop (player st))); apply (Hb 0%nat); cbn; lia).
    clear E.
    match goal with |- context [run ?x (Scenario.cycles ts)] => set (st2 := x) end.
    destruct (IH st2 cs Ha eq_refl eq_refl Hts') as (Hpg & Hpl & Hti & Hca).
    { intros j Hj. cbn [st2 player currentLoop page].
      replace (currentLoop (player st) + 1 + Z.of_nat j)
        with (currentLoop (player st) + Z.of_nat (S j)) by lia.
      apply Hb. cbn. lia. }
    rewrite Hpg, Hpl, Hti, Hca.
    cbn [st2 page player currentLoop calls length Scenario.cycleCalls].
    repeat split.
    + f_equal. lia.
    + rewrite <- app_assoc. reflexivity.
Qed.

Lemma belowBudget_finite (n c : Z) : belowBudget c (Finite n) = (c <? n - 1).
Proof. reflexivity. Qed.

(** X6: with a loop count N of 1 or more, a sentence is played N times.
    From the mounted player, N - 1 crossings of the end, each followed by
    its timer, leave N - 1 loops counted, no delay and no timer pending,
    and the media element has been paused, moved to the start and started
    N - 1 times; at the next crossing no timer is scheduled and the count
    is back at 0, and with [autoPlayNext] off the element is paused at
    the start of the sentence. *)
Theorem X6_sentence_is_played_N_times
    (ss : list Sentence) (cur : option string) (settings : PlaybackSettings)
    (cs : Sentence) (t0 : Q) (ts : list Q) (t : Q) :
  activeSentence (mkPage ss cur settings) = Some cs →
  1 ≤ loopCountOption settings →
  Z.of_nat (length ts) = loopCountOption settings - 1 →
  Forall (λ u, (endTime cs <= u)%Q) ts →
  (endTime cs <= t)%Q →
  let st := run (playing ss cur settings t0) (Scenario.cycles ts) in
  player st = mkPlayer (loopCountOption settings - 1) false
  ∧ calls st = Scenario.cycleCalls (length ts) (startTime cs)
  ∧ timers st = []
  ∧ timers (step st (TimeUpdate t)) = []
  ∧ player (step st (TimeUpdate t)) = mkPlayer 0 false
  ∧ (autoPlayNext settings = false →
       calls (step st (TimeUpdate t)) = calls st ++ [Pause; Seek (startTime cs)]
       ∧ media (step st (TimeUpdate t)) = mkMedia true (startTime cs)).
Proof.
  intros Ha HN Hlen Hts Hc. cbv zeta.
  set (st0 := playing ss cur settings t0).
  assert (Hmax : maxLoops settings = Finite (loopCountOption settings)).
  { unfold maxLoops. destruct (Z.eqb_spec (loopCountOption settings) (-1)); [lia|reflexivity]. }
  destruct (run_cycles ts st0 cs Ha eq_refl eq_refl Hts) as (Hpg & Hpl & Hti & Hca).
  { intros j Hj. cbn [st0 playing page player currentLoop Engine.settings].
    rewrite Hmax, belowBudget_finite. apply Z.ltb_lt. lia. }
  set (st := run st0 (Scenario.cycles ts)) in *.
  cbn [st0 playing player currentLoop calls app] in Hpl, Hca.
  assert (Ha' : activeSentence (page st) = Some cs) by (rewrite Hpg; exact Ha).
  assert (Hd' : isDelaying (player st) = false) by (rewrite Hpl; reflexivity).
  assert (Hb' : belowBudget (currentLoop (player st)) (maxLoops (Engine.settings (page st)))
                = false).
  { rewrite Hpl, Hpg. cbn [st0 playing page Engine.settings currentLoop].
    rewrite Hmax, belowBudget_finite. apply Z.ltb_ge. lia. }
  destruct (step_crossing_exhausted st t cs Ha' Hd' Hc Hb') as [Ht' Hp'].
  split; [rewrite Hpl; f_equal; lia|]. split; [exact Hca|]. split; [exact Hti|].
  split; [rewrite Ht'; exact Hti|]. split; [exact Hp'|].
  intros Hn.
  rewrite (step_crossing_stop st t cs Ha' Hd' Hc Hb'
             ltac:(rewrite Hpg; exact Hn)).
  split; reflexivity.
Qed.

(** X7: with the loop count option -1 the sentence repeats without end:
    after any number of crossings, each followed by its timer, the count
    equals that number, the same sentence is selected, no timer is
    pending, and the count is still below the budget, so that the next
    crossing schedules a replay again. *)
Theorem X7_infinite_option_never_ends
    (ss : list Sentence) (cur : option string) (settings : PlaybackSettings)
    (cs : Sentence) (t0 : Q) (ts : list Q) :
  activeSentence (mkPage ss cur settings) = Some cs →
  loopCountOption settings = -1 →
  Forall (λ u, (endTime cs <= u)%Q) ts →
  let st := run (playing ss cur settings t0) (Scenario.cycles ts) in
  player st = mkPlayer (Z.of_nat (length ts)) false
  ∧ calls st = Scenario.cycleCalls (length ts) (startTime cs)
  ∧ timers st = []
  ∧ currentSentenceId (page st) = cur
  ∧ belowBudget (currentLoop (player st)) (maxLoops (Engine.settings (page st))) = true.
Proof.
  intros Ha HN Hts. cbv zeta.
  set (st0 := playing ss cur settings t0).
  assert (Hmax : maxLoops settings = Infinity) by (unfold maxLoops; rewrite HN; reflexivity).
  destruct (run_cycles ts st0 cs Ha eq_refl eq_refl Hts) as (Hpg & Hpl & Hti & Hca).
  { intros j Hj. cbn [st0 playing page Engine.settings]. rewrite Hmax. reflexivity. }
  rewrite Hpg, Hpl. cbn [st0 playing page player currentLoop Engine.settings
                           currentSentenceId] in *.
  rewrite Hmax. repeat split; [exact Hca|exact Hti].
Qed.


(** *** Awaiting the delay *)

Lemma player_render_same (st0 st : State) :
  isDelaying (player (render st0 st)) = true →
  player (render st0 st) = player st.
Proof.
  unfold render. destruct (_ =? _); [reflexivity|].
  rewrite player_sentenceEffect. discriminate.
Qed.

Lemma player_handlePrev st : player (handlePrev st) = player st.
Proof.
  unfold handlePrev. destruct (_ <? _); [|reflexivity].
  destruct (_ !! _); reflexivity.
Qed.

Lemma awaiting_step (st : State) (ev : Event) :
  (isDelaying (player st) = true → timers st ≠ []) →
  isDelaying (player (step st ev)) = true → timers (step st ev) ≠ [].
Proof.
  intros Inv. destruct ev as [t|n|s| | |s']; cbn [step].
  - intros Hd. pose proof (player_render_same _ _ Hd) as Hp.
    rewrite Hp in Hd. rewrite timers_render. revert Hd.
    unfold handleTimeUpdate. cbn [page media mediaAdvance currentTime player].
    destruct (activeSentence (page st)) as [cs|]; [|exact Inv].
    destruct (isDelaying (player st)) eqn:Hdl; cbn [negb]; [intros _; apply Inv; reflexivity|].
    destruct (Js.le _ _); [|cbn; congruence].
    cbv zeta. destruct (belowBudget _ _).
    + intros _. cbn. intros H. apply app_eq_nil in H as [_ H]. discriminate H.
    + destruct (_ && _).
      * unfold setCurrentLoop. cbn [player isDelaying].
        rewrite player_handleNext. cbn. congruence.
      * cbn. congruence.
  - destruct (timers st !! n); [cbn; discriminate|exact Inv].
  - intros Hd. pose proof (player_render_same _ _ Hd) as Hp.
    rewrite Hp in Hd. rewrite timers_render. exact (Inv Hd).
  - intros Hd. pose proof (player_render_same _ _ Hd) as Hp.
    rewrite Hp in Hd. rewrite timers_render, timers_handlePrev.
    rewrite player_handlePrev in Hd. exact (Inv Hd).
  - intros Hd. pose proof (player_render_same _ _ Hd) as Hp.
    rewrite Hp in Hd. rewrite timers_render, timers_handleNext.
    rewrite player_handleNext in Hd. exact (Inv Hd).
  - exact Inv.
Qed.

(** X8: whatever happens to the mounted player (time updates, timers
    firing, clicks, the two arrows, changes of the settings), while
    [isDelaying] is set a timer is pending: the player does not wait for
    a replay that never comes. *)
Theorem X8_awaiting_has_a_timer
    (ss : list Sentence) (cur : option string) (settings : PlaybackSettings)
    (t0 : Q) (evs : list Event) :
  let st := run (playing ss cur settings t0) evs in
  isDelaying (player st) = true → timers st ≠ [].
Proof.
  cbv zeta. unfold run.
  assert (Hgen : ∀ st, (isDelaying (player st) = true → timers st ≠ []) →
                       isDelaying (player (fold_left step evs st)) = true →
                       timers (fold_left step evs st) ≠ []).
  { induction evs as [|ev evs IH]; intros st Inv; [exact Inv|].
    cbn [fold_left]. apply IH, awaiting_step, Inv. }
  apply Hgen. cbn. discriminate.
Qed.

(** *** Clicks and the two arrows *)

Lemma active_has_id (p : Page) (s : Sentence) :
  activeSentence p = Some s → currentSentenceId p = Some (id s).
Proof.
  unfold activeSentence. intros H. apply find_some in H as [_ H].
  unfold hasId in H. destruct (currentSentenceId p) as [c|]; [|discriminate].
  apply String.eqb_eq in H. rewrite H. reflexivity.
Qed.

(** X11: a click on the sentence that is active already seeks to its
    start and plays, and leaves everything else alone: the effect on a
    change of sentence does not run, so that the loops counted so far and
    a delay that is awaited are kept, and the pending timers stay. *)
Theorem X11_click_on_active_sentence (st : State) (s : Sentence) :
  activeSentence (page st) = Some s →
  step st (Click s) =
    mkState (page st) (player st) (mkMedia false (startTime s)) (timers st)
            (calls st ++ [Seek (startTime s); Play]).
Proof.
  intros Ha. pose proof (active_has_id _ _ Ha) as Hid.
  cbn [step]. unfold render, handleSentenceClick.
  assert (Hpg : page (setCurrentSentenceId (Some (id s)) st) = page st).
  { destruct st as [[sents cid sett] pl md ti ca]. cbn in *. rewrite Hid. reflexivity. }
  assert (Hst : mediaPlay (mediaSeek (startTime s) (setCurrentSentenceId (Some (id s)) st))
                = mkState (page st) (player st) (mkMedia false (startTime s)) (timers st)
                          (calls st ++ [Seek (startTime s); Play])).
  { unfold mediaPlay, mediaSeek. cbn. rewrite <- app_assoc.
    change (mkPage (sentences (page st)) (Some (id s)) (settings (page st)))
      with (page (setCurrentSentenceId (Some (id s)) st)).
    rewrite Hpg. reflexivity. }
  rewrite Hst. cbn [page]. rewrite Z.eqb_refl. reflexivity.
Qed.

Lemma currentIndex_unique (ss : list Sentence) (i : nat) (s : Sentence) :
  NoDup (map id ss) → ss !! i = Some s →
  findIndex (hasId (Some (id s))) ss = Z.of_nat i.
Proof.
  intros Hnd Hi. apply (findIndex_first _ _ i s Hi).
  - cbn. apply String.eqb_refl.
  - intros j y Hj Hy. cbn. apply String.eqb_neq. intros Heq.
    assert (j = i); [|lia].
    apply (NoDup_lookup _ _ _ (id y) Hnd).
    + rewrite list_lookup_fmap, Hy. reflexivity.
    + rewrite list_lookup_fmap, Hi, Heq. reflexivity.
Qed.

(** X12: with identifiers that are all different, the next arrow
    selects the sentence after the active one and plays from its start,
    and the previous arrow then selects the first of the two again and
    plays from its start. *)
Theorem X12_next_then_previous (st : State) (i : nat) (s s' : Sentence) :
  NoDup (map id (sentences (page st))) →
  sentences (page st) !! i = Some s →
  sentences (page st) !! S i = Some s' →
  currentSentenceId (page st) = Some (id s) →
  currentSentenceId (page (handleNext st)) = Some (id s')
  ∧ media (handleNext st) = mkMedia false (startTime s')
  ∧ currentSentenceId (page (handlePrev (handleNext st))) = Some (id s)
  ∧ media (handlePrev (handleNext st)) = mkMedia false (startTime s).
Proof.
  intros Hnd Hi Hi' Hcur.
  assert (Hidx : currentIndex (page st) = Z.of_nat i)
    by (unfold currentIndex; rewrite Hcur; apply currentIndex_unique; assumption).
  assert (Hnext : handleNext st = handleSentenceClick s' st).
  { unfold handleNext. rewrite Hidx.
    apply lookup_lt_Some in Hi' as Hlt.
    destruct (Z.ltb_spec (Z.of_nat i) (Z.of_nat (length (sentences (page st))) - 1)); [|lia].
    replace (Z.to_nat (Z.of_nat i + 1)) with (S i) by lia. rewrite Hi'. reflexivity. }
  rewrite Hnext.
  assert (Hidx' : currentIndex (page (handleSentenceClick s' st)) = Z.of_nat (S i))
    by (unfold currentIndex; cbn; apply currentIndex_unique; assumption).
  assert (Hprev : handlePrev (handleSentenceClick s' st)
                  = handleSentenceClick s (handleSentenceClick s' st)).
  { unfold handlePrev. rewrite Hidx'.
    destruct (Z.ltb_spec 0 (Z.of_nat (S i))); [|lia].
    replace (Z.to_nat (Z.of_nat (S i) - 1)) with i by lia.
    change (sentences (page (handleSentenceClick s' st))) with (sentences (page st)).
    rewrite Hi. reflexivity. }
  rewrite Hprev. repeat split.
Qed.

(** X13: the arrows at the ends of the list: next on the last sentence
    and previous on the first one (or with nothing selected) change
    nothing; next with nothing selected acts as a click on the first
    sentence; on an empty list both do nothing. *)
Theorem X13_arrows_at_the_ends (st : State) :
  (currentIndex (page st) = Z.of_nat (length (sentences (page st))) - 1 →
     handleNext st = st)
  ∧ (currentIndex (page st) ≤ 0 → handlePrev st = st)
  ∧ (currentSentenceId (page st) = None →
     handlePrev st = st
     ∧ ∀ s, sentences (page st) !! 0%nat = Some s →
            handleNext st = handleSentenceClick s st)
  ∧ (sentences (page st) = [] → handleNext st = st ∧ handlePrev st = st).
Proof.
  assert (Hnone : currentSentenceId (page st) = None → currentIndex (page st) = -1).
  { intros Hc. unfold currentIndex. rewrite Hc. apply findIndex_none. reflexivity. }
  split; [|split; [|split]].
  - intros H. unfold handleNext. rewrite H, Z.ltb_irrefl. reflexivity.
  - intros H. unfold handlePrev.
    destruct (Z.ltb_spec 0 (currentIndex (page st))); [lia|reflexivity].
  - intros Hc. split.
    + unfold handlePrev. rewrite (Hnone Hc). reflexivity.
    + intros s Hs. unfold handleNext. rewrite (Hnone Hc).
      apply lookup_lt_Some in Hs as Hlt.
      destruct (Z.ltb_spec (-1) (Z.of_nat (length (sentences (page st))) - 1)); [|lia].
      change (Z.to_nat (-1 + 1)) with 0%nat. rewrite Hs. reflexivity.
  - intros Hss. unfold handleNext, handlePrev, currentIndex. rewrite Hss. cbn.
    split; reflexivity.
Qed.

End MoreEngineFacts.


Section QuietFacts.

Import Engine.

Lemma render_same_page (st0 st : State) :
  page st = page st0 → render st0 st = st.
Proof. intros H. unfold render. rewrite H, Z.eqb_refl. reflexivity. Qed.

Lemma step_unselected (st : State) (t : Q) :
  activeSentence (page st) = None →
  step st (TimeUpdate t) =
    mkState (page st) (player st) (mkMedia true t) (timers st) (calls st ++ [Pause]).
Proof.
  intros Ha. cbn [step]. unfold handleTimeUpdate.
  cbn [page mediaAdvance]. rewrite Ha.
  apply render_same_page. reflexivity.
Qed.

(** X10: when no sentence of the list is selected, every time update
    pauses the media element and does nothing else: after any stretch of
    updates the element is paused, [pause()] was called once per update,
    and the loop state, the timers and the page are as before. *)
Theorem X10_unselected_updates_pause (st : State) (us : list Q) (t : Q) :
  activeSentence (page st) = None →
  run st (plays us t) =
    mkState (page st) (player st) (mkMedia true t) (timers st)
            (calls st ++ repeat Pause (S (length us))).
Proof.
  unfold plays, run. revert st.
  induction us as [|u us IH]; intros st Ha.
  - cbn [map app fold_left]. rewrite (step_unselected _ _ Ha). reflexivity.
  - cbn [map app fold_left length]. rewrite (step_unselected _ _ Ha).
    rewrite IH by exact Ha. cbn [page player timers calls].
    rewrite <- app_assoc. reflexivity.
Qed.

Lemma step_delaying (st : State) (cs : Sentence) (t : Q) :
  activeSentence (page st) = Some cs →
  isDelaying (player st) = true →
  step st (TimeUpdate t) = mediaAdvance t st.
Proof.
  intros Ha Hd. cbn [step]. unfold handleTimeUpdate.
  cbn [page mediaAdvance player]. rewrite Ha, Hd. cbn [negb].
  apply render_same_page. reflexivity.
Qed.

(** X9: while the delay before a replay is awaited, time updates change
    nothing but the position: whatever positions are reported, no second
    timer is scheduled, nothing is asked of the media element, and the
    loop state stays. *)
Theorem X9_delay_ignores_updates (st : State) (cs : Sentence) (us : list Q) (t : Q) :
  activeSentence (page st) = Some cs →
  isDelaying (player st) = true →
  run st (plays us t) = mediaAdvance t st.
Proof.
  unfold plays, run. revert st.
  induction us as [|u us IH]; intros st Ha Hd.
  - cbn [map app fold_left]. apply (step_delaying _ _ _ Ha Hd).
  - cbn [map app fold_left]. rewrite (step_delaying _ _ _ Ha Hd).
    rewrite IH by assumption. reflexivity.
Qed.

End QuietFacts.

(** ** The page *)

Section EditFacts.

Lemma findIndex_ext {A B} (f : A → bool) (g : B → bool) (h : A → B) (l : list A) :
  (∀ x, g (h x) = f x) → Engine.findIndex g (map h l) = Engine.findIndex f l.
Proof.
  intros H. induction l as [|x l IH]; [reflexivity|].
  cbn [map Engine.findIndex]. rewrite H, IH. reflexivity.
Qed.

Lemma onUpdateSentence_ids (u : Sentence) (prev : list Sentence) :
  map id (PlayerPage.onUpdateSentence u prev) = map id prev.
Proof.
  unfold PlayerPage.onUpdateSentence. rewrite map_map. apply map_ext.
  intros s. destruct (String.eqb_spec (id s) (id u)) as [->|]; reflexivity.
Qed.

Lemma onUpdateSentence_other (u : Sentence) (prev : list Sentence) :
  (∀ s, s ∈ prev → id s ≠ id u) → PlayerPage.onUpdateSentence u prev = prev.
Proof.
  intros H. unfold PlayerPage.onUpdateSentence.
  induction prev as [|x l IH]; [reflexivity|]. cbn [map].
  destruct (String.eqb_spec (id x) (id u)) as [Heq|_].
  - exfalso. apply (H x); [left|exact Heq].
  - rewrite IH; [reflexivity|]. intros s Hs. apply H. right. exact Hs.
Qed.

(** X14: editing a sentence replaces it in place: with identifiers that
    are all different, [onUpdateSentence] with a record that has the
    identifier of the sentence at position [i] gives the list with that
    record at position [i] and every other sentence as before; the
    identifiers and their order stay, and so does the index of whichever
    sentence is selected. *)
Theorem X14_onUpdateSentence_replaces_in_place
    (u : Sentence) (prev : list Sentence) (i : nat) (s : Sentence) :
  NoDup (map id prev) → prev !! i = Some s → id s = id u →
  PlayerPage.onUpdateSentence u prev = <[i := u]> prev
  ∧ map id (PlayerPage.onUpdateSentence u prev) = map id prev
  ∧ ∀ cur, Engine.findIndex (Engine.hasId cur) (PlayerPage.onUpdateSentence u prev)
           = Engine.findIndex (Engine.hasId cur) prev.
Proof.
  intros Hnd Hi Hid. split; [|split].
  - revert i Hnd Hi. induction prev as [|x l IH]; intros i Hnd Hi; [discriminate|].
    inversion Hnd as [|? ? Hnotin Hnd']; subst.
    destruct i as [|i]; cbn in Hi.
    + injection Hi as ->. unfold PlayerPage.onUpdateSentence. cbn [map].
      rewrite Hid, String.eqb_refl. cbn. f_equal.
      apply onUpdateSentence_other. intros y Hy Heq. apply Hnotin.
      rewrite Hid, <- Heq. apply list_elem_of_fmap. exists y. split; [reflexivity|exact Hy].
    + unfold PlayerPage.onUpdateSentence. cbn [map].
      destruct (String.eqb_spec (id x) (id u)) as [Heq|_].
      * exfalso. apply Hnotin. rewrite Heq, <- Hid.
        apply list_elem_of_fmap. exists s. split; [reflexivity|].
        eapply list_elem_of_lookup_2. exact Hi.
      * cbn. f_equal. apply (IH i Hnd' Hi).
  - apply onUpdateSentence_ids.
  - intros cur. unfold PlayerPage.onUpdateSentence.
    apply findIndex_ext. intros y.
    destruct (String.eqb_spec (id y) (id u)) as [Heq|_]; [|reflexivity].
    destruct cur as [c|]; [|reflexivity]. cbn. rewrite Heq. reflexivity.
Qed.

End EditFacts.


Section ViewFacts.

Import Storage.

(** X25: the divider and the text size stay in range: from a split
    ratio strictly between 20 and 80 a mouse move gives one strictly
    between 20 and 80, and from a font size between 12 and 32 both buttons
    give one between 12 and 32; so neither is ever 0, and a page opened
    on the stored record starts with the stored values, not with the
    defaults. *)
Theorem X25_view_preferences_in_range
    (clientX containerWidth ratio : Q) (fontSize : Z) :
  (20 < ratio)%Q → (ratio < 80)%Q → 12 ≤ fontSize ≤ 32 →
  let ratio' := PlayerPage.handleMouseMove clientX containerWidth ratio in
  (20 < ratio')%Q ∧ (ratio' < 80)%Q
  ∧ 12 ≤ TextEditor.fontSmaller fontSize ≤ 32
  ∧ 12 ≤ TextEditor.fontLarger fontSize ≤ 32
  ∧ ∀ project ss cur t,
      let saved := PlayerPage.updatedProject project ss cur ratio'
                     (TextEditor.fontLarger fontSize) t in
      PlayerPage.initialSplitRatio saved = ratio'
      ∧ PlayerPage.initialFontSize saved = TextEditor.fontLarger fontSize.
Proof.
  intros Hlo Hhi Hf. cbv zeta.
  assert (Hr : (20 < PlayerPage.handleMouseMove clientX containerWidth ratio)%Q
               ∧ (PlayerPage.handleMouseMove clientX containerWidth ratio < 80)%Q).
  { unfold PlayerPage.handleMouseMove, Js.lt.
    set (newRatio := Js.mul (Js.div clientX containerWidth) 100).
    destruct (Qle_bool newRatio 20) eqn:H1; cbn [negb andb]; [split; assumption|].
    destruct (Qle_bool 80 newRatio) eqn:H2; cbn [negb]; [split; assumption|].
    split; apply Qnot_le_lt; intros H; apply Qle_bool_iff in H; congruence. }
  destruct Hr as [Hr1 Hr2].
  unfold TextEditor.fontSmaller, TextEditor.fontLarger.
  split; [exact Hr1|]. split; [exact Hr2|]. split; [lia|]. split; [lia|].
  intros project ss cur t. unfold PlayerPage.initialSplitRatio, PlayerPage.initialFontSize.
  cbn [splitRatio Storage.fontSize PlayerPage.updatedProject]. split.
  - destruct (Qeq_bool _ 0) eqn:He; [|reflexivity].
    apply Qeq_bool_eq in He. rewrite He in Hr1. discriminate Hr1.
  - destruct (Z.eqb_spec (Z.min 32 (fontSize + 2)) 0); [lia|reflexivity].
Qed.

End ViewFacts.

(** ** The theorems at work *)

Lemma X1_witness :
  ∃ content,
    TextEditor.handleDownloadTxt Examples.lesson = Some content
    ∧ Importer.processContent Sample.ids content false
      = imap (TextEditor.reimported Sample.ids) Examples.lesson.
Proof.
  apply (X1_export_then_import Sample.ids Examples.lesson); [discriminate|].
  repeat constructor; vm_compute; discriminate.
Defined.

Lemma X2_witness :
  TextEditor.handleDownloadTxt (imap (TextEditor.reimported Sample.ids) Examples.lesson)
  = TextEditor.handleDownloadTxt Examples.lesson.
Proof.
  apply (X2_export_is_stable Sample.ids Examples.lesson).
  - repeat constructor; vm_compute; discriminate.
  - repeat constructor.
  - apply List.Forall_cons; [|apply List.Forall_cons; [|apply List.Forall_nil]];
      split; vm_compute; reflexivity.
Defined.


Lemma X4_witness :
  Importer.processContent Sample.ids Examples.crlf_srt true = []
  ∧ Importer.handleTranscribe Sample.ids Examples.lesson Examples.crlf_srt
    = Examples.lesson.
Proof.
  apply (X4_srt_without_cue Sample.ids Examples.crlf_srt Examples.lesson).
  reflexivity.
Defined.

Lemma X5_witness :
  Importer.parseSrtTime "00:75:04,250"
  = Js.round64 (inject_Z 4504 + Js.round64 (inject_Z 250 / 1000)).
Proof.
  destruct (X5_parseSrtTime_of_timestamp "00:75:04,250" "00:75:04,250" "" eq_refl)
    as (h & m & sec & ms & -> & -> & -> & -> & _ & _ & _ & _ & H & _).
  exact H.
Defined.

Lemma X6_witness :
  let st := Engine.run (Engine.playing Examples.lesson (Some "a"%string) Sample.loop3 1)
                       (Scenario.cycles [2%Q; 2%Q]) in
  Engine.player st = Engine.mkPlayer 2 false
  ∧ Engine.calls st = Scenario.cycleCalls 2 1
  ∧ Engine.timers st = []
  ∧ Engine.timers (Engine.step st (Engine.TimeUpdate 2)) = []
  ∧ Engine.player (Engine.step st (Engine.TimeUpdate 2)) = Engine.mkPlayer 0 false
  ∧ (autoPlayNext Sample.loop3 = false →
       Engine.calls (Engine.step st (Engine.TimeUpdate 2))
         = Engine.calls st ++ [Engine.Pause; Engine.Seek 1]
       ∧ Engine.media (Engine.step st (Engine.TimeUpdate 2)) = Engine.mkMedia true 1).
Proof.
  apply (X6_sentence_is_played_N_times Examples.lesson (Some "a"%string) Sample.loop3
           Sample.A 1 [2%Q; 2%Q] 2).
  - reflexivity.
  - vm_compute. discriminate.
  - reflexivity.
  - repeat constructor; vm_compute; discriminate.
  - vm_compute. discriminate.
Defined.

Lemma X7_witness :
  let st := Engine.run (Engine.playing Examples.lesson (Some "a"%string) Examples.forever 1)
                       (Scenario.cycles [2%Q; 2%Q; 2%Q]) in
  Engine.player st = Engine.mkPlayer 3 false
  ∧ Engine.calls st = Scenario.cycleCalls 3 1
  ∧ Engine.timers st = []
  ∧ Engine.currentSentenceId (Engine.page st) = Some "a"%string
  ∧ Engine.belowBudget (Engine.currentLoop (Engine.player st))
      (Engine.maxLoops (Engine.settings (Engine.page st))) = true.
Proof.
  apply (X7_infinite_option_never_ends Examples.lesson (Some "a"%string)
           Examples.forever Sample.A 1 [2%Q; 2%Q; 2%Q]).
  - reflexivity.
  - reflexivity.
  - repeat constructor; vm_compute; discriminate.
Defined.

Lemma X8_witness :
  Engine.timers
    (Engine.run (Engine.playing Examples.lesson (Some "a"%string) Sample.loop3 1)
                [Engine.TimeUpdate 2]) ≠ [].
Proof.
  apply (X8_awaiting_has_a_timer Examples.lesson (Some "a"%string) Sample.loop3 1
           [Engine.TimeUpdate 2]).
  reflexivity.
Defined.

Lemma X9_witness :
  Engine.run Examples.awaiting (Engine.plays [2%Q; 3%Q] 4)
  = Engine.mediaAdvance 4 Examples.awaiting.
Proof.
  apply (X9_delay_ignores_updates Examples.awaiting Sample.A [2%Q; 3%Q] 4);
    reflexivity.
Defined.

Lemma X10_witness :
  let st := Engine.playing Examples.lesson None Sample.loop3 1 in
  Engine.run st (Engine.plays [2%Q; 3%Q] 4)
  = Engine.mkState (Engine.page st) (Engine.player st) (Engine.mkMedia true 4)
      (Engine.timers st) (Engine.calls st ++ repeat Engine.Pause 3).
Proof.
  apply (X10_unselected_updates_pause
           (Engine.playing Examples.lesson None Sample.loop3 1) [2%Q; 3%Q] 4).
  reflexivity.
Defined.

Lemma X11_witness :
  Engine.step Examples.awaiting (Engine.Click Sample.A)
  = Engine.mkState (Engine.page Examples.awaiting) (Engine.player Examples.awaiting)
      (Engine.mkMedia false 1) (Engine.timers Examples.awaiting)
      (Engine.calls Examples.awaiting ++ [Engine.Seek 1; Engine.Play]).
Proof.
  apply (X11_click_on_active_sentence Examples.awaiting Sample.A). reflexivity.
Defined.

Lemma X12_witness :
  let st := Engine.playing Examples.lesson (Some "a"%string) Sample.loop3 1 in
  Engine.currentSentenceId (Engine.page (Engine.handleNext st)) = Some "b"%string
  ∧ Engine.media (Engine.handleNext st) = Engine.mkMedia false 2
  ∧ Engine.currentSentenceId (Engine.page (Engine.handlePrev (Engine.handleNext st)))
    = Some "a"%string
  ∧ Engine.media (Engine.handlePrev (Engine.handleNext st)) = Engine.mkMedia false 1.
Proof.
  apply (X12_next_then_previous
           (Engine.playing Examples.lesson (Some "a"%string) Sample.loop3 1)
           0 Sample.A Sample.B); try reflexivity.
  apply (bool_decide_unpack _). vm_compute. exact I.
Defined.

Lemma X13_witness :
  let st := Engine.playing Examples.lesson (Some "b"%string) Sample.loop3 1 in
  Engine.handleNext st = st.
Proof.
  apply (proj1 (X13_arrows_at_the_ends
                  (Engine.playing Examples.lesson (Some "b"%string) Sample.loop3 1))).
  reflexivity.
Defined.

Lemma X14_witness :
  PlayerPage.onUpdateSentence Examples.A_longer Examples.lesson
  = [Examples.A_longer; Sample.B].
Proof.
  apply (proj1 (X14_onUpdateSentence_replaces_in_place
                  Examples.A_longer Examples.lesson 0 Sample.A
                  ltac:(apply (bool_decide_unpack _); vm_compute; exact I)
                  eq_refl eq_refl)).
Defined.

Lemma X15_witness :
  ∃ ps' saved,
    Storage.lingoloop_data
      (Storage.localStorage (Service.updateProjectInStorage 5 Examples.p2 Sample.world))
    = Storage.Json ps'
    ∧ ps' !! 1%nat = Some saved
    ∧ Storage.lastAccessedAt saved = 5
    ∧ Storage.sameButLastAccessedAt Examples.p2 saved.
Proof.
  destruct (X15_updateProject_replaces_first_match 5 Examples.p2 Sample.world _
              eq_refl eq_refl) as [_ H].
  destruct (H 1%nat Examples.p2 eq_refl eq_refl) as (ps' & saved & H1 & H2 & H3 & H4 & _).
  { intros [|j] q Hj Hq; [|lia]. vm_compute in Hq. injection Hq as <-. discriminate. }
  exists ps', saved.
  split; [exact H1|]. split; [exact H2|]. split; [exact H3|exact H4].
Defined.

Lemma X16_witness :
  ∃ ps' moved,
    Storage.lingoloop_data
      (Storage.localStorage (Service.moveProjectToGroup "p2" None Sample.world))
    = Storage.Json ps'
    ∧ ps' !! 1%nat = Some moved
    ∧ Storage.groupId moved = None
    ∧ Storage.sameButGroupId Examples.p2 moved.
Proof.
  destruct (X16_moveProject_changes_one_groupId "p2" None Sample.world _
              eq_refl eq_refl) as [_ H].
  destruct (H 1%nat Examples.p2 eq_refl eq_refl) as (ps' & moved & H1 & H2 & H3 & H4 & _).
  { intros [|j] q Hj Hq; [|lia]. vm_compute in Hq. injection Hq as <-. discriminate. }
  exists ps', moved.
  split; [exact H1|]. split; [exact H2|]. split; [exact H3|exact H4].
Defined.

Lemma X17_witness :
  ∃ w' ps' p',
    Storage.deleteGroup "g1"
      (Service.moveProjectToGroup "p2" (Some "g1"%string) Sample.world)
    = (Storage.Returns, w')
    ∧ Storage.lingoloop_data (Storage.localStorage w') = Storage.Json ps'
    ∧ ps' !! 1%nat = Some p'
    ∧ Storage.groupId p' = None
    ∧ Storage.sameButGroupId Examples.p2 p'
    ∧ length ps' = 3%nat.
Proof.
  apply (X17_move_then_deleteGroup "g1" 1 Examples.p2 Sample.world _ _
           eq_refl eq_refl eq_refl eq_refl).
  intros [|j] q Hj Hq; [|lia]. vm_compute in Hq. injection Hq as <-. discriminate.
Defined.

Lemma X18_witness :
  ∃ w', Storage.deleteGroup "g1" Sample.world = (Storage.Returns, w')
    ∧ (∀ p, p ∈ Storage.getProjects w' → Storage.groupId p ≠ Some "g1"%string)
    ∧ (∀ x, x ∈ Storage.getGroups w' → Storage.Group.id x ≠ "g1"%string)
    ∧ HomePage.filteredProjects (Some "g1"%string) (Storage.getProjects w') = []
    ∧ ∃ w'', Storage.deleteGroup "g1" w' = (Storage.Returns, w'')
        ∧ Storage.getProjects w'' = Storage.getProjects w'
        ∧ Storage.getGroups w'' = Storage.getGroups w'.
Proof. apply (X18_deleteGroup_leaves_no_reference "g1" Sample.world). reflexivity. Defined.

Lemma X19_witness :
  ∃ w1 w2,
    Service.createGroup "g3" 7 "three" Sample.world = (Storage.Returns, w1)
    ∧ Storage.getGroups w1
      = Storage.getGroups Sample.world ++ [Storage.Group.mk "g3" "three" 7]
    ∧ Storage.getProjects w1 = Storage.getProjects Sample.world
    ∧ Storage.deleteGroup "g3" w1 = (Storage.Returns, w2)
    ∧ Storage.getGroups w2 = Storage.getGroups Sample.world
    ∧ Storage.getProjects w2 = Storage.getProjects Sample.world.
Proof.
  apply (X19_createGroup_then_deleteGroup "g3" 7 "three" Sample.world).
  - reflexivity.
  - apply Forall_forall. repeat constructor; discriminate.
  - apply Forall_forall. repeat constructor; discriminate.
Defined.

Lemma X20_witness :
  Storage.mediaDB (Storage.deleteProjectFromStorage Storage.TxCompletes "p2" Sample.world).2
    !! "p1"%string
  = Storage.mediaDB Sample.world !! "p1"%string.
Proof.
  apply (proj1 (X20_deleteProject_is_local Storage.TxCompletes "p2" Sample.world)).
  discriminate.
Defined.

Lemma X21_witness :
  let db' := (Service.saveMediaToDB Storage.TxCompletes "p2" Examples.song
                (Storage.mediaDB Sample.world)).2 in
  Service.getMediaFromDB Storage.TxCompletes "p1" db'
  = Service.getMediaFromDB Storage.TxCompletes "p1" (Storage.mediaDB Sample.world).
Proof.
  apply (proj1 (proj2 (X21_media_save_then_get "p2" Examples.song
                         (Storage.mediaDB Sample.world)))).
  discriminate.
Defined.

Lemma X22_witness :
  PlayerPage.loadMedia Storage.TxCompletes
    (Storage.mkProject "p1" None "lesson" 0 0 Storage.audio "a.mp3" None None [] (-1) 70 16 0)
    None
    (Service.saveMediaToDB Storage.TxCompletes "p1" Examples.song ∅).2
  = Some (PlayerPage.Local Examples.song).
Proof.
  apply (proj1 (proj2 (X22_loadMedia_source
    (Storage.mkProject "p1" None "lesson" 0 0 Storage.audio "a.mp3" None None [] (-1) 70 16 0)
    ∅))).
  - reflexivity.
  - discriminate.
Defined.

Lemma X23_witness :
  ∃ saved,
    Storage.getProjects
      (PlayerPage.persistenceSync 9 Examples.p2 Examples.lesson (Some "b"%string)
         (1 # 2) 18 (3 # 2) Sample.world) !! 1%nat
      = Some saved
    ∧ Storage.id saved = Storage.id Examples.p2
    ∧ Storage.sentences saved = Examples.lesson
    ∧ Storage.splitRatio saved = (1 # 2)%Q ∧ Storage.fontSize saved = 18
    ∧ Storage.currentTime saved = (3 # 2)%Q
    ∧ Storage.lastAccessedAt saved = 9
    ∧ (∀ c s, Some "b"%string = Some c → s ∈ Examples.lesson → id s = c →
              PlayerPage.initialSentenceId saved = Some c)
    ∧ ((∀ s, s ∈ Examples.lesson → Engine.hasId (Some "b"%string) s = false) →
              PlayerPage.initialSentenceId saved = None).
Proof.
  apply (X23_session_survives_reload 9 Examples.p2 Examples.lesson (Some "b"%string)
           (1 # 2) 18 (3 # 2) Sample.world 1 Examples.p2 eq_refl eq_refl eq_refl).
  intros [|j] q Hj Hq; [|lia]. vm_compute in Hq. injection Hq as <-. discriminate.
Defined.

Lemma X24_witness :
  ∃ w', HomePage.handleCreateProject "p4" 7 "new" None Sample.world
        = (Storage.Returns, w')
        ∧ Storage.getProjects w'
          = Storage.getProjects Sample.world ++ [Service.createProject "p4" 7 "new" None]
        ∧ Service.createProject "p4" 7 "new" None
            ∈ HomePage.filteredProjects None (Storage.getProjects w')
        ∧ Storage.getGroups w' = Storage.getGroups Sample.world
        ∧ Storage.mediaDB w' = Storage.mediaDB Sample.world.
Proof.
  apply (proj1 (proj2 (proj2
           (X24_createProject_is_listed "p4" 7 "new" None Sample.world)))).
  - reflexivity.
  - discriminate.
  - reflexivity.
Defined.

Lemma X25_witness :
  let ratio' := PlayerPage.handleMouseMove 300 1000 70 in
  (20 < ratio')%Q ∧ (ratio' < 80)%Q
  ∧ 12 ≤ TextEditor.fontSmaller 16 ≤ 32
  ∧ 12 ≤ TextEditor.fontLarger 16 ≤ 32
  ∧ ∀ project ss cur t,
      let saved := PlayerPage.updatedProject project ss cur ratio'
                     (TextEditor.fontLarger 16) t in
      PlayerPage.initialSplitRatio saved = ratio'
      ∧ PlayerPage.initialFontSize saved = TextEditor.fontLarger 16.
Proof.
  apply (X25_view_preferences_in_range 300 1000 70 16).
  - reflexivity.
  - reflexivity.
  - lia.
Defined.

